(** * FenicsSolver: SolverBase and LinearElasticitySolver

    A shallow embedding of the configuration-driven parts of
    [FenicsSolver/SolverBase.py] and [FenicsSolver/LinearElasticitySolver.py]:
    value translation, boundary-condition dispatch, form building, the
    rigid-body nullspace and the transient driver.

    Conventions of the embedding.
    - Python exceptions are values of [exn]; a method is a computation in
      [M], which records what the method prints or asks of an external
      collaborator (plot, save, solve) and ends by returning, by raising,
      or, for the [while] loop of the driver only, by running out of fuel.
    - Numbers of the time schedule are kept abstract behind the class
      [Number]. The code computes the times in binary64
      ([dt = float(...)], [current_time += dt]): the statements on the
      number of passes are made for that instance or for every
      instance; the instance of exact rationals [Q] serves the
      statements that do not depend on rounding.
    - Objects of dolfin / UFL are symbolic terms: the embedding builds the
      same expression tree as the source and does not assemble it. *)

From Stdlib Require Import ZArith QArith Qfield List String Ascii Bool Lia.
From Stdlib Require Import Floats.PrimFloat Numbers.Cyclic.Int63.Uint63.
Import ListNotations.

Set Implicit Arguments.
Set Warnings "-inexact-float,-register-all".
Local Open Scope string_scope.
Local Open Scope list_scope.

(* ===================================================================== *)
(** * Python runtime: exceptions, output, computations                    *)
(* ===================================================================== *)

Module Py.

(** The exceptions the modelled methods can raise. [UnboundLocalError]
    is a subclass of [NameError] in Python. *)
Inductive exn : Type :=
| KeyError (key : string)
| IndexError
| TypeError (msg : string)
| NameError (name : string)
| UnboundLocalError (name : string)
| ZeroDivisionError
| AssertionError
| SolverError (msg : string)
| ValueError (msg : string)
| ImportError (name : string)
| Exception (msg : string).

(** Observable effects, in program order. [T] is the type of time
    values. *)
Inductive event (T : Type) : Type :=
| Print (line : string)
| PrintBoundary (boundary_id : Z)
| PrintArea (area : Q)
| PrintStep (step : nat) (time : T)
| CallSolveCurrentStep (step : nat) (time : T)
| CallPlot (step : nat)
| CallSave (filename : string) (step : nat) (time : T)
| PrintSaved (filename : string) (step : nat) (time : T)
| CallPlotBoundaryFacets.

Arguments Print {T} line.
Arguments PrintBoundary {T} boundary_id.
Arguments PrintArea {T} area.
Arguments CallPlot {T} step.
Arguments CallPlotBoundaryFacets {T}.

Inductive outcome (A : Type) : Type :=
| Return (a : A)
| Raise (e : exn)
| Diverge.

Arguments Raise {A} e.
Arguments Diverge {A}.

(** A computation: what was emitted, then how it ended. *)
Definition M (T A : Type) : Type := (list (event T) * outcome A)%type.

Definition ret {T A} (a : A) : M T A := ([], Return a).
Definition raise {T A} (e : exn) : M T A := ([], Raise e).
Definition diverge {T A} : M T A := ([], Diverge).
Definition emit {T} (e : event T) : M T unit := ([e], Return tt).
Definition print {T} (line : string) : M T unit := emit (Print line).

Definition bind {T A B} (m : M T A) (k : A -> M T B) : M T B :=
  match m with
  | (out, Return a) => let (out', r) := k a in (out ++ out', r)
  | (out, Raise e) => (out, Raise e)
  | (out, Diverge) => (out, Diverge)
  end.

Definition outcome_of {T A} (m : M T A) : outcome A := snd m.

Definition returns {T A} (m : M T A) : bool :=
  match outcome_of m with Return _ => true | _ => false end.

(** Subscript of a sequence: [l[i]] raises [IndexError] out of range. *)
Definition getitem {T A} (l : list A) (i : nat) : M T A :=
  match nth_error l i with
  | Some a => ret a
  | None => raise IndexError
  end.

(** Subscript of a dict entry that may be absent. *)
Definition getkey {T A} (key : string) (entry : option A) : M T A :=
  match entry with
  | Some a => ret a
  | None => raise (KeyError key)
  end.

End Py.

Import Py.

Declare Scope py_scope.
Delimit Scope py_scope with py.
Notation "x <- m ;; k" := (bind m (fun x => k))
  (at level 61, m at next level, right associativity) : py_scope.
Notation "m ;;; k" := (bind m (fun _ => k))
  (at level 61, right associativity) : py_scope.
Local Open Scope py_scope.

(* ===================================================================== *)
(** * Numbers of the time schedule                                        *)
(* ===================================================================== *)

(** What the driver needs of a time value. [num_of_Z] embeds a Python
    [int]; [num_ltb] is [<]. *)
Class Number (T : Type) : Type := {
  num_add : T -> T -> T;
  num_sub : T -> T -> T;
  num_mul : T -> T -> T;
  num_ltb : T -> T -> bool;
  num_of_Z : Z -> T
}.

Definition Qltb (a b : Q) : bool := negb (Qle_bool b a).

#[global] Instance Number_Q : Number Q := {
  num_add := Qplus;
  num_sub := Qminus;
  num_mul := Qmult;
  num_ltb := Qltb;
  num_of_Z := inject_Z
}.

Definition float_of_Z (z : Z) : float :=
  match z with
  | Z0 => PrimFloat.zero
  | Zpos _ => PrimFloat.of_uint63 (Uint63.of_Z z)
  | Zneg p => PrimFloat.opp (PrimFloat.of_uint63 (Uint63.of_Z (Zpos p)))
  end.

#[global] Instance Number_float : Number float := {
  num_add := PrimFloat.add;
  num_sub := PrimFloat.sub;
  num_mul := PrimFloat.mul;
  num_ltb := PrimFloat.ltb;
  num_of_Z := float_of_Z
}.

(* ===================================================================== *)
(** * SolverBase: the time schedule and the transient driver              *)
(* ===================================================================== *)

Section TimeSchedule.

Context {T : Type} `{Number T}.

(** [solver_settings['transient_settings']]. [time_step] is [Some dt] when
    [float(transient_settings['time_step'])] succeeds with [dt] and [None]
    when it raises (key absent, [None], a list ...). [time_series] is
    [None] when the key is absent. *)
Record transient_settings : Type := {
  transient : bool;
  starting_time : T;
  time_step : option T;
  ending_time : T;
  time_series : option (list T)
}.

(** [report_settings]: [saving_freq] may be [None]; [result_filename] is
    [Some f] when the key is present with a non-empty name. *)
Record report_settings : Type := {
  plotting_freq : Z;
  saving_freq : option Z;
  result_filename : option string
}.

(** [SolverBase.get_time_step(self, time_iter_)]. *)
Definition get_time_step (ts : transient_settings) (time_iter_ : nat) : M T T :=
  match time_step ts with
  | Some dt => ret dt
  | None =>
      series <- getkey "time_series" (time_series ts) ;;
      if (time_iter_ <=? List.length series)%nat then
        a <- getitem series time_iter_ ;;
        b <- getitem series time_iter_ ;;
        ret (num_sub a b)
      else
        print "time step can only be a sequence or scalar" ;;;
        raise (UnboundLocalError "dt")
  end.

(** [SolverBase.get_current_time(self, time_iter_=None)]; [current_step]
    is [self.current_step]. [not time_iter_] holds for [None] and for 0. *)
Definition get_current_time (ts : transient_settings) (current_step : nat)
    (time_iter_ : option nat) : M T T :=
  let time_iter_ :=
    match time_iter_ with
    | None | Some O => current_step
    | Some k => k
    end in
  match time_step ts with
  | Some dt =>
      ret (num_add (starting_time ts)
                   (num_mul dt (num_of_Z (Z.of_nat time_iter_ - 1))))
  | None =>
      series <- getkey "time_series" (time_series ts) ;;
      if (time_iter_ <=? List.length series)%nat then
        getitem series time_iter_
      else
        print "time point can only be a sequence of time series or derived from constant time step" ;;;
        raise (UnboundLocalError "tp")
  end.

(** The part of [self] the driver owns, and the rest [R] (field history,
    result), which only [solve_current_step] touches. *)
Record driver_state (R : Type) : Type := {
  current_step : nat;
  current_time : T;
  fields : R
}.

Section Driver.

Variable R : Type.

(** [self.init_solver()] and [self.solve_current_step()]: overloaded by
    derived classes, so parameters here. *)
Variable init_solver : R -> M T R.
Variable solve_current_step : nat -> T -> R -> M T R.

Variable ts : transient_settings.
Variable rs : report_settings.

(** [sf and sf > 0] *)
Definition saving_enabled : bool :=
  match saving_freq rs with
  | Some sf => negb (sf =? 0)%Z && (0 <? sf)%Z
  | None => false
  end.

(** One pass through the body of [while self.current_time < t_end]
    up to the [break] test; returns the state and the step [dt]. *)
Definition loop_body (filename : string) (st : driver_state R)
    : M T (driver_state R * T) :=
  let step := current_step st in
  let time := current_time st in
  dt <- (if transient ts then get_time_step ts step else ret (num_of_Z 1)) ;;
  emit (CallSolveCurrentStep step time) ;;;
  r <- solve_current_step step time (fields st) ;;
  emit (PrintStep step time) ;;;
  let pf := plotting_freq rs in
  (if (0 <? pf)%Z && (0 <? step)%nat && (Z.of_nat step mod pf =? 0)%Z
   then emit (CallPlot step) else ret tt) ;;;
  (if saving_enabled then
     match saving_freq rs with
     | Some sf =>
         if (0 <? step)%nat && (Z.of_nat step mod sf =? 0)%Z then
           emit (CallSave filename step time) ;;;
           emit (PrintSaved filename step time)
         else ret tt
     | None => ret tt
     end
   else ret tt) ;;;
  ret ({| current_step := step; current_time := time; fields := r |}, dt).

(** The [while] loop, with fuel. *)
Fixpoint transient_loop (fuel : nat) (t_end : T) (filename : string)
    (st : driver_state R) : M T (driver_state R) :=
  match fuel with
  | O => diverge
  | S fuel' =>
      if num_ltb (current_time st) t_end then
        p <- loop_body filename st ;;
        let (st', dt) := p in
        if negb (transient ts) then ret st'
        else
          transient_loop fuel' t_end filename
            {| current_step := S (current_step st');
               current_time := num_add (current_time st') dt;
               fields := fields st' |}
      else ret st
  end.

(** [SolverBase.solve_transient(self)]: the final state of [self]
    ([self.w_current] is part of [fields]). *)
Definition solve_transient (fuel : nat) (r0 : R) : M T (driver_state R) :=
  r <- init_solver r0 ;;
  let t0 := starting_time ts in
  let t_end := if transient ts then ending_time ts
               else num_add t0 (num_of_Z 1) in
  let filename :=
    match result_filename rs with
    | Some f => f
    | None => "result_file.pvd"
    end in
  transient_loop fuel t_end filename
    {| current_step := O; current_time := t0; fields := r |}.

End Driver.

End TimeSchedule.

Arguments transient_settings T : clear implicits.
Arguments driver_state T R : clear implicits.

(** Number of times the driver entered [solve_current_step]. *)
Definition solve_calls {T} (out : list (event T)) : nat :=
  List.length (filter (fun e => match e with CallSolveCurrentStep _ _ => true | _ => false end) out).

(** State of the driver after [n] passes when every pass keeps the step
    [dt] and [solve_current_step] returns [g step time fields]. *)
Fixpoint run_steps {T} `{Number T} {R : Type} (g : nat -> T -> R -> R) (dt : T)
    (n : nat) (st : driver_state T R) : driver_state T R :=
  match n with
  | O => st
  | S n' =>
      run_steps g dt n'
        {| current_step := S (current_step st);
           current_time := num_add (current_time st) dt;
           fields := g (current_step st) (current_time st) (fields st) |}
  end.

(* ===================================================================== *)
(** * Values of the case settings and symbolic dolfin / UFL objects       *)
(* ===================================================================== *)

(** A function space: [self.function_space], a caller-supplied space, or
    a sub-space [W.sub(i)]. *)
Inductive space : Type :=
| SelfFunctionSpace
| GivenSpace (name : string)
| SubSpace (W : space) (i : nat).

(** Python values that reach [translate_value] and the boundary
    dispatch. [PObject] is any object of a type the source does not test
    for; it carries the text of [type(value)]. *)
Inductive pyval : Type :=
| PNone
| PNum (x : Q)
| PStr (s : string)
| PList (items : list pyval)
| PTuple (items : list pyval)
| PArray (items : list pyval)
| PConstant (v : pyval)
| PFunction (f : field)
| PExpression (src : pyval) (degree : Z)
| PCallable (f : Q -> pyval)
| PObject (type_repr : string)
with field : Type :=
| Buffer (name : string)
| Interpolate (e : pyval) (W : space)
| InterpolateNonmatching (path : string) (W : space).

(** UFL expression trees. [Val] embeds a Python value used as an operand
    and [Float] a Python number computed by the solver itself. *)
Inductive ufl : Type :=
| Val (v : pyval)
| Float (x : Q)
| TrialFunction
| TestFunction
| FacetNormal
| Identity (n : nat)
| Add (a b : ufl)
| Sub (a b : ufl)
| Mul (a b : ufl)
| Div (a b : ufl)
| Dot (a b : ufl)
| Inner (a b : ufl)
| Grad (a : ufl)
| Divergence (a : ufl)
| Sym (a : ufl)
| dx
| ds
| ds_ (boundary_id : Z).

(** An entry of the list [bcs] handed to the linear solve. *)
Inductive constraint : Type :=
| DirichletBC (W : space) (value : pyval) (boundary_id : Z)
| SourceObject (value : option pyval) (direction : option pyval)
| NoneObject.

Definition is_number (v : pyval) : bool :=
  match v with PNum _ => true | _ => false end.

Definition is_str (v : pyval) : bool :=
  match v with PStr _ => true | _ => false end.

Definition is_None (v : pyval) : bool :=
  match v with PNone => true | _ => false end.

(** [isinstance(v, (tuple, list))] *)
Definition tuple_or_list (v : pyval) : option (list pyval) :=
  match v with
  | PList items | PTuple items => Some items
  | _ => None
  end.

(** Text of [type(value)] as Python 2.7 prints it. *)
Definition type_repr_of (v : pyval) : string :=
  match v with
  | PNone => "<type 'NoneType'>"
  | PNum _ => "<type 'float'>"
  | PStr _ => "<type 'str'>"
  | PList _ => "<type 'list'>"
  | PTuple _ => "<type 'tuple'>"
  | PArray _ => "<type 'numpy.ndarray'>"
  | PConstant _ => "<class 'dolfin.functions.constant.Constant'>"
  | PFunction _ => "<class 'dolfin.functions.function.Function'>"
  | PExpression _ _ => "<class 'dolfin.functions.expression.Expression'>"
  | PCallable _ => "<type 'function'>"
  | PObject r => r
  end.

(** Truth value of an object. dolfin objects and plain objects are true;
    an array of more than one element refuses the test. *)
Definition truthy (v : pyval) : M Q bool :=
  match v with
  | PNone => ret false
  | PNum x => ret (negb (Qeq_bool x 0))
  | PStr s => ret (negb (String.eqb s ""))
  | PList items | PTuple items =>
      ret (match items with [] => false | _ => true end)
  | PArray items =>
      match items with
      | [] => ret false
      | [PNum x] => ret (negb (Qeq_bool x 0))
      | [_] => ret true
      | _ => raise (ValueError "The truth value of an array with more than one element is ambiguous")
      end
  | _ => ret true
  end.

(** ['key' in d and d['key']] for an entry that may be absent. *)
Definition present_and_true (entry : option pyval) : M Q bool :=
  match entry with
  | Some v => truthy v
  | None => ret false
  end.

(** [all(items)] *)
Fixpoint all_true (items : list pyval) : M Q bool :=
  match items with
  | [] => ret true
  | v :: rest =>
      b <- truthy v ;;
      if b then all_true rest else ret false
  end.

(* ===================================================================== *)
(** * The solver object                                                   *)
(* ===================================================================== *)

(** A boundary-condition dict; a field is [None] when the key is absent. *)
Record bc_dict : Type := {
  boundary_id : option Z;
  type : option string;
  value : option pyval;
  direction : option pyval;
  variable : option string
}.

(** The entry ['values'] of a boundary-condition dict, new style. *)
Inductive bc_values : Type :=
| ValuesDict (entries : list (string * bc_dict))
| ValuesList (entries : list bc_dict).

Record bc_settings : Type := {
  base : bc_dict;
  values : option bc_values
}.

Record material_dict : Type := {
  elastic_modulus : option Q;
  poisson_ratio : option Q;
  density : option Q;
  thermal_expansion_coefficient : option Q
}.

Record surface_source_dict : Type := {
  source_value : option pyval;
  source_direction : option pyval
}.

(** What the solver asks of its surroundings: the file system, the
    optional package [fenicstools], the assembled area
    [assemble(Constant(1)*ds(id, domain=mesh))] of a boundary, and the
    truth value [bool(e)] that UFL gives a dolfin object or a UFL
    expression [e] under an [if]. *)
Record environment : Type := {
  path_exists : string -> bool;
  fenicstools_importable : bool;
  boundary_area : Z -> Q;
  ufl_truth : ufl -> M Q bool
}.

(** [self], without the state the driver and the field history own.
    [point_source] is ['point_source' in settings and
    settings['point_source']]; [surface_source] is [None] when the key is
    absent and [Some None] when it holds [None]. *)
Record solver : Type := {
  fe_degree : Z;
  scalar_name : option string;
  vector_name : option string;
  point_source : bool;
  surface_source : option (option surface_source_dict);
  temperature_distribution : option pyval;
  reference_temperature : option Q;
  boundary_conditions : list (string * bc_settings);
  body_source : option pyval;
  material : material_dict;
  schedule : transient_settings Q;
  dimension : nat;
  is_mixed_function_space : bool;
  solving_dynamics : bool;
  surroundings : environment
}.

(** [for x in xs: acc = f(acc, x)], stopping at the first exception. *)
Fixpoint foldM {A B : Type} (f : A -> B -> M Q A) (xs : list B) (acc : A) : M Q A :=
  match xs with
  | [] => ret acc
  | x :: rest => acc' <- f acc x ;; foldM f rest acc'
  end.

(* ===================================================================== *)
(** * SolverBase.translate_value                                          *)
(* ===================================================================== *)

Definition unsupported_sequence (v : pyval) : string :=
  " " ++ type_repr_of v ++
  " is supplied, but only tuple of number and string expr of dim = len(v) are supported".

Definition unsupported_value (v : pyval) : string :=
  "Warning: " ++ type_repr_of v ++
  " is supplied, not tuple, number, Constant,file name, Expression".

(** The branch [isinstance(value, (tuple, list, np.ndarray))]; [items]
    are the elements of [value]. The branch that only prints leaves
    [values_0] unbound, so the final [return values_0] raises. *)
Definition translate_sequence (self : solver) (current_step : nat)
    (value : pyval) (items : list pyval) (W : space) : M Q pyval :=
  let unsupported :=
    print (unsupported_sequence value) ;;;
    raise (UnboundLocalError "values_0") in
  if (List.length items =? dimension self)%nat then
    v0 <- getitem items 0 ;;
    if is_number v0 then
      ret (PConstant (match value with PList _ => PTuple items | _ => value end))
    else if is_str v0 then
      let value' :=
        match value with PList _ => PConstant (PTuple items) | _ => value end in
      ret (PFunction (Interpolate (PExpression value' (fe_degree self)) W))
    else unsupported
  else if transient (schedule self) && (dimension self <? List.length items)%nat then
    getitem items current_step
  else unsupported.

(** [SolverBase.translate_value(self, value, function_space=None)];
    [current_step] is [self.current_step]. *)
Definition translate_value (self : solver) (current_step : nat)
    (value : pyval) (function_space : option space) : M Q pyval :=
  let W := match function_space with Some W => W | None => SelfFunctionSpace end in
  match value with
  | PTuple items | PList items | PArray items =>
      translate_sequence self current_step value items W
  | PNum _ => ret (PConstant value)
  | PConstant _ | PFunction _ => ret value
  | PExpression _ _ => ret value
  | PCallable f =>
      if transient (schedule self) then
        t <- get_current_time (schedule self) current_step None ;;
        ret (f t)
      else
        print (unsupported_value value) ;;; ret value
  | PStr s =>
      if path_exists (surroundings self) s then
        if fenicstools_importable (surroundings self) then
          ret (PFunction (InterpolateNonmatching s W))
        else raise (ImportError "fenicstools")
      else ret (PFunction (Interpolate (PExpression value (fe_degree self)) W))
  | PNone => raise (TypeError "None type is supplied as value to be translated")
  | PObject _ => print (unsupported_value value) ;;; ret value
  end.

(** [SolverBase.get_variable_name(self)] *)
Definition get_variable_name (self : solver) : string :=
  match scalar_name self with
  | Some n => n
  | None =>
      match vector_name self with
      | Some n => n
      | None => "unknown"
      end
  end.

Definition lookup_entry {A} (key : string) (entries : list (string * A)) : option A :=
  match find (fun e => String.eqb (fst e) key) entries with
  | Some e => Some (snd e)
  | None => None
  end.

(** [if not variable: variable = self.get_variable_name()] *)
Definition default_variable (self : solver) (variable : option string) : string :=
  match variable with
  | Some name => if String.eqb name "" then get_variable_name self else name
  | None => get_variable_name self
  end.

(** [SolverBase.get_boundary_variable(self, bc, variable=None)] *)
Definition get_boundary_variable (self : solver) (bc : bc_settings)
    (variable_ : option string) : bc_dict :=
  let wanted := default_variable self variable_ in
  match values bc with
  | None => base bc
  | Some (ValuesDict entries) =>
      match lookup_entry wanted entries with
      | Some d => d
      | None => base bc
      end
  | Some (ValuesList entries) =>
      fold_left
        (fun bvariable vbc =>
           match variable vbc with
           | Some name => if String.eqb name wanted then vbc else bvariable
           | None => bvariable
           end)
        entries (base bc)
  end.

(* ===================================================================== *)
(** * LinearElasticitySolver.update_boundary_conditions                   *)
(* ===================================================================== *)

(** [LinearElasticitySolver.get_flux(self, u, mag_vector)]: pass-through. *)
Definition get_flux (u mag_vector : ufl) : ufl := mag_vector.

(** [bc['direction'] if 'direction' in bc and bc['direction'] else
    mesh_normal] *)
Definition direction_or_normal (bc : bc_dict) : M Q ufl :=
  given <- present_and_true (direction bc) ;;
  match direction bc with
  | Some d => if given then ret (Val d) else ret FacetNormal
  | None => ret FacetNormal
  end.

(** [for disp in bv: ...; axis_i += 1] of the Dirichlet branches; [sub]
    gives the space constrained on an axis. *)
Fixpoint constrain_axes (self : solver) (current_step : nat)
    (sub : nat -> space) (i : Z) (axis_i : nat) (bv : list pyval)
    (bcs : list constraint) : M Q (list constraint) :=
  match bv with
  | [] => ret bcs
  | disp :: rest =>
      bcs' <- (if is_None disp then ret bcs
               else
                 val <- translate_value self current_step disp None ;;
                 ret (bcs ++ [DirichletBC (sub axis_i) val i])) ;;
      constrain_axes self current_step sub i (S axis_i) rest bcs'
  end.

Definition unsupported_type (prefix tag : string) : string :=
  prefix ++ "boundary type`" ++ tag ++ "` is not supported".

(** The Dirichlet / displacement branch. *)
Definition dirichlet_boundary (self : solver) (current_step : nat)
    (bc : bc_dict) (i : Z) (bcs : list constraint) : M Q (list constraint) :=
  let V := SelfFunctionSpace in
  if negb (is_mixed_function_space self) then
    bv <- getkey "value" (value bc) ;;
    match tuple_or_list bv with
    | Some items =>
        if (List.length items =? dimension self)%nat then
          constrain_axes self current_step (SubSpace V) i 0 items bcs
        else
          val <- translate_value self current_step bv None ;;
          ret (bcs ++ [DirichletBC V val i])
    | None =>
        val <- translate_value self current_step bv None ;;
        ret (bcs ++ [DirichletBC V val i])
    end
  else
    let disp_i := 0%nat in
    let vel_i := 1%nat in
    match value bc with
    | Some bv =>
        var <- getkey "variable" (variable bc) ;;
        if String.eqb var "displacement" then
          per_axis <-
            match tuple_or_list bv with
            | Some items =>
                if (List.length items =? dimension self)%nat then
                  a <- all_true items ;; ret (negb a)
                else ret false
            | None => ret false
            end ;;
          match tuple_or_list bv with
          | Some items =>
              if per_axis then
                constrain_axes self current_step
                  (SubSpace (SubSpace V disp_i)) i 0 items bcs
              else
                val <- translate_value self current_step bv None ;;
                ret (bcs ++ [DirichletBC (SubSpace V disp_i) val i])
          | None =>
              val <- translate_value self current_step bv None ;;
              ret (bcs ++ [DirichletBC (SubSpace V disp_i) val i])
          end
        else if String.eqb var "velocity" then
          val <- translate_value self current_step bv None ;;
          ret (bcs ++ [DirichletBC (SubSpace V vel_i) val i])
        else if String.eqb var "all" then
          val <- translate_value self current_step bv None ;;
          ret (bcs ++ [DirichletBC V val i])
        else
          emit (PrintBoundary i) ;;;
          raise (SolverError "Error, boundary setting is not supported: ")
    | None => ret bcs
    end.

(** The [force] branch: the traction handed to [get_flux]. *)
Definition force_vector (self : solver) (current_step : nat) (bc : bc_dict)
    : M Q ufl :=
  bv <- getkey "value" (value bc) ;;
  let scalar_force :=
    bc_force <- translate_value self current_step bv None ;;
    id <- getkey "boundary_id" (boundary_id bc) ;;
    let bc_area := boundary_area (surroundings self) id in
    emit (PrintArea bc_area) ;;;
    (if Qeq_bool bc_area 0 then raise ZeroDivisionError else ret tt) ;;;
    let g := Div (Val bc_force) (Float bc_area) in
    direction_vector <- direction_or_normal bc ;;
    ret (Mul direction_vector g) in
  match tuple_or_list bv with
  | Some items =>
      if (List.length items =? dimension self)%nat then
        ret (Val (PConstant bv))
      else scalar_force
  | None => scalar_force
  end.

(** The body of [for name, bc_settings in self.boundary_conditions.items()]. *)
Definition update_boundary (self : solver) (current_step : nat) (u v : ufl)
    (acc : list constraint * list ufl) (item : string * bc_settings)
    : M Q (list constraint * list ufl) :=
  let bcs := fst acc in
  let integrals_N := snd acc in
  i <- getkey "boundary_id" (boundary_id (base (snd item))) ;;
  let bc := get_boundary_variable self (snd item) None in
  emit (PrintBoundary i) ;;;
  ty <- getkey "type" (type bc) ;;
  if String.eqb ty "Dirichlet" || String.eqb ty "displacement" then
    bcs' <- dirichlet_boundary self current_step bc i bcs ;;
    ret (bcs', integrals_N)
  else if String.eqb ty "force" then
    f <- force_vector self current_step bc ;;
    ret (bcs, integrals_N ++ [Mul (Dot (get_flux u f) v) (ds_ i)])
  else if String.eqb ty "pressure" then
    direction_vector <- direction_or_normal bc ;;
    bv <- getkey "value" (value bc) ;;
    val <- translate_value self current_step bv None ;;
    let g := Mul direction_vector (Val val) in
    ret (bcs, integrals_N ++ [Mul (Dot (get_flux u g) v) (ds_ i)])
  else if String.eqb ty "stress" then
    bv <- getkey "value" (value bc) ;;
    val <- translate_value self current_step bv None ;;
    let g := match val with
             | PConstant _ => Val val
             | _ => Dot (Val val) FacetNormal
             end in
    ret (bcs, integrals_N ++ [Mul (Dot (get_flux u g) v) (ds_ i)])
  else if String.eqb ty "Neumann" then
    raise (SolverError (unsupported_type "Neumann " ty))
  else if String.eqb ty "symmetry" then
    raise (SolverError (unsupported_type "symmetry " ty))
  else
    raise (SolverError (unsupported_type "" ty)).

(** [LinearElasticitySolver.update_boundary_conditions(self, time_iter_,
    u, v, ds)]. *)
Definition update_boundary_conditions (self : solver) (current_step : nat)
    (time_iter_ : nat) (u v : ufl) : M Q (list constraint * list ufl) :=
  bcs <- (if point_source self then
            ps <- getkey "surface_source" (surface_source self) ;;
            match ps with
            | Some d => ret [SourceObject (source_value d) (source_direction d)]
            | None => ret [NoneObject]
            end
          else ret []) ;;
  integrals_N <-
    match surface_source self with
    | Some (Some d) =>
        gS <- getkey "value" (source_value d) ;;
        given <- present_and_true (source_direction d) ;;
        if given then ret []
        else ret [Mul (Dot (Mul FacetNormal (get_flux u (Val gS))) v) ds]
    | _ => ret []
    end ;;
  foldM (update_boundary self current_step u v) (boundary_conditions self)
        (bcs, integrals_N).

(* ===================================================================== *)
(** * Field history, acceleration and the weak form                       *)
(* ===================================================================== *)

(** What a field buffer holds: the initial field or the solution of a
    form under constraints (the linear solve itself is external). *)
Inductive content : Type :=
| InitialField
| Solved (F : ufl) (bcs : list constraint).

(** The three buffers of [init_solver], [self.result], and the attribute
    [self.temperature_distribution] ([None] while [hasattr] is false). *)
Record history : Type := {
  w_current : content;
  w_prev : content;
  w_pp : content;
  result : option content;
  temperature_attribute : option pyval
}.

(** The buffers as operands of a form. *)
Definition w_current_ : ufl := Val (PFunction (Buffer "w_current")).
Definition w_prev_ : ufl := Val (PFunction (Buffer "w_prev")).
Definition w_pp_ : ufl := Val (PFunction (Buffer "w_pp")).

(** [a / b] on Python numbers. *)
Definition pydiv (a b : Q) : M Q Q :=
  if Qeq_bool b 0 then raise ZeroDivisionError else ret (a / b)%Q.

(** [Constant(1 / self.get_time_step(k))] *)
Definition inverse_time_step (self : solver) (k : nat) : M Q ufl :=
  dt <- get_time_step (schedule self) k ;;
  inv <- pydiv 1 dt ;;
  ret (Val (PConstant (PNum inv))).

(** [SolverBase.get_acceleration(self, time_iter_)] *)
Definition get_acceleration (self : solver) (time_iter_ : nat) : M Q ufl :=
  if (time_iter_ <? 1)%nat then raise AssertionError
  else
    c <- inverse_time_step self time_iter_ ;;
    let vel := Mul c (Sub w_current_ w_prev_) in
    c_prev <- inverse_time_step self (time_iter_ - 1) ;;
    let vel_prev := Mul c_prev (Sub w_prev_ w_pp_) in
    c' <- inverse_time_step self time_iter_ ;;
    ret (Div (Sub vel vel_prev) c').

(** [mu] and [lmbda] as computed in [sigma] and in [generate_form]. *)
Definition lame (self : solver) : M Q (Q * Q) :=
  elasticity <- getkey "elastic_modulus" (elastic_modulus (material self)) ;;
  nu <- getkey "poisson_ratio" (poisson_ratio (material self)) ;;
  mu <- pydiv elasticity (2 * (1 + nu)) ;;
  lmbda <- pydiv (elasticity * nu) ((1 + nu) * (1 - 2 * nu)) ;;
  ret (mu, lmbda).

(** [LinearElasticitySolver.sigma(self, u)]; [len(u)] is the dimension
    of the vector space. *)
Definition sigma (self : solver) (u : ufl) : M Q ufl :=
  p <- lame self ;;
  let mu := fst p in
  let lmbda := snd p in
  ret (Add (Mul (Float (2 * mu)) (Sym (Grad u)))
           (Mul (Mul (Float lmbda) (Divergence u)) (Identity (dimension self)))).

(** [LinearElasticitySolver.thermal_stress(self, T)] *)
Definition thermal_stress (self : solver) (T : pyval) : M Q ufl :=
  elasticity <- getkey "elastic_modulus" (elastic_modulus (material self)) ;;
  nu <- getkey "poisson_ratio" (poisson_ratio (material self)) ;;
  tec <- getkey "thermal_expansion_coefficient"
           (thermal_expansion_coefficient (material self)) ;;
  ref <- getkey "temperature" (reference_temperature self) ;;
  let thermal_strain := Mul (Float tec) (Sub (Val T) (Val (PConstant (PNum ref)))) in
  c <- pydiv elasticity (1 - 2 * nu) ;;
  ret (Mul (Mul (Float c) thermal_strain) (Identity (dimension self))).

(** The inertial block of [generate_form]. *)
Definition inertial_term (self : solver) (time_iter_ : nat) (v F : ufl) : M Q ufl :=
  if transient (schedule self) && solving_dynamics self then
    if (1 <=? time_iter_)%nat then
      accel <- get_acceleration self time_iter_ ;;
      rho <- getkey "density" (density (material self)) ;;
      ret (Sub F (Mul (Mul (Float rho) (Inner accel v)) dx))
    else ret F
  else ret F.

(** The test of an [if] on a value: Python's own rule for plain
    values, UFL's for a dolfin [Constant], [Function] or [Expression]. *)
Definition object_truth (self : solver) (v : pyval) : M Q bool :=
  match v with
  | PConstant _ | PFunction _ | PExpression _ _ => ufl_truth (surroundings self) (Val v)
  | _ => truthy v
  end.

(** The thermal block of [generate_form]: the new value of the attribute
    and the form. The tests on the setting, on the attribute and on
    [stress_t] are the ones of the source; [attribute] is [None] while
    [hasattr(self, 'temperature_distribution')] is false. *)
Definition thermal_term (self : solver) (current_step : nat)
    (attribute : option pyval) (v F : ufl) : M Q (option pyval * ufl) :=
  attribute' <-
    match attribute with
    | Some _ => ret attribute
    | None =>
        match temperature_distribution self with
        | Some setting =>
            configured <- object_truth self setting ;;
            if configured then
              t <- translate_value self current_step setting None ;;
              ret (Some t)
            else ret None
        | None => ret None
        end
    end ;;
  match attribute' with
  | Some a =>
      nonzero <- object_truth self a ;;
      if nonzero then
        translate_value self current_step a None ;;;
        setting <- getkey "temperature_distribution" (temperature_distribution self) ;;
        stress_t <- thermal_stress self setting ;;
        applies <- ufl_truth (surroundings self) stress_t ;;
        if applies then
          ret (attribute', Sub F (Mul (Inner stress_t (Grad v)) dx))
        else ret (attribute', F)
      else ret (attribute', F)
  | None => ret (attribute', F)
  end.

(** [LinearElasticitySolver.generate_form(self, time_iter_, u, v,
    u_current, u_prev)]: the form, the constraints, and the attribute
    [self.temperature_distribution] afterwards. *)
Definition generate_form (self : solver) (current_step : nat)
    (attribute : option pyval) (time_iter_ : nat) (u v : ufl)
    : M Q (ufl * list constraint * option pyval) :=
  lame self ;;;
  s <- sigma self u ;;
  let F := Mul (Inner s (Grad v)) dx in
  F <- inertial_term self time_iter_ v F ;;
  r <- update_boundary_conditions self current_step time_iter_ u v ;;
  let bcs := fst r in
  let integrals_F := snd r in
  (if (time_iter_ =? 0)%nat then emit CallPlotBoundaryFacets else ret tt) ;;;
  has_source <- present_and_true (body_source self) ;;
  let integrals_F :=
    match body_source self with
    | Some b => if has_source then integrals_F ++ [Mul (Inner (Val b) v) dx]
                else integrals_F
    | None => integrals_F
    end in
  p <- thermal_term self current_step attribute v F ;;
  ret (fold_left Add integrals_F (snd p), bcs, fst p).

(** [SolverBase.init_solver(self)]: the three buffers start from the
    initial field. *)
Definition init_solver (h : history) : M Q history :=
  ret {| w_current := InitialField;
         w_prev := InitialField;
         w_pp := InitialField;
         result := result h;
         temperature_attribute := temperature_attribute h |}.

(** [SolverBase.solve_current_step(self)]: build the form, shift the
    history, solve. *)
Definition solve_current_step (self : solver) (current_step : nat)
    (current_time : Q) (h : history) : M Q history :=
  r <- generate_form self current_step (temperature_attribute h)
         current_step TrialFunction TestFunction ;;
  let F := fst (fst r) in
  let Dirichlet_bcs_up := snd (fst r) in
  let solution := Solved F Dirichlet_bcs_up in
  ret {| w_current := solution;
         w_prev := w_current h;
         w_pp := w_prev h;
         result := Some solution;
         temperature_attribute := snd r |}.

(** Value of an arithmetic expression at a point, given the value each
    buffer has there; [None] outside the arithmetic fragment and on a
    division by zero. *)
Fixpoint pointwise (at_point : string -> Q) (e : ufl) : option Q :=
  let binary (op : Q -> Q -> Q) (a b : ufl) :=
    match pointwise at_point a, pointwise at_point b with
    | Some x, Some y => Some (op x y)
    | _, _ => None
    end in
  match e with
  | Float x => Some x
  | Val (PNum x) => Some x
  | Val (PConstant (PNum x)) => Some x
  | Val (PFunction (Buffer name)) => Some (at_point name)
  | Add a b => binary Qplus a b
  | Sub a b => binary Qminus a b
  | Mul a b => binary Qmult a b
  | Div a b =>
      match pointwise at_point a, pointwise at_point b with
      | Some x, Some y => if Qeq_bool y 0 then None else Some (x / y)%Q
      | _, _ => None
      end
  | _ => None
  end.

(* ===================================================================== *)
(** * SolverBase.get_boundary_value and the names it can see              *)
(* ===================================================================== *)

(** Names bound at module level by [SolverBase.py] itself. Methods of
    the class [SolverBase] are attributes of the class, not module
    globals. *)
Definition module_globals : list string :=
  ["print_function"; "division"; "absolute_import"; "sys"; "str"; "bytes";
   "basestring"; "unicode"; "numbers"; "copy"; "logging"; "np"; "os";
   "SolverError"; "default_report_settings"; "default_solver_parameters";
   "default_case_settings"; "SolverBase"].

Section Globals.

(** Names that [from dolfin import *] binds, and the builtins. *)
Variable external_names : list string.

(** Loading a free name of a method body: module globals, then
    builtins. *)
Definition load_global (name : string) : M Q unit :=
  if existsb (String.eqb name) (module_globals ++ external_names)
  then ret tt
  else raise (NameError name).

(** The statements of [get_boundary_value] before its [return]: the
    local [bvalue], [None] while it is unbound. *)
Definition boundary_value_local (self : solver) (bc : bc_settings)
    (variable_ : option string) : M Q (option pyval) :=
  match values bc with
  | Some vs =>
      let wanted := default_variable self variable_ in
      match vs with
      | ValuesList entries =>
          foldM (fun bvalue vbc =>
                   name <- getkey "variable" (variable vbc) ;;
                   if String.eqb name wanted then
                     val <- getkey "value" (value vbc) ;;
                     ret (Some val)
                   else ret bvalue)
                entries None
      | ValuesDict [] => ret None
      | ValuesDict (_ :: _) =>
          raise (TypeError "string indices must be integers, not str")
      end
  | None =>
      val <- getkey "value" (value (base bc)) ;;
      ret (Some val)
  end.

(** [SolverBase.get_boundary_value(self, bc, variable=None)]. The
    [return] calls the global [translate_value]; what a function of that
    name imported from elsewhere would return is not known, it is an
    opaque object here. *)
Definition get_boundary_value (self : solver) (bc : bc_settings)
    (variable_ : option string) : M Q pyval :=
  bvalue <- boundary_value_local self bc variable_ ;;
  load_global "translate_value" ;;;
  match bvalue with
  | Some _ => ret (PObject "<result of a global translate_value>")
  | None => raise (UnboundLocalError "bvalue")
  end.

End Globals.

(* ===================================================================== *)
(** * SolverBase.build_nullspace                                           *)
(* ===================================================================== *)

(** A degree of freedom of the vector space [V]: the sub-space
    [V.sub(i)] it belongs to and the coordinates of its node. *)
Record dof : Type := {
  sub_space : nat;
  coordinates : list Q
}.

(** A distributed vector: one entry per degree of freedom, and whether
    [apply("insert")] has committed the entries written since. *)
Record vector : Type := {
  entries : list Q;
  finalized : bool
}.

(** [VectorSpaceBasis(vectors)], and whether [orthonormalize()] ran. The
    Gram-Schmidt arithmetic is dolfin's and is not reproduced: [vectors]
    are the vectors handed to it. *)
Record VectorSpaceBasis : Type := {
  vectors : list vector;
  orthonormalized : bool
}.

Definition copy (x : vector) : vector :=
  {| entries := entries x; finalized := finalized x |}.

(** Overwrite the entries of the degrees of freedom of [V.sub(i)]. *)
Fixpoint write_sub (V : list dof) (i : nat) (f : dof -> Q) (xs : list Q) : list Q :=
  match V, xs with
  | d :: V', x :: xs' =>
      (if (sub_space d =? i)%nat then f d else x) :: write_sub V' i f xs'
  | _, _ => xs
  end.

(** [V.sub(i).dofmap().set(x, value)] *)
Definition dofmap_set (V : list dof) (i : nat) (x : vector) (c : Q) : vector :=
  {| entries := write_sub V i (fun _ => c) (entries x); finalized := false |}.

(** [V.sub(i).set_x(x, value, component)] *)
Definition set_x (V : list dof) (i : nat) (x : vector) (c : Q) (component : nat)
    : vector :=
  {| entries := write_sub V i (fun d => c * nth component (coordinates d) 0)%Q
                          (entries x);
     finalized := false |}.

(** [x.apply("insert")] *)
Definition apply_insert (x : vector) : vector :=
  {| entries := entries x; finalized := true |}.

(** [basis[k] = f(basis[k])]: the in-place update of one vector. *)
Fixpoint update_at (k : nat) (f : vector -> vector) (basis : list vector)
    : list vector :=
  match k, basis with
  | O, x :: rest => f x :: rest
  | S k', x :: rest => x :: update_at k' f rest
  | _, [] => []
  end.

(** The list [nullspace_basis] when the [if] on [self.dimension] is
    left. *)
Definition nullspace_basis (dim : nat) (V : list dof) (x : vector)
    : M Q (list vector) :=
  match dim with
  | 3%nat =>
      let b := repeat (copy x) 6 in
      let b := update_at 0 (fun y => dofmap_set V 0 y 1) b in
      let b := update_at 1 (fun y => dofmap_set V 1 y 1) b in
      let b := update_at 2 (fun y => dofmap_set V 2 y 1) b in
      let b := update_at 3 (fun y => set_x V 0 y (-1) 1) b in
      let b := update_at 3 (fun y => set_x V 1 y 1 0) b in
      let b := update_at 4 (fun y => set_x V 0 y 1 2) b in
      let b := update_at 4 (fun y => set_x V 2 y (-1) 0) b in
      let b := update_at 5 (fun y => set_x V 2 y 1 1) b in
      let b := update_at 5 (fun y => set_x V 1 y (-1) 2) b in
      ret b
  | 2%nat =>
      let b := repeat (copy x) 3 in
      let b := update_at 2 (fun y => set_x V 0 y (-1) 1) b in
      let b := update_at 2 (fun y => set_x V 1 y 1 0) b in
      ret b
  | _ => raise (Exception "only 2D or 3D is supported by nullspace")
  end.

(** [SolverBase.build_nullspace(self, V, x)]; [dim] is [self.dimension]. *)
Definition build_nullspace (dim : nat) (V : list dof) (x : vector)
    : M Q VectorSpaceBasis :=
  b <- nullspace_basis dim V x ;;
  let b := map apply_insert b in
  ret {| vectors := b; orthonormalized := true |}.

(** A rigid translation along axis [i]: 1 on the degrees of freedom of
    [V.sub(i)], 0 on all others. *)
Definition translation (V : list dof) (i : nat) : list Q :=
  map (fun d => if (sub_space d =? i)%nat then 1%Q else 0%Q) V.

(* ===================================================================== *)
(** * Vocabulary of the statements                                         *)
(* ===================================================================== *)

(** Times at which the driver entered [solve_current_step]. *)
Fixpoint solve_times {T} (out : list (event T)) : list T :=
  match out with
  | [] => []
  | CallSolveCurrentStep _ t :: rest => t :: solve_times rest
  | _ :: rest => solve_times rest
  end.

(** A schedule given by a time series: [time_step] is not a number. *)
Definition series_schedule (tr : bool) (t0 tend : Q) (series : list Q)
    : transient_settings Q :=
  {| transient := tr; starting_time := t0; time_step := None;
     ending_time := tend; time_series := Some series |}.

(** A schedule with a fixed step. *)
Definition fixed_schedule (t0 dt tend : Q) : transient_settings Q :=
  {| transient := true; starting_time := t0; time_step := Some dt;
     ending_time := tend; time_series := None |}.

(** The default schedule of [default_case_settings], switched to
    transient mode, in exact and in binary64 arithmetic. *)
Definition schedule_Q (series : option (list Q)) : transient_settings Q :=
  {| transient := true; starting_time := 0; time_step := Some 0.01%Q;
     ending_time := 0.03%Q; time_series := series |}.

Definition schedule_float (series : option (list float)) : transient_settings float :=
  {| transient := true; starting_time := 0%float; time_step := Some 0.01%float;
     ending_time := 0.03%float; time_series := series |}.

(** A small case for evaluating the solver: unit elastic modulus,
    Poisson ratio 1/4, unit density, every boundary of area 2, no file
    on disk, every UFL object true. *)
Definition example_surroundings : environment :=
  {| path_exists := fun _ => false;
     fenicstools_importable := false;
     boundary_area := fun _ => 2%Q;
     ufl_truth := fun _ => ret true |}.

Definition example_solver (sched : transient_settings Q) (dim : nat)
    (dynamics : bool) (bcs : list (string * bc_settings)) : solver :=
  {| fe_degree := 1;
     scalar_name := None;
     vector_name := Some "displacement";
     point_source := false;
     surface_source := Some None;
     temperature_distribution := None;
     reference_temperature := None;
     boundary_conditions := bcs;
     body_source := None;
     material := {| elastic_modulus := Some 1%Q;
                    poisson_ratio := Some (1 # 4)%Q;
                    density := Some 1%Q;
                    thermal_expansion_coefficient := None |};
     schedule := sched;
     dimension := dim;
     is_mixed_function_space := false;
     solving_dynamics := dynamics;
     surroundings := example_surroundings |}.

(** The acceleration estimate [get_acceleration] builds, for the
    inverse steps [c] of the current and [c_prev] of the previous pass. *)
Definition acceleration_expr (c c_prev : Q) : ufl :=
  Div (Sub (Mul (Val (PConstant (PNum c))) (Sub w_current_ w_prev_))
           (Mul (Val (PConstant (PNum c_prev))) (Sub w_prev_ w_pp_)))
      (Val (PConstant (PNum c))).

(** Values of the three buffers at a point. *)
Definition buffers_at (wc wp wpp : Q) (name : string) : Q :=
  if String.eqb name "w_current" then wc
  else if String.eqb name "w_prev" then wp
  else wpp.

(** The zero vector on [V], as a fresh [Function(V).vector()] is. *)
Definition zero_vector (V : list dof) : vector :=
  {| entries := repeat 0%Q (List.length V); finalized := true |}.

(** A plane vector space on two nodes, (0,0) and (1,2): the degrees of
    freedom alternate between the two sub-spaces. *)
Definition two_nodes_2d : list dof :=
  [ {| sub_space := 0; coordinates := [0; 0]%Q |};
    {| sub_space := 1; coordinates := [0; 0]%Q |};
    {| sub_space := 0; coordinates := [1; 2]%Q |};
    {| sub_space := 1; coordinates := [1; 2]%Q |} ].

(** An old-style boundary-condition record: no ['values'] entry. *)
Definition old_style_bc (d : bc_dict) : bc_settings :=
  {| base := d; values := None |}.

Definition example_bc : bc_dict :=
  {| boundary_id := Some 1%Z; type := Some "Dirichlet";
     value := Some (PNum 0); direction := None; variable := None |}.

(** Axis values that [translate_value] takes without consulting the
    surroundings: [None] (never translated), numbers, and dolfin objects. *)
Definition plain_axis_value (v : pyval) : bool :=
  match v with
  | PNone | PNum _ | PConstant _ | PFunction _ | PExpression _ _ => true
  | _ => false
  end.

(** What [translate_value] makes of a plain value. *)
Definition translated (v : pyval) : pyval :=
  match v with
  | PNum _ => PConstant v
  | _ => v
  end.

(** One constraint per axis whose value is not [None], on the sub-space
    of that axis, counting axes from [axis_i]. *)
Fixpoint axis_constraints (W : space) (i : Z) (axis_i : nat) (bv : list pyval)
    : list constraint :=
  match bv with
  | [] => []
  | disp :: rest =>
      (if is_None disp then []
       else [DirichletBC (SubSpace W axis_i) (translated disp) i])
      ++ axis_constraints W i (S axis_i) rest
  end.

(** The tags [update_boundary_conditions] has a branch for. *)
Definition recognized (tag : string) : bool :=
  existsb (String.eqb tag) ["Dirichlet"; "displacement"; "force"; "pressure"; "stress"].

(** The message of the [SolverError] raised for a tag without a
    branch: the [Neumann] and [symmetry] branches put their own word in
    front. *)
Definition unsupported_message (tag : string) : string :=
  unsupported_type
    (if String.eqb tag "Neumann" then "Neumann "
     else if String.eqb tag "symmetry" then "symmetry "
     else "")
    tag.

(** A record of type [tag] on boundary 7, old style. *)
Definition tagged_bc (tag : string) (bv : pyval) : bc_settings :=
  old_style_bc {| boundary_id := Some 7%Z; type := Some tag; value := Some bv;
                  direction := None; variable := None |}.

(** The Python numbers that occur as operands of a form, left to
    right, and those of the form a buffer was solved from. *)
Fixpoint operand_numbers (e : ufl) : list Q :=
  match e with
  | Val (PNum x) => [x]
  | Add a b | Sub a b | Mul a b | Div a b | Dot a b | Inner a b =>
      operand_numbers a ++ operand_numbers b
  | Grad a | Divergence a | Sym a => operand_numbers a
  | _ => []
  end.

Definition solved_numbers (c : content) : list Q :=
  match c with
  | Solved F _ => operand_numbers F
  | InitialField => []
  end.

(** The state of a solver object before [solve_transient]. *)
Definition fresh_history : history :=
  {| w_current := InitialField; w_prev := InitialField; w_pp := InitialField;
     result := None; temperature_attribute := None |}.

Definition default_report : report_settings :=
  {| plotting_freq := 10; saving_freq := Some 10%Z; result_filename := None |}.

(* ===================================================================== *)
(** * Further vocabulary: the report policy of the driver                 *)
(* ===================================================================== *)

(** Steps at which the driver called [self.plot()] and [self.save(...)]. *)
Fixpoint plot_steps {T} (out : list (event T)) : list nat :=
  match out with
  | [] => []
  | CallPlot k :: rest => k :: plot_steps rest
  | _ :: rest => plot_steps rest
  end.

Fixpoint save_steps {T} (out : list (event T)) : list nat :=
  match out with
  | [] => []
  | CallSave _ k _ :: rest => k :: save_steps rest
  | _ :: rest => save_steps rest
  end.

(** The tests of the loop body for plotting and saving at a step. *)
Definition plot_due (rs : report_settings) (step : nat) : bool :=
  (0 <? plotting_freq rs)%Z && (0 <? step)%nat
  && (Z.of_nat step mod plotting_freq rs =? 0)%Z.

Definition save_due (rs : report_settings) (step : nat) : bool :=
  match saving_freq rs with
  | Some sf => (0 <? sf)%Z && (0 <? step)%nat && (Z.of_nat step mod sf =? 0)%Z
  | None => false
  end.

(** What one pass emits when the solve itself emits nothing. *)
Definition pass_events {T} (rs : report_settings) (filename : string)
    (step : nat) (time : T) : list (event T) :=
  [CallSolveCurrentStep step time; PrintStep step time]
  ++ (if plot_due rs step then [CallPlot step] else [])
  ++ (if save_due rs step
      then [CallSave filename step time; PrintSaved filename step time]
      else []).

(** What [n] passes emit, from the state [st] on, with a fixed step. *)
Fixpoint run_events {T} `{Number T} {R : Type} (g : nat -> T -> R -> R)
    (rs : report_settings) (filename : string) (dt : T) (n : nat)
    (st : driver_state T R) : list (event T) :=
  match n with
  | O => []
  | S n' =>
      pass_events rs filename (current_step st) (current_time st)
      ++ run_events g rs filename dt n' (run_steps g dt 1 st)
  end.

(** The file name the driver saves to. *)
Definition saving_filename (rs : report_settings) : string :=
  match result_filename rs with
  | Some f => f
  | None => "result_file.pvd"
  end.

(** The time the driver has accumulated after [k] passes with the
    step [dt]: [t], then [t + dt], then [(t + dt) + dt], ..., each sum
    in the arithmetic of the times. *)
Fixpoint time_after {T} `{Number T} (t dt : T) (k : nat) : T :=
  match k with
  | O => t
  | S k' => time_after (num_add t dt) dt k'
  end.

(** A transient schedule with a fixed step, in any arithmetic. *)
Definition fixed_step_schedule {T} (t0 dt tend : T) : transient_settings T :=
  {| transient := true; starting_time := t0; time_step := Some dt;
     ending_time := tend; time_series := None |}.

(** A solve that returns [g step time fields] except at step [k0], where
    it raises [e]. *)
Definition failing_at {T R} (g : nat -> T -> R -> R) (k0 : nat) (e : exn)
    : nat -> T -> R -> M T R :=
  fun k t r => if (k =? k0)%nat then raise e else ret (g k t r).

(* ===================================================================== *)
(** * Further vocabulary: values                                           *)
(* ===================================================================== *)

(** Values whose translation, when it returns, is a dolfin object:
    numbers, strings, dolfin objects, and sequences of dimension
    length. *)
Definition settles (dim : nat) (v : pyval) : bool :=
  match v with
  | PNum _ | PStr _ | PConstant _ | PFunction _ | PExpression _ _ => true
  | PList items | PTuple items | PArray items => (List.length items =? dim)%nat
  | _ => false
  end.

(** The elements of a sequence value. *)
Definition sequence_items (v : pyval) : option (list pyval) :=
  match v with
  | PList items | PTuple items | PArray items => Some items
  | _ => None
  end.

(* ===================================================================== *)
(** * Further vocabulary: boundary conditions                              *)
(* ===================================================================== *)

(** Whether a record of a ['values'] list is the one for [wanted]. *)
Definition names_variable (wanted : string) (vbc : bc_dict) : bool :=
  match variable vbc with
  | Some name => String.eqb name wanted
  | None => false
  end.

(** The boundary ids printed by [print(bc)], in order. *)
Fixpoint boundary_prints (out : list (event Q)) : list Z :=
  match out with
  | [] => []
  | PrintBoundary i :: rest => i :: boundary_prints rest
  | _ :: rest => boundary_prints rest
  end.

(** The ['boundary_id'] entries of the mapping, in declared order. *)
Definition declared_ids (self : solver) : list (option Z) :=
  map (fun item => boundary_id (base (snd item))) (boundary_conditions self).

(** A constraint on boundary [i], and a weak-form term over boundary
    [i] against the test function [v]. *)
Definition constrains (i : Z) (c : constraint) : Prop :=
  exists W val, c = DirichletBC W val i.

Definition integrates_over (i : Z) (v : ufl) (t : ufl) : Prop :=
  exists g, t = Mul (Dot g v) (ds_ i).

(** What one record of the mapping adds to the two lists: constraints
    or weak-form terms on the record's own boundary id, never both, and
    at most one term. *)
Definition contributes (v : ufl) (item : string * bc_settings)
    (c : list constraint * list ufl) : Prop :=
  exists i,
    boundary_id (base (snd item)) = Some i
    /\ Forall (constrains i) (fst c)
    /\ Forall (integrates_over i v) (snd c)
    /\ (fst c = [] \/ snd c = [])
    /\ (List.length (snd c) <= 1)%nat.

(** An old-style record of type [tag] on boundary [i]. *)
Definition bc_on (i : Z) (tag : string) (bv : pyval) : bc_settings :=
  old_style_bc {| boundary_id := Some i; type := Some tag; value := Some bv;
                  direction := None; variable := None |}.

(** A mapping of three boundaries in the order fixed, loaded, fixed. *)
Definition three_boundaries : list (string * bc_settings) :=
  [("bottom", bc_on 3 "Dirichlet" (PList [PNum 0; PNone; PNone]));
   ("top", bc_on 1 "pressure" (PNum 5));
   ("side", bc_on 2 "displacement" (PNum 0))].

(** A transient 3-D case with a thermal expansion coefficient, a reference
    temperature of 20 and the temperature setting [T]. *)
Definition heated_solver (T : option pyval) : solver :=
  {| fe_degree := 1;
     scalar_name := None;
     vector_name := Some "displacement";
     point_source := false;
     surface_source := None;
     temperature_distribution := T;
     reference_temperature := Some 20%Q;
     boundary_conditions := [];
     body_source := None;
     material := {| elastic_modulus := Some 1%Q;
                    poisson_ratio := Some (1 # 4)%Q;
                    density := Some 1%Q;
                    thermal_expansion_coefficient := Some (1 # 100)%Q |};
     schedule := fixed_schedule 0 1 3;
     dimension := 3;
     is_mixed_function_space := false;
     solving_dynamics := false;
     surroundings := example_surroundings |}.

(** The thermal stress [thermal_stress] builds for the number [T]:
    E / (1 - 2 nu) * (tec * (T - Constant(T_ref))) * Identity(dim). *)
Definition thermal_stress_expr (E nu tec ref T : Q) (dim : nat) : ufl :=
  Mul (Mul (Float (E / (1 - 2 * nu)))
           (Mul (Float tec) (Sub (Val (PNum T)) (Val (PConstant (PNum ref))))))
      (Identity dim).

(** The schedule of a steady case starting at time [t0]. *)
Definition steady_schedule (t0 : Q) : transient_settings Q :=
  {| transient := false; starting_time := t0; time_step := None;
     ending_time := 0; time_series := None |}.

(** Components of a displacement vector: a number or [None]; and the
    components that are true under [all(bv)]. *)
Definition number_or_None (v : pyval) : bool :=
  match v with PNum _ | PNone => true | _ => false end.

Definition nonzero_number (v : pyval) : bool :=
  match v with PNum x => negb (Qeq_bool x 0) | _ => false end.

(** A mixed-space case and a displacement record for it on boundary 4. *)
Definition mixed_solver : solver :=
  {| fe_degree := 1;
     scalar_name := None;
     vector_name := Some "displacement";
     point_source := false;
     surface_source := None;
     temperature_distribution := None;
     reference_temperature := None;
     boundary_conditions := [];
     body_source := None;
     material := {| elastic_modulus := Some 1%Q;
                    poisson_ratio := Some (1 # 4)%Q;
                    density := Some 1%Q;
                    thermal_expansion_coefficient := None |};
     schedule := steady_schedule 0;
     dimension := 3;
     is_mixed_function_space := true;
     solving_dynamics := false;
     surroundings := example_surroundings |}.

Definition mixed_displacement (bv : option pyval) (name : option string) : bc_dict :=
  {| boundary_id := Some 4%Z; type := Some "Dirichlet"; value := bv;
     direction := None; variable := name |}.

(** The settings without their ['surface_source'] entry. *)
Definition without_surface_source (self : solver) : solver :=
  {| fe_degree := fe_degree self;
     scalar_name := scalar_name self;
     vector_name := vector_name self;
     point_source := point_source self;
     surface_source := None;
     temperature_distribution := temperature_distribution self;
     reference_temperature := reference_temperature self;
     boundary_conditions := boundary_conditions self;
     body_source := body_source self;
     material := material self;
     schedule := schedule self;
     dimension := dimension self;
     is_mixed_function_space := is_mixed_function_space self;
     solving_dynamics := solving_dynamics self;
     surroundings := surroundings self |}.

(** A case with the surface source [src] and the point-source flag
    [flag], and the mapping of [three_boundaries]. *)
Definition sourced_solver (flag : bool) (src : option (option surface_source_dict))
    : solver :=
  {| fe_degree := 1;
     scalar_name := None;
     vector_name := Some "displacement";
     point_source := flag;
     surface_source := src;
     temperature_distribution := None;
     reference_temperature := None;
     boundary_conditions := three_boundaries;
     body_source := None;
     material := {| elastic_modulus := Some 1%Q;
                    poisson_ratio := Some (1 # 4)%Q;
                    density := Some 1%Q;
                    thermal_expansion_coefficient := None |};
     schedule := steady_schedule 0;
     dimension := 3;
     is_mixed_function_space := false;
     solving_dynamics := false;
     surroundings := example_surroundings |}.

(** A surface source of magnitude 9 along the first axis. *)
Definition directed_source : surface_source_dict :=
  {| source_value := Some (PNum 9);
     source_direction := Some (PTuple [PNum 1; PNum 0; PNum 0]) |}.

(* ===================================================================== *)
(** * Further vocabulary: rigid-body modes                                 *)
(* ===================================================================== *)

(** The degrees of freedom of a nodal vector space: at each node one
    per axis, in the order of the nodes. *)
Definition node_dofs (dim : nat) (p : list Q) : list dof :=
  map (fun i => {| sub_space := i; coordinates := p |}) (seq 0 dim).

Definition nodal_space (dim : nat) (nodes : list (list Q)) : list dof :=
  flat_map (node_dofs dim) nodes.

(** The cross product [w x p] of two space vectors given by their
    coordinates, and the infinitesimal rotation about the axis [w]: the
    displacement [w x p] at every node [p], in space and in the plane. *)
Definition cross (w p : list Q) : list Q :=
  [ nth 1 w 0 * nth 2 p 0 - nth 2 w 0 * nth 1 p 0;
    nth 2 w 0 * nth 0 p 0 - nth 0 w 0 * nth 2 p 0;
    nth 0 w 0 * nth 1 p 0 - nth 1 w 0 * nth 0 p 0 ]%Q.

Definition rotation_field (w : list Q) (nodes : list (list Q)) : list Q :=
  flat_map (cross w) nodes.

Definition planar_rotation_field (nodes : list (list Q)) : list Q :=
  flat_map (fun p => firstn 2 (cross [0; 0; 1]%Q p)) nodes.

(** A computation that prints no boundary record, however it ends. *)
Definition silent {A} (m : M Q A) : Prop := boundary_prints (fst m) = [].

(** What holds of the output and the value whenever a computation
    returns. *)
Definition post {A} (m : M Q A) (P : list (event Q) -> A -> Prop) : Prop :=
  forall out a, m = (out, Return a) -> P out a.


(* ===================================================================== *)
(** * SolverBase.generate_boundary_facets                                  *)
(* ===================================================================== *)

(** A boundary-condition dict together with its ['boundary'] entry, the
    sub-domain whose [inside] test tells which facets belong to it;
    [None] when the key is absent. *)
Record marked_bc (facet : Type) : Type := {
  bc_record : bc_settings;
  boundary : option (facet -> bool)
}.

Arguments bc_record {facet} _.
Arguments boundary {facet} _.

Section BoundaryFacets.

Variable facet : Type.

(** [SubDomain.mark(mesh_function, id)] of dolfin. *)
Variable mark : (facet -> bool) -> Z -> (facet -> Z) -> M Q (facet -> Z).

(** [SolverBase.generate_boundary_facets(self)]: the value of
    [self.boundary_facets], a label per facet. *)
Definition generate_boundary_facets
    (conditions : list (string * marked_bc facet)) : M Q (facet -> Z) :=
  foldM (fun boundary_facets item =>
           subdomain <- getkey "boundary" (boundary (snd item)) ;;
           id <- getkey "boundary_id" (boundary_id (base (bc_record (snd item)))) ;;
           mark subdomain id boundary_facets)
        conditions (fun _ => 0%Z).

End BoundaryFacets.

(** What [mark] does to the labels: the facets inside the sub-domain
    take the id, the others keep their label. *)
Definition relabel {facet} (subdomain : facet -> bool) (id : Z)
    (labels : facet -> Z) : facet -> Z :=
  fun f => if subdomain f then id else labels f.

(** [mark] on a mesh function of type [size_t]: an id below zero does
    not fit and is refused with a [TypeError]. *)
Definition size_t_mark {facet} (subdomain : facet -> bool) (id : Z)
    (labels : facet -> Z) : M Q (facet -> Z) :=
  if (id <? 0)%Z then raise (TypeError "expected positive 'int' for argument 3")
  else ret (relabel subdomain id labels).

(** Whether a facet is inside the sub-domain of a record, and the id of
    a record. *)
Definition contains {facet} (f : facet) (item : string * marked_bc facet) : bool :=
  match boundary (snd item) with
  | Some subdomain => subdomain f
  | None => false
  end.

Definition id_of {facet} (item : string * marked_bc facet) : Z :=
  match boundary_id (base (bc_record (snd item))) with
  | Some id => id
  | None => 0%Z
  end.

(** Facets numbered along a line: the first [n] of them. *)
Definition first_facets (n : nat) : nat -> bool := fun f => (f <? n)%nat.

(** Two overlapping boundaries: facets 0..5 as boundary 1, then facets
    4..9 (here: below 10, at or above 4) as boundary 2. *)
Definition overlapping_boundaries : list (string * marked_bc nat) :=
  [("left", {| bc_record := bc_on 1 "Dirichlet" (PNum 0);
               boundary := Some (first_facets 6) |});
   ("right", {| bc_record := bc_on 2 "pressure" (PNum 5);
                boundary := Some (fun f => (4 <=? f)%nat && (f <? 10)%nat) |})].

(* ===================================================================== *)
(** * LinearElasticitySolver.velocity                                      *)
(* ===================================================================== *)

(** [LinearElasticitySolver.velocity(self)]; [current_step] is
    [self.current_step]. The time step is looked up before the test on
    the function space. *)
Definition velocity (self : solver) (current_step : nat) : M Q ufl :=
  dt <- get_time_step (schedule self) current_step ;;
  if is_mixed_function_space self then
    raise (SolverError "subclass with mixed_function_space must override this function")
  else
    ret (Div (Sub w_current_ w_prev_) (Val (PConstant (PNum dt)))).

(* ===================================================================== *)
(** * SolverBase.get_body_source                                           *)
(* ===================================================================== *)

(** The dicts of the regions of a multi-region body source are objects
    in a store: an address holds the ['value'] entry of the dict that
    lives there, [None] when that dict has no such key. *)
Definition store : Type := nat -> option pyval.

(** [d['value'] = v] for the dict at address [r]. *)
Definition store_set (st : store) (r : nat) (v : pyval) : store :=
  fun a => if (a =? r)%nat then Some v else st a.

(** [self.body_source]: a dict from region names to dicts, each region
    given by the address of its dict, or any other value ([None] for
    the attribute [None]). *)
Inductive body_source_value : Type :=
| Regions (d : list (string * nat))
| Plain (v : option pyval).

(** [for k in vdict: vdict[k]['value'] =
    self.translate_value(self.body_source[k]['value'])], where [vdict]
    is the shallow copy: both dicts give the same address for [k]. The
    store is returned as it is when an exception leaves the loop. *)
Fixpoint translate_regions (self : solver) (current_step : nat)
    (todo : list (string * nat)) (st : store) : store * M Q unit :=
  match todo with
  | [] => (st, ret tt)
  | (_, r) :: rest =>
      match st r with
      | None => (st, raise (KeyError "value"))
      | Some bvalue =>
          match translate_value self current_step bvalue None with
          | (out, Return v) =>
              let (st', m) :=
                translate_regions self current_step rest (store_set st r v) in
              (st', (out ++ fst m, snd m))
          | (out, Raise e) => (st, (out, Raise e))
          | (out, Diverge) => (st, (out, Diverge))
          end
      end
  end.

(** [SolverBase.get_body_source(self)]: the store afterwards and the
    value returned; [copy.copy] gives a new outer dict over the same
    addresses. *)
Definition get_body_source (self : solver) (current_step : nat)
    (source : body_source_value) (st : store) : store * M Q body_source_value :=
  match source with
  | Regions d =>
      let (st', m) := translate_regions self current_step d st in
      (st', m ;;; ret (Regions d))
  | Plain (Some v) =>
      (st, given <- truthy v ;;
           if given then
             t <- translate_value self current_step v None ;;
             ret (Plain (Some t))
           else ret (Plain None))
  | Plain None => (st, ret (Plain None))
  end.

(** Whether an address is the dict of one of the regions. *)
Definition region_at (d : list (string * nat)) (a : nat) : bool :=
  existsb (fun item => (snd item =? a)%nat) d.

(** A store with the number 9.81 at address 0, the number 0 at address
    1, and nothing elsewhere; and three regions, two of which share the
    dict at address 0. *)
Definition gravity_store : store :=
  fun a => match a with
           | 0%nat => Some (PNum 9.81)
           | 1%nat => Some (PNum 0)
           | _ => None
           end.

Definition three_regions : list (string * nat) :=
  [("steel", 0%nat); ("air", 1%nat); ("copper", 0%nat)].

(* ===================================================================== *)
(** * LinearElasticitySolver.strain_energy and the names it can see        *)
(* ===================================================================== *)

(** Names bound at module level by [LinearElasticitySolver.py] itself. *)
Definition elasticity_module_globals : list string :=
  ["print_function"; "division"; "math"; "collections"; "numbers"; "np";
   "SolverBase"; "SolverError"; "LinearElasticitySolver"].

Section ElasticityGlobals.

(** Names that [from dolfin import *] binds, and the builtins. *)
Variable external_names : list string.

Definition load_elasticity_global (name : string) : M Q unit :=
  if existsb (String.eqb name) (elasticity_module_globals ++ external_names)
  then ret tt
  else raise (NameError name).

(** [LinearElasticitySolver.strain_energy(self, u)]. The [return]
    expression loads the globals [tr], [eps] and [v], in this order,
    after [lmbda/2.0]; what it would give if all three were bound is
    not known, it is an opaque object here. *)
Definition strain_energy (self : solver) (u : ufl) : M Q pyval :=
  lame self ;;;
  load_elasticity_global "tr" ;;;
  load_elasticity_global "eps" ;;;
  load_elasticity_global "v" ;;;
  ret (PObject "<result over the globals eps and v>").

End ElasticityGlobals.
(* ===================================================================== *)
(** * Properties                                                           *)
(* ===================================================================== *)

(** ** Computations *)

Lemma bind_ret_l {T A B} (a : A) (k : A -> M T B) : bind (ret a) k = k a.
Proof. unfold bind, ret. destruct (k a) as [o r]. reflexivity. Qed.

Lemma bind_assoc {T A B C} (m : M T A) (k : A -> M T B) (h : B -> M T C) :
  bind (bind m k) h = bind m (fun a => bind (k a) h).
Proof.
  destruct m as [o [a | e |]]; simpl; try reflexivity.
  destruct (k a) as [o1 [b | e |]]; simpl; try reflexivity.
  destruct (h b) as [o2 r]. rewrite app_assoc. reflexivity.
Qed.


(** A computation that raises, or runs out of fuel, keeps doing so
    under [bind]. *)
Lemma bind_not_returns {T A B} (m : M T A) (k : A -> M T B) :
  returns m = false -> returns (bind m k) = false.
Proof.
  destruct m as [o [a | e |]]; simpl; intros Hm; try reflexivity.
  discriminate.
Qed.

Lemma solve_calls_app {T} (a b : list (event T)) :
  solve_calls (a ++ b) = (solve_calls a + solve_calls b)%nat.
Proof. unfold solve_calls. rewrite filter_app, length_app. reflexivity. Qed.

(** ** Order on rationals *)

Lemma Qltb_lt (a b : Q) : Qltb a b = true <-> (a < b)%Q.
Proof.
  unfold Qltb. rewrite negb_true_iff, <- not_true_iff_false, Qle_bool_iff.
  split; [apply Qnot_le_lt | apply Qlt_not_le].
Qed.

(** ** The transient driver *)

Section DriverFacts.

Context {T : Type} `{Number T}.
Variable R : Type.
Variable step_fn : nat -> T -> R -> M T R.
Variable ts : transient_settings T.
Variable rs : report_settings.

(** At step 0 neither plotting nor saving fires. *)
Lemma loop_body_step0 fn t r :
  loop_body step_fn ts rs fn {| current_step := 0; current_time := t; fields := r |} =
  (dt <- (if transient ts then get_time_step ts 0 else ret (num_of_Z 1)) ;;
   emit (CallSolveCurrentStep 0 t) ;;;
   r' <- step_fn 0%nat t r ;;
   emit (PrintStep 0 t) ;;;
   ret ({| current_step := 0; current_time := t; fields := r' |}, dt)).
Proof.
  unfold loop_body. cbn [current_step current_time fields].
  replace ((0 <? plotting_freq rs)%Z && (0 <? 0)%nat
           && (Z.of_nat 0 mod plotting_freq rs =? 0)%Z) with false
    by (destruct (0 <? plotting_freq rs)%Z; reflexivity).
  destruct (if transient ts then get_time_step ts 0 else ret (num_of_Z 1))
    as [o0 [dt | e |]]; try reflexivity.
  cbn [bind emit]. destruct (step_fn 0%nat t r) as [o1 [r' | e |]];
    try reflexivity.
  destruct (saving_enabled rs); [| reflexivity].
  destruct (saving_freq rs); reflexivity.
Qed.

(** The loop is left without another pass when [current_time < t_end]
    fails ... *)
Lemma loop_exit fuel t_end fn st :
  num_ltb (current_time st) t_end = false ->
  transient_loop step_fn ts rs (S fuel) t_end fn st = ret st.
Proof. intros Hge. cbn [transient_loop]. rewrite Hge. reflexivity. Qed.

(** ... and only then: in transient mode a pass is made otherwise. *)
Lemma loop_continue fuel t_end fn st :
  num_ltb (current_time st) t_end = true ->
  transient ts = true ->
  transient_loop step_fn ts rs (S fuel) t_end fn st =
  (p <- loop_body step_fn ts rs fn st ;;
   let (st', dt) := p in
   transient_loop step_fn ts rs fuel t_end fn
     {| current_step := S (current_step st');
        current_time := num_add (current_time st') dt;
        fields := fields st' |}).
Proof.
  intros Hlt Htr. cbn [transient_loop]. rewrite Hlt, Htr. reflexivity.
Qed.

Lemma loop_returns_past_end fuel : forall t_end fn st out st',
  transient ts = true ->
  transient_loop step_fn ts rs fuel t_end fn st = (out, Return st') ->
  num_ltb (current_time st') t_end = false.
Proof.
  induction fuel as [| fuel IH]; intros t_end fn st out st' Htr Hrun.
  - discriminate.
  - cbn [transient_loop] in Hrun.
    destruct (num_ltb (current_time st) t_end) eqn:Hlt.
    + destruct (loop_body step_fn ts rs fn st) as [o [[st1 dt] | e |]];
        cbn [bind] in Hrun; try discriminate.
      rewrite Htr in Hrun. cbn [negb] in Hrun.
      match type of Hrun with
      | (let (_, _) := ?c in _) = _ => destruct c as [o2 r2] eqn:Hrec
      end.
      injection Hrun as _ Hr. subst r2.
      eapply IH; eauto.
    + injection Hrun as _ Hst. subst st'. exact Hlt.
Qed.

(** Steady mode: one pass, provided the number system tells
    [starting_time] from [starting_time + 1]. *)
Lemma steady_single_pass (init : R -> M T R) (fuel : nat) (r0 : R) :
  transient ts = false ->
  num_ltb (starting_time ts) (num_add (starting_time ts) (num_of_Z 1)) = true ->
  solve_transient init step_fn ts rs (S fuel) r0
  = (r <- init r0 ;;
     emit (CallSolveCurrentStep 0 (starting_time ts)) ;;;
     r' <- step_fn 0%nat (starting_time ts) r ;;
     emit (PrintStep 0 (starting_time ts)) ;;;
     ret {| current_step := 0; current_time := starting_time ts; fields := r' |}).
Proof.
  intros Hsteady Hlt. unfold solve_transient. rewrite Hsteady.
  destruct (init r0) as [o [r | e |]]; cbn [bind]; try reflexivity.
  cbn [transient_loop current_time]. rewrite Hlt, loop_body_step0, Hsteady.
  cbn [negb]. rewrite bind_ret_l. cbn [bind emit].
  destruct (step_fn 0%nat (starting_time ts) r) as [o1 [r' | e |]];
    cbn; rewrite ?app_nil_r; reflexivity.
Qed.

End DriverFacts.

(** ** Runs with a fixed step and solves that return *)

Section PureRun.

Context {T : Type} `{Number T}.
Variable R : Type.
Variable g : nat -> T -> R -> R.
Variable step_fn : nat -> T -> R -> M T R.
Variable ts : transient_settings T.
Variable rs : report_settings.
Variable dt : T.
Variable bound : nat.
Hypothesis transient_on : transient ts = true.
Hypothesis fixed_step : time_step ts = Some dt.
Hypothesis pure_below : forall k t r, (k < bound)%nat -> step_fn k t r = ret (g k t r).

Lemma saving_enabled_due (k : nat) :
  (if saving_enabled rs
   then match saving_freq rs with
        | Some sf => (0 <? k)%nat && (Z.of_nat k mod sf =? 0)%Z
        | None => false
        end
   else false) = save_due rs k.
Proof.
  unfold saving_enabled, save_due. destruct (saving_freq rs) as [sf |]; [| reflexivity].
  destruct (Z.ltb_spec 0 sf) as [Hpos | Hnpos].
  - replace (sf =? 0)%Z with false by (symmetry; apply Z.eqb_neq; lia). reflexivity.
  - rewrite andb_false_r. reflexivity.
Qed.

Lemma loop_body_pure fn st :
  (current_step st < bound)%nat ->
  loop_body step_fn ts rs fn st
  = (pass_events rs fn (current_step st) (current_time st),
     Return ({| current_step := current_step st;
                current_time := current_time st;
                fields := g (current_step st) (current_time st) (fields st) |},
             dt)).
Proof.
  intros Hb. unfold loop_body, get_time_step, pass_events.
  rewrite transient_on, fixed_step, (pure_below _ _ Hb).
  rewrite <- (saving_enabled_due (current_step st)). fold (plot_due rs (current_step st)).
  destruct (plot_due rs (current_step st));
    (destruct (saving_enabled rs);
     [ destruct (saving_freq rs) as [sf |];
       [ destruct ((0 <? current_step st)%nat
                   && (Z.of_nat (current_step st) mod sf =? 0)%Z) | ] | ]);
    reflexivity.
Qed.

Lemma run_steps_step (i : nat) : forall st : driver_state T R,
  current_step (run_steps g dt i st) = (current_step st + i)%nat.
Proof.
  induction i as [| i IH]; intros st; cbn [run_steps].
  - lia.
  - rewrite IH. cbn [current_step]. lia.
Qed.

(** The time after [i] passes is the starting time with the step added
    [i] times, one addition after the other. *)
Lemma run_steps_time (i : nat) : forall st : driver_state T R,
  current_time (run_steps g dt i st) = time_after (current_time st) dt i.
Proof.
  induction i as [| i IH]; intros st; cbn [run_steps time_after]; [reflexivity |].
  rewrite IH. reflexivity.
Qed.

(** The loop makes [n] passes and emits their events, when the time
    stays below [t_end] for [n] passes and then is not. *)
Lemma loop_pure_trace n : forall fuel t_end fn st,
  (n < fuel)%nat ->
  (current_step st + n <= bound)%nat ->
  (forall i, (i < n)%nat ->
     num_ltb (current_time (run_steps g dt i st)) t_end = true) ->
  num_ltb (current_time (run_steps g dt n st)) t_end = false ->
  transient_loop step_fn ts rs fuel t_end fn st
  = (run_events g rs fn dt n st, Return (run_steps g dt n st)).
Proof.
  induction n as [| n IH]; intros fuel t_end fn st Hfuel Hbound Hbelow Hpast.
  - destruct fuel as [| fuel]; [lia |]. apply loop_exit. exact Hpast.
  - destruct fuel as [| fuel]; [lia |].
    rewrite loop_continue; [| apply (Hbelow 0%nat); lia | exact transient_on].
    rewrite loop_body_pure by lia. cbn [bind current_step current_time fields].
    rewrite (IH fuel t_end fn
               {| current_step := S (current_step st);
                  current_time := num_add (current_time st) dt;
                  fields := g (current_step st) (current_time st) (fields st) |}).
    + reflexivity.
    + lia.
    + cbn [current_step]. lia.
    + intros i Hi. apply (Hbelow (S i)). lia.
    + exact Hpast.
Qed.

(** The loop stops at the first pass whose solve raises: the passes
    before it are complete, the failing pass emits its call and what the
    solve emitted, and the exception is the result. *)
Lemma loop_pure_then_raise n : forall fuel t_end fn st o e,
  (n < fuel)%nat ->
  (current_step st + n <= bound)%nat ->
  (forall i, (i <= n)%nat ->
     num_ltb (current_time (run_steps g dt i st)) t_end = true) ->
  step_fn (current_step (run_steps g dt n st)) (current_time (run_steps g dt n st))
          (fields (run_steps g dt n st)) = (o, Raise e) ->
  transient_loop step_fn ts rs fuel t_end fn st
  = (run_events g rs fn dt n st
     ++ CallSolveCurrentStep (current_step (run_steps g dt n st))
                             (current_time (run_steps g dt n st)) :: o,
     Raise e).
Proof.
  induction n as [| n IH]; intros fuel t_end fn st o e Hfuel Hbound Hbelow Hraise.
  - destruct fuel as [| fuel]; [lia |].
    rewrite loop_continue; [| apply (Hbelow 0%nat); lia | exact transient_on].
    cbn [run_steps run_events app] in *.
    unfold loop_body, get_time_step. rewrite transient_on, fixed_step, Hraise.
    reflexivity.
  - destruct fuel as [| fuel]; [lia |].
    rewrite loop_continue; [| apply (Hbelow 0%nat); lia | exact transient_on].
    rewrite loop_body_pure by lia. cbn [bind current_step current_time fields].
    rewrite (IH fuel t_end fn
               {| current_step := S (current_step st);
                  current_time := num_add (current_time st) dt;
                  fields := g (current_step st) (current_time st) (fields st) |}
               o e).
    + cbn [run_events run_steps]. rewrite <- app_assoc. reflexivity.
    + lia.
    + cbn [current_step]. lia.
    + intros i Hi. apply (Hbelow (S i)). lia.
    + exact Hraise.
Qed.

End PureRun.

Lemma solve_calls_pass_events {T} (rs : report_settings) (fn : string) (k : nat) (t : T) :
  solve_calls (pass_events rs fn k t) = 1%nat.
Proof.
  unfold pass_events. destruct (plot_due rs k); destruct (save_due rs k); reflexivity.
Qed.

Lemma solve_calls_run_events {T} `{Number T} {R} (g : nat -> T -> R -> R)
    (rs : report_settings) (fn : string) (dt : T) (n : nat) :
  forall st, solve_calls (run_events g rs fn dt n st) = n.
Proof.
  induction n as [| n IH]; intros st; [reflexivity |].
  cbn [run_events]. rewrite solve_calls_app, solve_calls_pass_events, IH. reflexivity.
Qed.

Lemma solve_times_app {T} (a b : list (event T)) :
  solve_times (a ++ b) = solve_times a ++ solve_times b.
Proof.
  induction a as [| e a IH]; [reflexivity |].
  destruct e; cbn [solve_times app]; rewrite IH; reflexivity.
Qed.

Lemma solve_times_run_events {T} `{Number T} {R} (g : nat -> T -> R -> R)
    (rs : report_settings) (fn : string) (dt : T) (n : nat) :
  forall st,
    solve_times (run_events g rs fn dt n st)
    = map (time_after (current_time st) dt) (seq 0 n).
Proof.
  induction n as [| n IH]; intros st; [reflexivity |].
  cbn [run_events seq map]. rewrite solve_times_app, IH.
  cbn [run_steps current_time time_after]. rewrite <- seq_shift, map_map.
  unfold pass_events.
  destruct (plot_due rs (current_step st)); destruct (save_due rs (current_step st));
    reflexivity.
Qed.

(** The run of a fixed step, in full: [n] passes when the accumulated
    time is below the ending time before each of them and is not after
    the last. *)
Lemma fixed_step_trace {T} `{Number T} {R} (f : R -> R) (g : nat -> T -> R -> R)
    (rs : report_settings) (t0 dt tend : T) (series : option (list T))
    (n fuel : nat) (r0 : R) :
  (n < fuel)%nat ->
  (forall k, (k < n)%nat -> num_ltb (time_after t0 dt k) tend = true) ->
  num_ltb (time_after t0 dt n) tend = false ->
  let st0 := {| current_step := 0; current_time := t0; fields := f r0 |} in
  solve_transient (fun r => ret (f r)) (fun k t r => ret (g k t r))
    {| transient := true; starting_time := t0; time_step := Some dt;
       ending_time := tend; time_series := series |} rs fuel r0
  = (run_events g rs (saving_filename rs) dt n st0, Return (run_steps g dt n st0)).
Proof.
  intros Hfuel Hbelow Hpast st0. unfold solve_transient. rewrite bind_ret_l.
  apply (loop_pure_trace g (fun k t r => ret (g k t r))
           {| transient := true; starting_time := t0; time_step := Some dt;
              ending_time := tend; time_series := series |} rs
           (dt := dt) (bound := n) eq_refl eq_refl).
  - reflexivity.
  - exact Hfuel.
  - apply le_n.
  - intros i Hi. rewrite run_steps_time. apply Hbelow. exact Hi.
  - rewrite run_steps_time. exact Hpast.
Qed.

(** C1 (amended). The times of the driver are binary64 numbers. In
    steady mode [solve_transient] makes exactly one build-solve pass,
    whatever the time step, the ending time, the time series and the
    report settings, provided the starting time is below the starting
    time plus one as binary64 computes it: the run is then the
    computation that initialises, calls [solve_current_step] once at
    step 0 and returns. In transient mode the run makes no pass when the
    starting time is not below the ending time, whenever it returns the
    current time is not below the ending time, and with a fixed step and
    solves that return it makes exactly [n] passes, each solve applied
    to the fields of the one before, when the accumulated time is below
    the ending time before each of them and is not after the last. With
    starting time 0, step 0.01 and ending time 0.03 these are exactly 3
    passes, at the times 0, 0.01 and 0.02. *)
Theorem solve_transient_iterations :
  (forall (R : Type) (init : R -> M float R) (step : nat -> float -> R -> M float R)
          (rs : report_settings) (t0 tend : float) (dt : option float)
          (series : option (list float)) (fuel : nat) (r0 : R),
      PrimFloat.ltb t0 (t0 + 1)%float = true ->
      solve_transient init step
        {| transient := false; starting_time := t0; time_step := dt;
           ending_time := tend; time_series := series |} rs (S fuel) r0
      = (r <- init r0 ;;
         emit (CallSolveCurrentStep 0 t0) ;;;
         r' <- step 0%nat t0 r ;;
         emit (PrintStep 0 t0) ;;;
         ret {| current_step := 0; current_time := t0; fields := r' |}))
  /\
  (forall (R : Type) (init : R -> M float R) (step : nat -> float -> R -> M float R)
          (ts : transient_settings float) (rs : report_settings) (fuel : nat) (r0 : R),
      transient ts = true ->
      (PrimFloat.ltb (starting_time ts) (ending_time ts) = false ->
       solve_transient init step ts rs (S fuel) r0
       = (r <- init r0 ;;
          ret {| current_step := 0; current_time := starting_time ts; fields := r |}))
      /\ (forall out st,
            solve_transient init step ts rs fuel r0 = (out, Return st) ->
            PrimFloat.ltb (current_time st) (ending_time ts) = false))
  /\
  (forall (R : Type) (f : R -> R) (g : nat -> float -> R -> R) (rs : report_settings)
          (t0 dt tend : float) (series : option (list float)) (n fuel : nat) (r0 : R),
      (n < fuel)%nat ->
      (forall k, (k < n)%nat -> PrimFloat.ltb (time_after t0 dt k) tend = true) ->
      PrimFloat.ltb (time_after t0 dt n) tend = false ->
      exists out,
        solve_transient (fun r => ret (f r)) (fun k t r => ret (g k t r))
          {| transient := true; starting_time := t0; time_step := Some dt;
             ending_time := tend; time_series := series |} rs fuel r0
        = (out, Return (run_steps g dt n
                          {| current_step := 0; current_time := t0; fields := f r0 |}))
        /\ solve_calls out = n)
  /\
  (forall (R : Type) (f : R -> R) (g : nat -> float -> R -> R) (rs : report_settings)
          (series : option (list float)) (fuel : nat) (r0 : R),
      (3 < fuel)%nat ->
      exists out,
        solve_transient (fun r => ret (f r)) (fun k t r => ret (g k t r))
          (schedule_float series) rs fuel r0
        = (out, Return {| current_step := 3; current_time := 0.03%float;
                          fields := g 2%nat 0.02%float
                                      (g 1%nat 0.01%float (g 0%nat 0%float (f r0))) |})
        /\ solve_calls out = 3%nat
        /\ solve_times out = [0; 0.01; 0.02]%float).
Proof.
  split; [| split; [| split]].
  - intros R init step rs t0 tend dt series fuel r0 Hlt.
    apply (steady_single_pass step
             {| transient := false; starting_time := t0; time_step := dt;
                ending_time := tend; time_series := series |} rs init fuel r0
             eq_refl).
    exact Hlt.
  - intros R init step ts rs fuel r0 Htr. split.
    + intros Hge. unfold solve_transient. rewrite Htr.
      destruct (init r0) as [o [r | e |]]; cbn [bind]; try reflexivity.
      rewrite loop_exit by exact Hge. cbn [ret]. rewrite app_nil_r. reflexivity.
    + intros out st Hrun. unfold solve_transient in Hrun. rewrite Htr in Hrun.
      destruct (init r0) as [o [r | e |]]; cbn [bind] in Hrun; try discriminate Hrun.
      match type of Hrun with
      | (let (_, _) := ?loop in _) = _ => destruct loop as [o2 r2] eqn:Hloop
      end.
      injection Hrun as _ ->.
      exact (loop_returns_past_end step ts rs fuel (ending_time ts) _ _ Htr Hloop).
  - intros R f g rs t0 dt tend series n fuel r0 Hfuel Hbelow Hpast.
    exists (run_events g rs (saving_filename rs) dt n
              {| current_step := 0; current_time := t0; fields := f r0 |}).
    split; [| apply solve_calls_run_events].
    apply fixed_step_trace; assumption.
  - intros R f g rs series fuel r0 Hfuel.
    exists (run_events g rs (saving_filename rs) 0.01%float 3
              {| current_step := 0; current_time := 0%float; fields := f r0 |}).
    split; [| split].
    + rewrite (@fixed_step_trace float _ R f g rs 0%float 0.01%float 0.03%float
                 series 3 fuel r0 Hfuel).
      * reflexivity.
      * intros k Hk.
        destruct k as [| [| [| k]]]; [reflexivity | reflexivity | reflexivity | lia].
      * reflexivity.
    + apply solve_calls_run_events.
    + rewrite solve_times_run_events. reflexivity.
Qed.

Lemma solve_transient_iterations_witness :
  solve_transient (fun r : unit => ret r) (fun _ _ r => ret r)
    {| transient := false; starting_time := 0.5%float; time_step := None;
       ending_time := 0%float; time_series := None |} default_report 1 tt
  = (r <- ret tt ;;
     emit (CallSolveCurrentStep 0 0.5%float) ;;;
     r' <- ret r ;;
     emit (PrintStep 0 0.5%float) ;;;
     ret {| current_step := 0; current_time := 0.5%float; fields := r' |})
  /\ (exists out,
        solve_transient (fun r : unit => ret r) (fun _ _ r => ret r)
          {| transient := true; starting_time := 0%float; time_step := Some 0.1%float;
             ending_time := 0.8%float; time_series := None |} default_report 20 tt
        = (out, Return (run_steps (fun _ _ (r : unit) => r) 0.1%float 9
                          {| current_step := 0; current_time := 0%float;
                             fields := tt |}))
        /\ solve_calls out = 9%nat).
Proof.
  split.
  - exact (proj1 solve_transient_iterations unit (fun r => ret r) (fun _ _ r => ret r)
             default_report 0.5%float 0%float None None 0%nat tt eq_refl).
  - apply (proj1 (proj2 (proj2 solve_transient_iterations)) unit (fun r => r)
             (fun _ _ r => r) default_report 0%float 0.1%float 0.8%float None
             9%nat 20%nat tt).
    + lia.
    + intros k Hk. do 9 (destruct k as [| k]; [reflexivity |]). lia.
    + reflexivity.
Defined.

(** In steady mode with the starting time 2^53 the loop is not entered:
    2^53 + 1 rounds to 2^53 in binary64, so the test of the [while]
    fails and no pass is made. *)
Lemma steady_start_at_2p53_makes_no_pass :
  solve_transient (fun r : unit => ret r) (fun _ _ r => ret r)
    {| transient := false; starting_time := 9007199254740992%float;
       time_step := Some 0.01%float; ending_time := 0.03%float;
       time_series := None |} default_report 10 tt
  = ([], Return {| current_step := 0; current_time := 9007199254740992%float;
                   fields := tt |})
  /\ solve_calls
       (fst (solve_transient (fun r : unit => ret r) (fun _ _ r => ret r)
               {| transient := false; starting_time := 9007199254740992%float;
                  time_step := Some 0.01%float; ending_time := 0.03%float;
                  time_series := None |} default_report 10 tt)) = 0%nat.
Proof. split; vm_compute; reflexivity. Qed.

(** ** The time schedule *)

Lemma getitem_nth {T A} (l : list A) (i : nat) (a : A) :
  nth_error l i = Some a -> getitem (T := T) l i = ret a.
Proof. unfold getitem. intros ->. reflexivity. Qed.

Lemma Qminus_self (a : Q) : (a - a == 0)%Q.
Proof. ring. Qed.

(** C4 (the code departs from the claim). With a time series,
    [get_time_step(k)] computes [ts[k] - ts[k]]: for every index inside
    the series it returns a step equal to zero, not the increment to the
    next time point. On the series 0, 0.1, 0.3 it returns 0 at index 0,
    where the increment is 0.1, and the driver makes its three passes at
    time 0 and stops on the [IndexError] of [ts[3]]. *)
Theorem get_time_step_series_is_zero :
  (forall (tr : bool) (t0 tend : Q) (series : list Q) (k : nat),
      (k < List.length series)%nat ->
      exists dt,
        get_time_step (series_schedule tr t0 tend series) k = ret dt
        /\ (dt == 0)%Q)
  /\ (exists dt,
        get_time_step (series_schedule true 0 0.3 [0; 0.1; 0.3]%Q) 0 = ret dt
        /\ (dt == 0)%Q /\ ~ (dt == 0.1 - 0)%Q)
  /\ (exists out,
        solve_transient (fun r : unit => ret r) (fun _ _ r => ret r)
          (series_schedule true 0 0.3 [0; 0.1; 0.3]%Q)
          default_report
          10 tt = (out, Raise IndexError)
        /\ solve_calls out = 3%nat
        /\ Forall (fun t => t == 0)%Q (solve_times out)).
Proof.
  split; [| split].
  - intros tr t0 tend series k Hk.
    destruct (nth_error series k) as [a |] eqn:Hnth.
    + exists (a - a)%Q. split; [| apply Qminus_self].
      unfold get_time_step, series_schedule. cbn [time_step time_series getkey].
      rewrite bind_ret_l.
      replace (k <=? List.length series)%nat with true
        by (symmetry; apply Nat.leb_le; lia).
      rewrite (getitem_nth _ _ Hnth), !bind_ret_l. reflexivity.
    + apply nth_error_None in Hnth. lia.
  - eexists. split; [reflexivity |]. split; [reflexivity | discriminate].
  - eexists. split; [vm_compute; reflexivity |]. split; [reflexivity |].
    repeat constructor.
Qed.

Lemma get_time_step_series_is_zero_witness :
  exists dt,
    get_time_step (series_schedule true 0 1 [0; 0.5; 1]%Q) 1 = ret dt
    /\ (dt == 0)%Q.
Proof.
  apply (proj1 get_time_step_series_is_zero true 0 1 [0; 0.5; 1]%Q 1%nat).
  simpl. lia.
Defined.

(** C9 (the code departs from the claim). When the step index exceeds
    the length of the time series, [get_time_step] and
    [get_current_time] print their message and then raise
    [UnboundLocalError] at [return dt] / [return tp], because the local
    was never bound: they do not return to the caller. *)
Theorem time_series_index_past_end :
  forall (tr : bool) (t0 tend : Q) (series : list Q) (k : nat),
    (List.length series < k)%nat ->
    get_time_step (series_schedule tr t0 tend series) k
      = ([Print "time step can only be a sequence or scalar"],
         Raise (UnboundLocalError "dt"))
    /\ get_current_time (series_schedule tr t0 tend series) k None
      = ([Print "time point can only be a sequence of time series or derived from constant time step"],
         Raise (UnboundLocalError "tp"))
    /\ returns (get_time_step (series_schedule tr t0 tend series) k) = false
    /\ returns (get_current_time (series_schedule tr t0 tend series) k None) = false.
Proof.
  intros tr t0 tend series k Hk.
  assert (Hleb : (k <=? List.length series)%nat = false)
    by (apply Nat.leb_gt; exact Hk).
  unfold get_time_step, get_current_time, series_schedule, returns.
  cbn [time_step time_series getkey]. rewrite !bind_ret_l.
  destruct k as [| k]; [lia |]. rewrite Hleb.
  repeat split; reflexivity.
Qed.

Lemma time_series_index_past_end_witness :
  get_time_step (series_schedule true 0 2 [0; 1; 2]%Q) 5
    = ([Print "time step can only be a sequence or scalar"],
       Raise (UnboundLocalError "dt"))
  /\ get_current_time (series_schedule true 0 2 [0; 1; 2]%Q) 5 None
    = ([Print "time point can only be a sequence of time series or derived from constant time step"],
       Raise (UnboundLocalError "tp"))
  /\ returns (get_time_step (series_schedule true 0 2 [0; 1; 2]%Q) 5) = false
  /\ returns (get_current_time (series_schedule true 0 2 [0; 1; 2]%Q) 5 None) = false.
Proof.
  apply (time_series_index_past_end true 0 2 [0; 1; 2]%Q (k := 5)).
  simpl. lia.
Defined.

(** ** Callable values *)

(** C8 (the code departs from the claim). In transient mode
    [translate_value] calls a callable once and returns its result as it
    is, but the argument is [get_current_time()], which with a fixed
    step [dt] is [starting_time + dt * (current_step - 1)]: one step
    behind the driver's current time [starting_time + current_step * dt]
    whenever [dt] is not zero. At step 0 of the schedule 0, 0.01, 0.03
    the callable receives -0.01, not 0; run through [solve_transient]
    with a pressure given as a callable, the three passes at times 0,
    0.01, 0.02 hand -0.01, 0, 0.01 to it. *)
Theorem translate_value_callable_time :
  (forall (self : solver) (k : nat) (f : Q -> pyval) (W : option space) (dt : Q),
      transient (schedule self) = true ->
      time_step (schedule self) = Some dt ->
      ~ (dt == 0)%Q ->
      exists t,
        translate_value self k (PCallable f) W = ret (f t)
        /\ (t == starting_time (schedule self) + (inject_Z (Z.of_nat k) - 1) * dt)%Q
        /\ ~ (t == starting_time (schedule self) + inject_Z (Z.of_nat k) * dt)%Q)
  /\ (exists t,
        translate_value (example_solver (schedule_Q None) 3 false []) 0
          (PCallable PNum) None = ret (PNum t)
        /\ (t == - 0.01)%Q /\ ~ (t == 0)%Q)
  /\ (exists out st,
        solve_transient init_solver
          (solve_current_step
             (example_solver (schedule_Q None) 3 false
                [("inlet", tagged_bc "pressure" (PCallable PNum))]))
          (schedule_Q None) default_report 10 fresh_history
        = (out, Return st)
        /\ Forall2 Qeq (solve_times out) [0; 0.01; 0.02]%Q
        /\ Forall2 Qeq
             (solved_numbers (w_pp (fields st))
              ++ solved_numbers (w_prev (fields st))
              ++ solved_numbers (w_current (fields st)))
             [- 0.01; 0; 0.01]%Q).
Proof.
  split; [| split].
  - intros self k f W dt Htr Hdt Hnz.
    exists (starting_time (schedule self) + dt * inject_Z (Z.of_nat k - 1))%Q.
    split; [| split].
    + unfold translate_value, get_current_time. rewrite Htr, Hdt.
      destruct k; rewrite bind_ret_l; reflexivity.
    + unfold Z.sub. rewrite inject_Z_plus. change (inject_Z (- (1))) with (- (1))%Q.
      ring.
    + intros Heq. apply Hnz.
      unfold Z.sub in Heq. rewrite inject_Z_plus in Heq.
      change (inject_Z (- (1))) with (- (1))%Q in Heq.
      assert (Hd : (dt == (starting_time (schedule self) + inject_Z (Z.of_nat k) * dt)
                         - (starting_time (schedule self)
                            + dt * (inject_Z (Z.of_nat k) + - (1))))%Q) by ring.
      rewrite Hd, Heq. ring.
  - eexists. split; [reflexivity |]. split; [reflexivity | discriminate].
  - do 2 eexists. split; [vm_compute; reflexivity |].
    split; repeat (constructor; try reflexivity).
Qed.

Lemma translate_value_callable_time_witness :
  exists t,
    translate_value (example_solver (fixed_schedule 0 (1 # 2) 2) 3 false []) 2
      (PCallable PNum) None = ret (PNum t)
    /\ (t == 0 + (inject_Z (Z.of_nat 2) - 1) * (1 # 2))%Q
    /\ ~ (t == 0 + inject_Z (Z.of_nat 2) * (1 # 2))%Q.
Proof.
  apply (proj1 translate_value_callable_time
           (example_solver (fixed_schedule 0 (1 # 2) 2) 3 false []) 2%nat
           PNum None (1 # 2)%Q); [reflexivity | reflexivity | discriminate].
Defined.

(** ** The inertial term *)

Lemma pydiv_nonzero (a b : Q) : ~ (b == 0)%Q -> pydiv a b = ret (a / b)%Q.
Proof.
  intros Hb. unfold pydiv.
  destruct (Qeq_bool b 0) eqn:Heq; [| reflexivity].
  apply Qeq_bool_eq in Heq. contradiction.
Qed.

Lemma Qinv_nonzero_bool (dt : Q) : ~ (dt == 0)%Q -> Qeq_bool (1 / dt) 0 = false.
Proof.
  intros Hdt. destruct (Qeq_bool (1 / dt) 0) eqn:Heq; [| reflexivity].
  apply Qeq_bool_eq in Heq. exfalso.
  assert (H1 : (1 == dt * (1 / dt))%Q) by (field; exact Hdt).
  rewrite Heq in H1. ring_simplify in H1. discriminate H1.
Qed.

Lemma inverse_time_step_fixed (self : solver) (k : nat) (dt : Q) :
  time_step (schedule self) = Some dt ->
  ~ (dt == 0)%Q ->
  inverse_time_step self k = ret (Val (PConstant (PNum (1 / dt)))).
Proof.
  intros Hdt Hnz. unfold inverse_time_step, get_time_step. rewrite Hdt.
  rewrite bind_ret_l, (pydiv_nonzero 1 Hnz), bind_ret_l. reflexivity.
Qed.

(** C7 (the code departs from the claim). With dynamics enabled in
    transient mode, [generate_form] at a step [k >= 1] subtracts density
    times [inner(accel, v) * dx], and at step 0 it subtracts nothing.
    But [accel] is the difference of the two backward-difference
    velocities divided by [Constant(1 / dt)]: its value is that
    difference multiplied by the time step, not divided by it. For
    [dt = 1/2] and buffer values 3, 1, 0 the code's estimate is 1 where
    the difference quotient is 4. The last part evaluates
    [generate_form] itself at steps 1 and 0 of a small case. *)
Theorem get_acceleration_divides_by_inverse_step :
  (forall (self : solver) (k : nat) (dt rho : Q) (v F : ufl) (wc wp wpp : Q),
      transient (schedule self) = true ->
      solving_dynamics self = true ->
      time_step (schedule self) = Some dt ->
      density (material self) = Some rho ->
      ~ (dt == 0)%Q ->
      (1 <= k)%nat ->
      get_acceleration self k = ret (acceleration_expr (1 / dt) (1 / dt))
      /\ inertial_term self k v F
         = ret (Sub F (Mul (Mul (Float rho)
                                (Inner (acceleration_expr (1 / dt) (1 / dt)) v)) dx))
      /\ exists a,
           pointwise (buffers_at wc wp wpp) (acceleration_expr (1 / dt) (1 / dt))
             = Some a
           /\ (a == ((wc - wp) / dt - (wp - wpp) / dt) * dt)%Q)
  /\ (forall (self : solver) (v F : ufl), inertial_term self 0 v F = ret F)
  /\ (exists a,
        pointwise (buffers_at 3 1 0) (acceleration_expr (1 / (1 # 2)) (1 / (1 # 2)))
          = Some a
        /\ (a == 1)%Q
        /\ ~ (a == ((3 - 1) / (1 # 2) - (1 - 0) / (1 # 2)) / (1 # 2))%Q)
  /\ (exists stiffness,
        generate_form (example_solver (fixed_schedule 0 (1 # 2) 2) 3 true []) 1
          None 1 TrialFunction TestFunction
        = ret (Sub stiffness
                   (Mul (Mul (Float 1)
                             (Inner (acceleration_expr (1 / (1 # 2)) (1 / (1 # 2)))
                                    TestFunction)) dx),
               [], None)
        /\ generate_form (example_solver (fixed_schedule 0 (1 # 2) 2) 3 true []) 0
             None 0 TrialFunction TestFunction
           = ([CallPlotBoundaryFacets], Return (stiffness, [], None))).
Proof.
  split; [| split; [| split]].
  - intros self k dt rho v F wc wp wpp Htr Hdyn Hdt Hrho Hnz Hk.
    assert (Hacc : get_acceleration self k = ret (acceleration_expr (1 / dt) (1 / dt))).
    { unfold get_acceleration.
      replace (k <? 1)%nat with false by (symmetry; apply Nat.ltb_ge; exact Hk).
      rewrite !(inverse_time_step_fixed self _ Hdt Hnz), !bind_ret_l.
      reflexivity. }
    split; [exact Hacc | split].
    + unfold inertial_term. rewrite Htr, Hdyn. cbn [andb].
      replace (1 <=? k)%nat with true by (symmetry; apply Nat.leb_le; exact Hk).
      rewrite Hacc, bind_ret_l, Hrho. reflexivity.
    + unfold acceleration_expr, w_current_, w_prev_, w_pp_.
      cbn [pointwise buffers_at String.eqb Ascii.eqb Bool.eqb].
      rewrite (Qinv_nonzero_bool Hnz).
      eexists. split; [reflexivity |]. field. exact Hnz.
  - intros self v F. unfold inertial_term.
    destruct (transient (schedule self) && solving_dynamics self); reflexivity.
  - eexists. split; [reflexivity |]. split; [reflexivity | discriminate].
  - eexists. split; vm_compute; reflexivity.
Qed.

Lemma get_acceleration_divides_by_inverse_step_witness :
  get_acceleration (example_solver (fixed_schedule 0 (1 # 2) 2) 3 true []) 1
    = ret (acceleration_expr (1 / (1 # 2)) (1 / (1 # 2)))
  /\ inertial_term (example_solver (fixed_schedule 0 (1 # 2) 2) 3 true []) 1
       TestFunction dx
     = ret (Sub dx (Mul (Mul (Float 1)
                             (Inner (acceleration_expr (1 / (1 # 2)) (1 / (1 # 2)))
                                    TestFunction)) dx))
  /\ exists a,
       pointwise (buffers_at 3 1 0) (acceleration_expr (1 / (1 # 2)) (1 / (1 # 2)))
         = Some a
       /\ (a == ((3 - 1) / (1 # 2) - (1 - 0) / (1 # 2)) * (1 # 2))%Q.
Proof.
  apply (proj1 get_acceleration_divides_by_inverse_step
           (example_solver (fixed_schedule 0 (1 # 2) 2) 3 true []) 1%nat
           (1 # 2)%Q 1%Q TestFunction dx 3%Q 1%Q 0%Q);
    [reflexivity | reflexivity | reflexivity | reflexivity | discriminate | lia].
Defined.

(** ** The rigid-body nullspace *)

Lemma write_sub_translation (V : list dof) (i : nat) :
  write_sub V i (fun _ => 1%Q) (repeat 0%Q (List.length V)) = translation V i.
Proof.
  induction V as [| d V IH]; [reflexivity |].
  cbn [write_sub translation map repeat List.length].
  rewrite IH. reflexivity.
Qed.

(** C6 (the code departs from the claim). [build_nullspace] returns 6
    finalized vectors in 3-D, the first three being the unit
    translations when the sample vector is zero, and it raises for every
    dimension other than 2 and 3. In 2-D it returns 3 finalized vectors,
    but only the rotation is written: the first two are copies of the
    sample vector, so on a zero sample vector they are zero, not the two
    translations. *)
Theorem build_nullspace_2d_translations_missing :
  (forall (V : list dof) (x : vector),
      exists rotation,
        build_nullspace 2 V x
        = ret {| vectors := [apply_insert x; apply_insert x; rotation];
                 orthonormalized := true |}
        /\ finalized rotation = true)
  /\ (forall (V : list dof),
        exists r3 r4 r5,
          build_nullspace 3 V (zero_vector V)
          = ret {| vectors :=
                     [ {| entries := translation V 0; finalized := true |};
                       {| entries := translation V 1; finalized := true |};
                       {| entries := translation V 2; finalized := true |};
                       r3; r4; r5 ];
                   orthonormalized := true |}
          /\ finalized r3 = true /\ finalized r4 = true /\ finalized r5 = true)
  /\ (forall (dim : nat) (V : list dof) (x : vector),
        dim <> 2%nat -> dim <> 3%nat ->
        build_nullspace dim V x
        = raise (Exception "only 2D or 3D is supported by nullspace"))
  /\ (exists rotation,
        build_nullspace 2 two_nodes_2d (zero_vector two_nodes_2d)
        = ret {| vectors := [zero_vector two_nodes_2d; zero_vector two_nodes_2d;
                             rotation];
                 orthonormalized := true |}
        /\ entries (zero_vector two_nodes_2d) = [0; 0; 0; 0]%Q
        /\ translation two_nodes_2d 0 = [1; 0; 1; 0]%Q
        /\ translation two_nodes_2d 1 = [0; 1; 0; 1]%Q).
Proof.
  split; [| split; [| split]].
  - intros V x. eexists. split; reflexivity.
  - intros V. do 3 eexists.
    unfold build_nullspace, nullspace_basis, zero_vector.
    cbn [repeat update_at]. rewrite bind_ret_l. cbn [map].
    unfold apply_insert at 1 2 3. unfold dofmap_set, copy. cbn [entries].
    rewrite !write_sub_translation.
    split; [reflexivity |]. repeat split.
  - intros dim V x H2 H3.
    destruct dim as [| [| [| [| dim]]]]; try reflexivity; contradiction.
  - eexists. split; [reflexivity |]. repeat split.
Qed.

Lemma build_nullspace_2d_translations_missing_witness :
  build_nullspace 4 two_nodes_2d (zero_vector two_nodes_2d)
  = raise (Exception "only 2D or 3D is supported by nullspace").
Proof.
  apply (proj1 (proj2 (proj2 build_nullspace_2d_translations_missing))); lia.
Defined.

(** ** get_boundary_value *)

Lemma load_global_unbound (external_names : list string) (name : string) :
  ~ In name module_globals ->
  ~ In name external_names ->
  load_global external_names name = raise (NameError name).
Proof.
  intros Hm He. unfold load_global.
  destruct (existsb (String.eqb name) (module_globals ++ external_names)) eqn:Hex;
    [| reflexivity].
  apply existsb_exists in Hex. destruct Hex as [n [Hin Heq]].
  apply String.eqb_eq in Heq. subst n.
  apply in_app_or in Hin. tauto.
Qed.

Lemma translate_value_not_module_global : ~ In "translate_value" module_globals.
Proof.
  unfold module_globals. cbn [In]. intros H.
  repeat (destruct H as [H | H]; [discriminate H |]). exact H.
Qed.

(** C10. Whatever the boundary-condition record and the variable name,
    provided neither dolfin nor the builtins bind a name
    [translate_value]: a call of [get_boundary_value] whose statements
    before the [return] complete raises [NameError] for
    [translate_value] at the [return], with the output those statements
    produced; and no call returns a value. *)
Theorem get_boundary_value_raises_NameError :
  forall (external_names : list string) (self : solver) (bc : bc_settings)
         (variable_ : option string),
    ~ In "translate_value" external_names ->
    (forall out bvalue,
        boundary_value_local self bc variable_ = (out, Return bvalue) ->
        get_boundary_value external_names self bc variable_
        = (out, Raise (NameError "translate_value")))
    /\ returns (get_boundary_value external_names self bc variable_) = false.
Proof.
  intros external_names self bc variable_ Hext.
  assert (Hload : load_global external_names "translate_value"
                  = raise (NameError "translate_value"))
    by (apply load_global_unbound;
        [apply translate_value_not_module_global | exact Hext]).
  unfold get_boundary_value. rewrite Hload. split.
  - intros out bvalue Hlocal. rewrite Hlocal. cbn. rewrite app_nil_r. reflexivity.
  - destruct (boundary_value_local self bc variable_) as [out [bvalue | e |]];
      reflexivity.
Qed.

Lemma get_boundary_value_raises_NameError_witness :
  get_boundary_value ["Constant"; "Function"; "Expression"; "len"; "float"]
    (example_solver (schedule_Q None) 3 false []) (old_style_bc example_bc) None
  = ([], Raise (NameError "translate_value"))
  /\ returns
       (get_boundary_value ["Constant"; "Function"; "Expression"; "len"; "float"]
          (example_solver (schedule_Q None) 3 false []) (old_style_bc example_bc)
          None) = false.
Proof.
  assert (Hext : ~ In "translate_value"
                      ["Constant"; "Function"; "Expression"; "len"; "float"]).
  { cbn [In]. intros H.
    repeat (destruct H as [H | H]; [discriminate H |]). exact H. }
  destruct (@get_boundary_value_raises_NameError
              ["Constant"; "Function"; "Expression"; "len"; "float"]
              (example_solver (schedule_Q None) 3 false [])
              (old_style_bc example_bc) None Hext) as [Hraise Hnever].
  split; [apply (Hraise [] (Some (PNum 0))); reflexivity | exact Hnever].
Defined.

(** ** Boundary conditions *)

Lemma translate_value_plain (self : solver) (k : nat) (v : pyval) (W : option space) :
  plain_axis_value v = true ->
  is_None v = false ->
  translate_value self k v W = ret (translated v).
Proof. destruct v; intros Hplain Hnone; try discriminate; reflexivity. Qed.

Lemma constrain_axes_plain (self : solver) (k : nat) (W : space) (i : Z) :
  forall (bv : list pyval) (axis_i : nat) (bcs : list constraint),
    forallb plain_axis_value bv = true ->
    constrain_axes self k (SubSpace W) i axis_i bv bcs
    = ret (bcs ++ axis_constraints W i axis_i bv).
Proof.
  induction bv as [| disp rest IH]; intros axis_i bcs Hplain.
  - cbn [constrain_axes axis_constraints]. rewrite app_nil_r. reflexivity.
  - cbn [forallb] in Hplain. apply andb_true_iff in Hplain.
    destruct Hplain as [Hdisp Hrest].
    cbn [constrain_axes axis_constraints].
    destruct (is_None disp) eqn:Hnone.
    + rewrite bind_ret_l, (IH _ _ Hrest). reflexivity.
    + rewrite translate_value_plain by assumption. rewrite !bind_ret_l.
      rewrite (IH _ _ Hrest), <- app_assoc. reflexivity.
Qed.





Lemma returns_bind_return {T A B} (o : list (event T)) (a : A) (k : A -> M T B) :
  returns (bind (o, Return a) k) = returns (k a).
Proof. unfold returns, outcome_of. cbn [bind]. destruct (k a). reflexivity. Qed.

Lemma foldM_not_returns {A B} (f : A -> B -> M Q A) (x : B) :
  (forall acc, returns (f acc x) = false) ->
  forall xs acc, In x xs -> returns (foldM f xs acc) = false.
Proof.
  intros Hx. induction xs as [| y rest IH]; intros acc Hin; [contradiction |].
  cbn [foldM]. destruct Hin as [-> | Hin].
  - apply bind_not_returns. apply Hx.
  - destruct (f acc y) as [o [a | e |]] eqn:Hf; try reflexivity.
    rewrite returns_bind_return. apply IH. exact Hin.
Qed.

(** C3. A record whose type is [Neumann], [symmetry] or any tag other
    than Dirichlet, displacement, force, pressure and stress makes the
    dispatch raise [SolverError] with a message that contains the tag;
    whatever was accumulated before, the pass over that record does not
    return, and [update_boundary_conditions] returns no result when the
    mapping contains such a record. When it is the first record, the
    error raised by [update_boundary_conditions] is that
    [SolverError]. *)
Theorem unsupported_boundary_type_raises :
  forall (self : solver) (k : nat) (u v : ufl) (name : string)
         (record : bc_settings) (tag : string),
    type (get_boundary_variable self record None) = Some tag ->
    recognized tag = false ->
    (forall acc i,
        boundary_id (base record) = Some i ->
        update_boundary self k u v acc (name, record)
        = ([PrintBoundary i], Raise (SolverError (unsupported_message tag))))
    /\ (exists prefix suffix,
          unsupported_message tag = (prefix ++ tag ++ suffix)%string)
    /\ (forall acc,
          returns (update_boundary self k u v acc (name, record)) = false)
    /\ (In (name, record) (boundary_conditions self) ->
        returns (update_boundary_conditions self k k u v) = false)
    /\ (forall i rest,
          boundary_id (base record) = Some i ->
          point_source self = false ->
          surface_source self = Some None ->
          boundary_conditions self = (name, record) :: rest ->
          update_boundary_conditions self k k u v
          = ([PrintBoundary i], Raise (SolverError (unsupported_message tag)))).
Proof.
  intros self k u v name record tag Hty Hrec.
  unfold recognized in Hrec. cbn [existsb] in Hrec.
  repeat (apply orb_false_iff in Hrec; destruct Hrec as [? Hrec]).
  assert (Hone : forall acc i,
             boundary_id (base record) = Some i ->
             update_boundary self k u v acc (name, record)
             = ([PrintBoundary i], Raise (SolverError (unsupported_message tag)))).
  { intros acc i Hid. unfold update_boundary. cbn [fst snd]. rewrite Hid.
    cbn [getkey]. rewrite bind_ret_l, Hty. cbn [getkey]. rewrite bind_ret_l.
    repeat match goal with H : String.eqb tag _ = false |- _ => rewrite H; clear H end.
    cbn [orb]. unfold unsupported_message.
    destruct (String.eqb tag "Neumann"); [reflexivity |].
    destruct (String.eqb tag "symmetry"); reflexivity. }
  assert (Hnever : forall acc,
             returns (update_boundary self k u v acc (name, record)) = false).
  { intros acc. destruct (boundary_id (base record)) as [i |] eqn:Hid.
    - rewrite (Hone acc i eq_refl). reflexivity.
    - unfold update_boundary. cbn [fst snd]. rewrite Hid. reflexivity. }
  split; [exact Hone | split; [| split; [exact Hnever | split]]].
  - unfold unsupported_message, unsupported_type.
    destruct (String.eqb tag "Neumann");
      [exists "Neumann boundary type`", "` is not supported"; reflexivity |].
    destruct (String.eqb tag "symmetry");
      [exists "symmetry boundary type`", "` is not supported"; reflexivity |].
    exists "boundary type`", "` is not supported". reflexivity.
  - intros Hin. unfold update_boundary_conditions.
    destruct (if point_source self then _ else _) as [o1 [bcs | e |]];
      try reflexivity.
    rewrite returns_bind_return.
    destruct (match surface_source self with Some (Some _) => _ | _ => _ end)
      as [o2 [ints | e |]]; try reflexivity.
    rewrite returns_bind_return.
    apply (foldM_not_returns _ _ Hnever). exact Hin.
  - intros i rest Hid Hps Hss Hbcs. unfold update_boundary_conditions.
    rewrite Hps, Hss, Hbcs, !bind_ret_l. cbn [foldM].
    rewrite (Hone _ i Hid). reflexivity.
Qed.

Lemma unsupported_boundary_type_raises_witness :
  update_boundary_conditions
    (example_solver (schedule_Q None) 3 false
       [("wall", tagged_bc "symmetry" (PNum 0))])
    0 0 TrialFunction TestFunction
  = ([PrintBoundary 7],
     Raise (SolverError "symmetry boundary type`symmetry` is not supported"))
  /\ returns
       (update_boundary_conditions
          (example_solver (schedule_Q None) 3 false
             [("inlet", tagged_bc "pressure" (PNum 1));
              ("wall", tagged_bc "Neumann" (PNum 0))])
          0 0 TrialFunction TestFunction) = false.
Proof.
  split.
  - apply (proj2 (proj2 (proj2 (proj2
      (@unsupported_boundary_type_raises
         (example_solver (schedule_Q None) 3 false
            [("wall", tagged_bc "symmetry" (PNum 0))])
         0%nat TrialFunction TestFunction "wall"
         (tagged_bc "symmetry" (PNum 0)) "symmetry" eq_refl eq_refl)))) 7%Z []);
      reflexivity.
  - apply (proj1 (proj2 (proj2 (proj2
      (@unsupported_boundary_type_raises
         (example_solver (schedule_Q None) 3 false
            [("inlet", tagged_bc "pressure" (PNum 1));
             ("wall", tagged_bc "Neumann" (PNum 0))])
         0%nat TrialFunction TestFunction "wall"
         (tagged_bc "Neumann" (PNum 0)) "Neumann" eq_refl eq_refl))))).
    cbn [boundary_conditions example_solver In]. right. left. reflexivity.
Defined.




(* ===================================================================== *)
(** * Further properties of the code                                       *)
(* ===================================================================== *)

(** ** Runs of the driver with a fixed step *)

(** X1. With a fixed step and solves that return, a transient run is
    decided by the times the driver itself accumulates: t0, t0 + dt,
    (t0 + dt) + dt, ..., each sum computed in the arithmetic of the
    times (binary64 in the code). The run makes [n] passes, the k-th
    solve at the k-th of these times, when the first [n] of them are
    below the ending time and the next one is not; [current_step] ends
    at [n] and [current_time] at that next time, and the fields are
    those of the [n] solves applied in turn. Because the sums are
    rounded, [n] need not be ceil((ending_time - t0) / dt): from 0 to
    0.8 by steps of 0.1 the run makes 9 passes. *)
Theorem fixed_step_run_length {T : Type} `{Number T} (R : Type) (f : R -> R)
    (g : nat -> T -> R -> R) (rs : report_settings) (t0 dt tend : T)
    (n fuel : nat) (r0 : R) :
  (n < fuel)%nat ->
  (forall k, (k < n)%nat -> num_ltb (time_after t0 dt k) tend = true) ->
  num_ltb (time_after t0 dt n) tend = false ->
  exists out st,
    solve_transient (fun r => ret (f r)) (fun k t r => ret (g k t r))
      (fixed_step_schedule t0 dt tend) rs fuel r0 = (out, Return st)
    /\ solve_calls out = n
    /\ solve_times out = map (time_after t0 dt) (seq 0 n)
    /\ current_step st = n
    /\ current_time st = time_after t0 dt n
    /\ st = run_steps g dt n
               {| current_step := 0; current_time := t0; fields := f r0 |}.
Proof.
  intros Hfuel Hbelow Hpast.
  pose (st0 := {| current_step := 0; current_time := t0; fields := f r0 |}).
  exists (run_events g rs (saving_filename rs) dt n st0), (run_steps g dt n st0).
  split; [| split; [| split; [| split; [| split; [| reflexivity]]]]].
  - exact (@fixed_step_trace T _ R f g rs t0 dt tend None n fuel r0 Hfuel Hbelow Hpast).
  - apply solve_calls_run_events.
  - apply (solve_times_run_events g rs (saving_filename rs) dt n st0).
  - apply (run_steps_step g dt n st0).
  - apply (run_steps_time g dt n st0).
Qed.

Lemma fixed_step_run_length_witness :
  exists out st,
    solve_transient (fun r : unit => ret r) (fun _ _ r => ret r)
      (fixed_step_schedule 0%float 0.1%float 0.8%float) default_report 20 tt
    = (out, Return st)
    /\ solve_calls out = 9%nat
    /\ solve_times out = map (time_after 0%float 0.1%float) (seq 0 9)
    /\ current_step st = 9%nat
    /\ current_time st = time_after 0%float 0.1%float 9
    /\ st = run_steps (fun _ _ (r : unit) => r) 0.1%float 9
               {| current_step := 0; current_time := 0%float; fields := tt |}.
Proof.
  apply (@fixed_step_run_length float Number_float unit (fun r => r) (fun _ _ r => r)
           default_report 0%float 0.1%float 0.8%float 9%nat 20%nat tt).
  - lia.
  - intros k Hk. do 9 (destruct k as [| k]; [reflexivity |]). lia.
  - reflexivity.
Defined.

(** X2. With a fixed step that is zero or negative and a starting time
    below the ending time, the transient loop never ends: whatever the
    fuel, the run neither returns nor raises. Nothing in the loop guards
    against such a step. *)
Theorem nonpositive_step_never_terminates :
  forall (R : Type) (f : R -> R) (g : nat -> Q -> R -> R) (rs : report_settings)
         (t0 dt tend : Q) (fuel : nat) (r0 : R),
    (dt <= 0)%Q ->
    (t0 < tend)%Q ->
    outcome_of (solve_transient (fun r => ret (f r)) (fun k t r => ret (g k t r))
                  (fixed_schedule t0 dt tend) rs fuel r0) = Diverge.
Proof.
  intros R f g rs t0 dt tend fuel r0 Hdt Hlt.
  unfold solve_transient. rewrite bind_ret_l.
  cbn [transient fixed_schedule ending_time starting_time].
  generalize (match result_filename rs with Some fn => fn | None => "result_file.pvd" end).
  intros fn.
  assert (Hloop : forall fuel (st : driver_state Q R),
             (current_time st < tend)%Q ->
             outcome_of (transient_loop (fun k t r => ret (g k t r))
                           (fixed_schedule t0 dt tend) rs fuel tend fn st) = Diverge).
  { clear fuel. induction fuel as [| fuel IH]; intros st Hst; [reflexivity |].
    rewrite loop_continue; [| apply Qltb_lt; exact Hst | reflexivity].
    rewrite (loop_body_pure g (fun k t r => ret (g k t r)) (fixed_schedule t0 dt tend)
               rs (dt := dt) (bound := S (current_step st)) eq_refl eq_refl);
      [| reflexivity | apply Nat.lt_succ_diag_r].
    cbn [bind current_step current_time fields].
    match goal with
    | |- outcome_of (let (_, _) := ?c in _) = _ =>
        pose proof (IH {| current_step := S (current_step st);
                          current_time := (current_time st + dt)%Q;
                          fields := g (current_step st) (current_time st) (fields st) |})
          as Hrec;
        change (num_add (current_time st) dt) with (current_time st + dt)%Q;
        destruct (transient_loop (fun k t r => ret (g k t r))
                    (fixed_schedule t0 dt tend) rs fuel tend fn
                    {| current_step := S (current_step st);
                       current_time := (current_time st + dt)%Q;
                       fields := g (current_step st) (current_time st) (fields st) |})
          as [o2 r2]
    end.
    cbn [outcome_of snd] in *. apply Hrec. cbn [current_time].
    eapply Qle_lt_trans; [| exact Hst].
    rewrite <- (Qplus_0_r (current_time st)) at 2.
    apply Qplus_le_r. exact Hdt. }
  apply Hloop. exact Hlt.
Qed.

Lemma nonpositive_step_never_terminates_witness :
  outcome_of (solve_transient (fun r : unit => ret r) (fun _ _ r => ret r)
                (fixed_schedule 0 0 1) default_report 100 tt) = Diverge.
Proof.
  apply (@nonpositive_step_never_terminates unit (fun r => r) (fun _ _ r => r)
           default_report 0 0 1 100%nat tt).
  - unfold Qle; simpl; lia.
  - reflexivity.
Defined.

(** ** What the driver reports *)

Lemma plot_steps_app {T} (a b : list (event T)) :
  plot_steps (a ++ b) = plot_steps a ++ plot_steps b.
Proof.
  induction a as [| e a IH]; [reflexivity |].
  destruct e; cbn [plot_steps app]; rewrite IH; reflexivity.
Qed.

Lemma save_steps_app {T} (a b : list (event T)) :
  save_steps (a ++ b) = save_steps a ++ save_steps b.
Proof.
  induction a as [| e a IH]; [reflexivity |].
  destruct e; cbn [save_steps app]; rewrite IH; reflexivity.
Qed.

Lemma plot_steps_run_events {T} `{Number T} {R} (g : nat -> T -> R -> R)
    (rs : report_settings) (fn : string) (dt : T) (n : nat) :
  forall st,
    plot_steps (run_events g rs fn dt n st)
    = filter (plot_due rs) (seq (current_step st) n).
Proof.
  induction n as [| n IH]; intros st; [reflexivity |].
  cbn [run_events seq filter]. rewrite plot_steps_app, IH.
  cbn [run_steps current_step]. unfold pass_events.
  destruct (plot_due rs (current_step st)); destruct (save_due rs (current_step st));
    reflexivity.
Qed.

Lemma save_steps_run_events {T} `{Number T} {R} (g : nat -> T -> R -> R)
    (rs : report_settings) (fn : string) (dt : T) (n : nat) :
  forall st,
    save_steps (run_events g rs fn dt n st)
    = filter (save_due rs) (seq (current_step st) n).
Proof.
  induction n as [| n IH]; intros st; [reflexivity |].
  cbn [run_events seq filter]. rewrite save_steps_app, IH.
  cbn [run_steps current_step]. unfold pass_events.
  destruct (plot_due rs (current_step st)); destruct (save_due rs (current_step st));
    reflexivity.
Qed.

Lemma due_iff (freq : Z) (k : nat) :
  (0 <? freq)%Z && (0 <? k)%nat && (Z.of_nat k mod freq =? 0)%Z = true
  <-> (0 < freq)%Z /\ (0 < k)%nat /\ (freq | Z.of_nat k)%Z.
Proof.
  rewrite !andb_true_iff, Z.ltb_lt, Nat.ltb_lt, Z.eqb_eq. split.
  - intros [[Hf Hk] Hmod]. repeat split; try assumption.
    apply Z.mod_divide; [lia | exact Hmod].
  - intros [Hf [Hk Hdiv]]. repeat split; try assumption.
    apply Z.mod_divide; [lia | exact Hdiv].
Qed.

(** X3. The driver does not catch what a solve raises. With a fixed
    step, when the solves of steps 0 .. k0-1 return, the solve of step
    k0 raises, and the time the driver has accumulated is still below
    the ending time at every step up to k0, the run raises that
    exception: k0 complete passes were made, the last event is the call
    of the failing solve, and neither report nor later pass follows. *)
Theorem solve_failure_stops_the_run {T : Type} `{Number T} (R : Type) (f : R -> R)
    (g : nat -> T -> R -> R) (rs : report_settings) (t0 dt tend : T)
    (fuel : nat) (r0 : R) (k0 : nat) (e : exn) :
  (k0 < fuel)%nat ->
  (forall k, (k <= k0)%nat -> num_ltb (time_after t0 dt k) tend = true) ->
  let st0 := {| current_step := 0; current_time := t0; fields := f r0 |} in
  let out := run_events g rs (saving_filename rs) dt k0 st0
             ++ [CallSolveCurrentStep k0 (time_after t0 dt k0)] in
  solve_transient (fun r => ret (f r)) (failing_at g k0 e)
    (fixed_step_schedule t0 dt tend) rs fuel r0 = (out, Raise e)
  /\ solve_calls out = S k0.
Proof.
  intros Hfuel Hbelow st0 out.
  assert (Hstep : current_step (run_steps g dt k0 st0) = k0)
    by apply (run_steps_step g dt k0 st0).
  assert (Htime : current_time (run_steps g dt k0 st0) = time_after t0 dt k0)
    by apply (run_steps_time g dt k0 st0).
  split.
  - unfold solve_transient. rewrite bind_ret_l.
    pose proof (loop_pure_then_raise g (failing_at g k0 e)
                  (fixed_step_schedule t0 dt tend) rs
                  (dt := dt) (bound := k0) eq_refl eq_refl) as Hrun.
    assert (Hpure : forall k t r, (k < k0)%nat ->
                      failing_at g k0 e k t r = ret (g k t r)).
    { intros k t r Hk. unfold failing_at.
      replace (k =? k0)%nat with false by (symmetry; apply Nat.eqb_neq; lia).
      reflexivity. }
    specialize (Hrun Hpure).
    specialize (Hrun k0 fuel tend (saving_filename rs) st0 [] e Hfuel (le_n _)).
    rewrite Hstep, Htime in Hrun. apply Hrun.
    + intros i Hi. rewrite (run_steps_time g dt i st0). apply Hbelow. exact Hi.
    + unfold failing_at. rewrite Nat.eqb_refl. reflexivity.
  - unfold out. rewrite solve_calls_app, solve_calls_run_events. cbn. lia.
Qed.

Lemma solve_failure_stops_the_run_witness :
  solve_transient (fun r : unit => ret r)
    (failing_at (fun _ _ r => r) 2 (SolverError "diverged"))
    (fixed_step_schedule 0%float 0.1%float (0.1 + 0.1 + 0.1)%float) default_report 5 tt
  = (run_events (fun _ _ (r : unit) => r) default_report
       (saving_filename default_report) 0.1%float 2
       {| current_step := 0; current_time := 0%float; fields := tt |}
     ++ [CallSolveCurrentStep 2 (time_after 0%float 0.1%float 2)],
     Raise (SolverError "diverged")).
Proof.
  apply (@solve_failure_stops_the_run float Number_float unit (fun r => r)
           (fun _ _ r => r) default_report 0%float 0.1%float (0.1 + 0.1 + 0.1)%float
           5%nat tt 2%nat (SolverError "diverged")).
  - lia.
  - intros k Hk. do 3 (destruct k as [| k]; [reflexivity |]). lia.
Defined.

Lemma steady_run_reports_nothing {T : Type} `{Number T} (R : Type) (f : R -> R)
    (g : nat -> T -> R -> R) (rs : report_settings) (ts : transient_settings T)
    (fuel : nat) (r0 : R) :
  transient ts = false ->
  let steady := fst (solve_transient (fun r => ret (f r)) (fun k t r => ret (g k t r))
                       ts rs fuel r0) in
  plot_steps steady = [] /\ save_steps steady = [].
Proof.
  intros Hsteady steady. unfold steady. destruct fuel as [| fuel].
  - unfold solve_transient. rewrite bind_ret_l. split; reflexivity.
  - destruct (num_ltb (starting_time ts) (num_add (starting_time ts) (num_of_Z 1)))
      eqn:Hlt.
    + rewrite (steady_single_pass (fun k t r => ret (g k t r)) ts rs
                 (fun r => ret (f r)) fuel r0 Hsteady Hlt).
      split; reflexivity.
    + unfold solve_transient. rewrite bind_ret_l, Hsteady.
      rewrite loop_exit by exact Hlt. split; reflexivity.
Qed.

(** X4. The report policy of a transient run with a fixed step and [n]
    passes ([n] as the driver's own accumulated times decide it):
    [plot()] is called exactly at the steps k with 0 < k < n that the
    plotting frequency divides, and never when the frequency is zero or
    negative; [save()] is called exactly at the steps k with 0 < k < n
    that the saving frequency divides, and never when that frequency is
    [None], zero or negative. Step 0 is never plotted or saved, and a
    steady run plots and saves nothing. *)
Theorem report_policy {T : Type} `{Number T} (R : Type) (f : R -> R)
    (g : nat -> T -> R -> R) (rs : report_settings) (t0 dt tend : T)
    (n fuel : nat) (r0 : R) :
  (n < fuel)%nat ->
  (forall k, (k < n)%nat -> num_ltb (time_after t0 dt k) tend = true) ->
  num_ltb (time_after t0 dt n) tend = false ->
  let out := fst (solve_transient (fun r => ret (f r)) (fun k t r => ret (g k t r))
                    (fixed_step_schedule t0 dt tend) rs fuel r0) in
  let steady := fst (solve_transient (fun r => ret (f r)) (fun k t r => ret (g k t r))
                       {| transient := false; starting_time := t0;
                          time_step := Some dt; ending_time := tend;
                          time_series := None |} rs fuel r0) in
  (forall k, In k (plot_steps out)
             <-> (0 < plotting_freq rs)%Z
                 /\ (0 < k < n)%nat
                 /\ (plotting_freq rs | Z.of_nat k)%Z)
  /\ (forall k, In k (save_steps out)
                <-> exists sf, saving_freq rs = Some sf
                               /\ (0 < sf)%Z
                               /\ (0 < k < n)%nat
                               /\ (sf | Z.of_nat k)%Z)
  /\ plot_steps steady = [] /\ save_steps steady = [].
Proof.
  intros Hfuel Hbelow Hpast out steady.
  assert (Hout : out = run_events g rs (saving_filename rs) dt n
                         {| current_step := 0; current_time := t0; fields := f r0 |}).
  { unfold out, fixed_step_schedule.
    rewrite (@fixed_step_trace T _ R f g rs t0 dt tend None n fuel r0 Hfuel Hbelow Hpast).
    reflexivity. }
  split; [| split].
  - intros k. rewrite Hout, plot_steps_run_events, filter_In, in_seq.
    cbn [current_step]. unfold plot_due. rewrite due_iff. intuition lia.
  - intros k. rewrite Hout, save_steps_run_events, filter_In, in_seq.
    cbn [current_step]. unfold save_due. destruct (saving_freq rs) as [sf |].
    + rewrite due_iff. split.
      * intros [Hk [Hsf [Hpos Hdiv]]]. exists sf. intuition lia.
      * intros [sf' [Heq [Hsf [Hk Hdiv]]]]. injection Heq as <-. intuition lia.
    + split; [intros [_ Hfalse]; discriminate |].
      intros [sf' [Heq _]]. discriminate.
  - apply (steady_run_reports_nothing f g rs
             {| transient := false; starting_time := t0; time_step := Some dt;
                ending_time := tend; time_series := None |} fuel r0 eq_refl).
Qed.

Lemma report_policy_witness :
  In 8%nat (plot_steps
              (fst (solve_transient (fun r : unit => ret r) (fun _ _ r => ret r)
                      (fixed_step_schedule 0%float 0.1%float 0.8%float)
                      {| plotting_freq := 8; saving_freq := Some 8%Z;
                         result_filename := None |} 20 tt)))
  <-> (0 < 8)%Z /\ (0 < 8 < 9)%nat /\ (8 | Z.of_nat 8)%Z.
Proof.
  assert (Hbelow : forall k, (k < 9)%nat ->
                     num_ltb (time_after 0%float 0.1%float k) 0.8%float = true).
  { intros k Hk. do 9 (destruct k as [| k]; [reflexivity |]). lia. }
  exact (proj1 (@report_policy float Number_float unit (fun r => r) (fun _ _ r => r)
                  {| plotting_freq := 8; saving_freq := Some 8%Z;
                     result_filename := None |}
                  0%float 0.1%float 0.8%float 9%nat 20%nat tt
                  ltac:(lia) Hbelow eq_refl) 8%nat).
Defined.

(** ** Time series *)

(** X5. Lookups in a time series. [get_current_time] returns the point
    [ts[k]] for an index inside the series. With the index equal to the
    length of the series the guard [len(ts) >= time_iter_] still passes,
    and [get_time_step] and [get_current_time] raise [IndexError]
    without printing. When [time_step] is not a number and there is no
    [time_series] entry, both raise [KeyError]. *)
Theorem time_series_lookup_bounds :
  forall (tr : bool) (t0 tend : Q) (series : list Q) (k : nat),
    (forall a, nth_error series k = Some a ->
               get_current_time (series_schedule tr t0 tend series) k None = ret a)
    /\ (k = List.length series ->
        get_time_step (series_schedule tr t0 tend series) k = raise IndexError
        /\ get_current_time (series_schedule tr t0 tend series) k None
           = raise IndexError)
    /\ get_time_step {| transient := tr; starting_time := t0; time_step := None;
                        ending_time := tend; time_series := None |} k
       = raise (KeyError "time_series")
    /\ get_current_time {| transient := tr; starting_time := t0; time_step := None;
                           ending_time := tend; time_series := None |} k None
       = raise (KeyError "time_series").
Proof.
  intros tr t0 tend series k. split; [| split; [| split]].
  - intros a Hnth.
    assert (Hk : (k < List.length series)%nat)
      by (apply nth_error_Some; rewrite Hnth; discriminate).
    unfold get_current_time, series_schedule. cbn [time_step time_series getkey].
    rewrite bind_ret_l.
    assert (Hleb : (k <=? List.length series)%nat = true) by (apply Nat.leb_le; lia).
    destruct k as [| k]; rewrite Hleb; apply getitem_nth; exact Hnth.
  - intros ->.
    assert (Hnone : nth_error series (List.length series) = None)
      by (apply nth_error_None; lia).
    unfold get_time_step, get_current_time, series_schedule.
    cbn [time_step time_series getkey]. rewrite !bind_ret_l, Nat.leb_refl.
    unfold getitem. rewrite Hnone. split; reflexivity.
  - reflexivity.
  - destruct k; reflexivity.
Qed.

Lemma time_series_lookup_bounds_witness :
  get_current_time (series_schedule true 0 2 [0; 1; 2]%Q) 1 None = ret 1%Q
  /\ get_time_step (series_schedule true 0 2 [0; 1; 2]%Q) 3 = raise IndexError
  /\ get_current_time (series_schedule true 0 2 [0; 1; 2]%Q) 3 None = raise IndexError.
Proof.
  split.
  - apply (proj1 (time_series_lookup_bounds true 0 2 [0; 1; 2]%Q 1%nat)). reflexivity.
  - apply (proj1 (proj2 (time_series_lookup_bounds true 0 2 [0; 1; 2]%Q 3%nat))).
    reflexivity.
Defined.

Lemma pydiv_zero (a b : Q) : (b == 0)%Q -> pydiv a b = raise ZeroDivisionError.
Proof.
  intros Hb. unfold pydiv. apply Qeq_bool_iff in Hb. rewrite Hb. reflexivity.
Qed.

(** X6. The acceleration estimate needs a non-zero time step. At step 0
    [get_acceleration] fails its assertion. With a fixed time step of
    zero, which [float(...)] accepts, [1 / dt] raises
    [ZeroDivisionError] at every later step, and so does the inertial
    block of [generate_form] when dynamics is enabled in transient mode:
    nothing rejects the step before. *)
Theorem acceleration_needs_nonzero_step :
  (forall self : solver, get_acceleration self 0 = raise AssertionError)
  /\ (forall (self : solver) (dt : Q) (k : nat) (v F : ufl),
        time_step (schedule self) = Some dt ->
        (dt == 0)%Q ->
        (1 <= k)%nat ->
        get_acceleration self k = raise ZeroDivisionError
        /\ (transient (schedule self) = true ->
            solving_dynamics self = true ->
            inertial_term self k v F = raise ZeroDivisionError)).
Proof.
  split; [reflexivity |].
  intros self dt k v F Hstep Hzero Hk.
  assert (Hinv : inverse_time_step self k = raise ZeroDivisionError).
  { unfold inverse_time_step, get_time_step. rewrite Hstep, bind_ret_l.
    rewrite (pydiv_zero 1 Hzero). reflexivity. }
  assert (Hacc : get_acceleration self k = raise ZeroDivisionError).
  { unfold get_acceleration.
    replace (k <? 1)%nat with false by (symmetry; apply Nat.ltb_ge; lia).
    rewrite Hinv. reflexivity. }
  split; [exact Hacc |].
  intros Htr Hdyn. unfold inertial_term. rewrite Htr, Hdyn. cbn [andb].
  replace (1 <=? k)%nat with true by (symmetry; apply Nat.leb_le; lia).
  rewrite Hacc. reflexivity.
Qed.

Lemma acceleration_needs_nonzero_step_witness :
  get_acceleration (example_solver (fixed_schedule 0 0 1) 3 true []) 1
  = raise ZeroDivisionError
  /\ inertial_term (example_solver (fixed_schedule 0 0 1) 3 true []) 1
       TestFunction dx
     = raise ZeroDivisionError.
Proof.
  destruct (proj2 acceleration_needs_nonzero_step
              (example_solver (fixed_schedule 0 0 1) 3 true [])
              0%Q 1%nat TestFunction dx eq_refl (Qeq_refl 0) (le_n 1))
    as [Hacc Hterm].
  split; [exact Hacc | apply Hterm; reflexivity].
Defined.

(** ** translate_value *)

(** X7. Translating twice is translating once. For a number, a string,
    a dolfin object or a sequence of dimension length: whenever
    [translate_value] returns, what it returns is a dolfin [Constant],
    [Function] or [Expression], and translating that result again, at
    any step and for any target space, returns it unchanged, prints
    nothing and consults neither the file system nor the clock. *)
Theorem translate_value_idempotent :
  forall (self : solver) (k k' : nat) (v r : pyval) (W W' : option space)
         (out : list (event Q)),
    settles (dimension self) v = true ->
    translate_value self k v W = (out, Return r) ->
    plain_axis_value r = true
    /\ is_None r = false
    /\ is_number r = false
    /\ translate_value self k' r W' = ret r.
Proof.
  intros self k k' v r W W' out Hsettles Hrun.
  assert (Hseq : forall items,
             sequence_items v = Some items ->
             (List.length items =? dimension self)%nat = true ->
             translate_sequence self k v items
               (match W with Some given => given | None => SelfFunctionSpace end)
             = (out, Return r) ->
             (exists c, r = PConstant c) \/ (exists f, r = PFunction f)).
  { intros items _ Hlen. unfold translate_sequence. rewrite Hlen.
    destruct items as [| v0 rest]; [discriminate |].
    cbn [getitem nth_error]. rewrite bind_ret_l.
    destruct (is_number v0).
    - intros H. injection H as _ <-. left. eexists. reflexivity.
    - destruct (is_str v0).
      + intros H. injection H as _ <-. right. eexists. reflexivity.
      + intros H. discriminate H. }
  assert (Hshape : (exists c, r = PConstant c) \/ (exists f, r = PFunction f)
                   \/ (exists s d, r = PExpression s d)).
  { destruct v; cbn [settles] in Hsettles; try discriminate;
      cbn [translate_value] in Hrun.
    - injection Hrun as _ <-. left. eexists. reflexivity.
    - right. left.
      destruct (path_exists (surroundings self) s);
        [destruct (fenicstools_importable (surroundings self)) |];
        try discriminate; injection Hrun as _ <-; eexists; reflexivity.
    - destruct (Hseq items eq_refl Hsettles Hrun) as [H | H]; auto.
    - destruct (Hseq items eq_refl Hsettles Hrun) as [H | H]; auto.
    - destruct (Hseq items eq_refl Hsettles Hrun) as [H | H]; auto.
    - injection Hrun as _ <-. left. eexists. reflexivity.
    - injection Hrun as _ <-. right. left. eexists. reflexivity.
    - injection Hrun as _ <-. right. right. do 2 eexists. reflexivity. }
  destruct Hshape as [[c ->] | [[f ->] | [s [d ->]]]]; repeat split.
Qed.

Lemma translate_value_idempotent_witness :
  translate_value (example_solver (schedule_Q None) 3 false []) 5
    (PConstant (PTuple [PNum 1; PNum 2; PNum 3])) (Some (GivenSpace "W"))
  = ret (PConstant (PTuple [PNum 1; PNum 2; PNum 3])).
Proof.
  apply (@translate_value_idempotent (example_solver (schedule_Q None) 3 false [])
           0%nat 5%nat (PList [PNum 1; PNum 2; PNum 3])
           (PConstant (PTuple [PNum 1; PNum 2; PNum 3])) None (Some (GivenSpace "W")) []);
    reflexivity.
Defined.

Lemma translate_value_sequence (self : solver) (k : nat) (v : pyval)
    (items : list pyval) (W : option space) :
  sequence_items v = Some items ->
  translate_value self k v W
  = translate_sequence self k v items
      (match W with Some given => given | None => SelfFunctionSpace end).
Proof. destruct v; intros H; try discriminate; injection H as <-; reflexivity. Qed.

(** X8. A sequence that is neither a vector of the dimension nor, in
    transient mode, a longer time series is not translated: a tuple,
    list or array whose length differs from the dimension (in steady
    mode, or shorter than the dimension), or whose length is the
    dimension but whose first element is neither a number nor a string,
    makes [translate_value] print its message and then raise
    [UnboundLocalError] at [return values_0]. *)
Theorem unsupported_sequence_raises :
  forall (self : solver) (k : nat) (v : pyval) (items : list pyval)
         (W : option space),
    sequence_items v = Some items ->
    (List.length items <> dimension self
     /\ (transient (schedule self) = false
         \/ (List.length items < dimension self)%nat))
    \/ (List.length items = dimension self
        /\ exists v0 rest, items = v0 :: rest
                           /\ is_number v0 = false /\ is_str v0 = false) ->
    translate_value self k v W
    = ([Print (unsupported_sequence v)], Raise (UnboundLocalError "values_0")).
Proof.
  intros self k v items W Hseq Hcase.
  rewrite (translate_value_sequence self k v W Hseq). unfold translate_sequence.
  destruct Hcase as [[Hlen Hwhy] | [Hlen [v0 [rest [-> [Hnum Hstr]]]]]].
  - replace (List.length items =? dimension self)%nat with false
      by (symmetry; apply Nat.eqb_neq; exact Hlen).
    destruct Hwhy as [Hsteady | Hshort].
    + rewrite Hsteady. reflexivity.
    + replace (dimension self <? List.length items)%nat with false
        by (symmetry; apply Nat.ltb_ge; lia).
      rewrite andb_false_r. reflexivity.
  - rewrite Hlen, Nat.eqb_refl. cbn [getitem nth_error]. rewrite bind_ret_l.
    rewrite Hnum, Hstr. reflexivity.
Qed.

Lemma unsupported_sequence_raises_witness :
  translate_value (example_solver (schedule_Q None) 3 false []) 0
    (PList [PNum 1; PNum 2]) None
  = ([Print " <type 'list'> is supplied, but only tuple of number and string expr of dim = len(v) are supported"],
     Raise (UnboundLocalError "values_0")).
Proof.
  apply (@unsupported_sequence_raises (example_solver (schedule_Q None) 3 false [])
           0%nat (PList [PNum 1; PNum 2]) [PNum 1; PNum 2] None eq_refl).
  left. split; [discriminate | right; simpl; lia].
Defined.

(** X9. In transient mode a sequence longer than the dimension is a
    time series of values: [translate_value] returns its element at
    [current_step] as it is, without translating it (a number stays a
    number, it is not wrapped in a [Constant]), and raises [IndexError]
    once [current_step] has reached the length of the sequence. *)
Theorem vector_time_series_indexing :
  forall (self : solver) (k : nat) (v : pyval) (items : list pyval)
         (W : option space),
    sequence_items v = Some items ->
    transient (schedule self) = true ->
    (dimension self < List.length items)%nat ->
    (forall a, nth_error items k = Some a -> translate_value self k v W = ret a)
    /\ ((List.length items <= k)%nat ->
        translate_value self k v W = raise IndexError).
Proof.
  intros self k v items W Hseq Htr Hlong.
  rewrite (translate_value_sequence self k v W Hseq). unfold translate_sequence.
  replace (List.length items =? dimension self)%nat with false
    by (symmetry; apply Nat.eqb_neq; lia).
  replace (dimension self <? List.length items)%nat with true
    by (symmetry; apply Nat.ltb_lt; exact Hlong).
  rewrite Htr. cbn [andb]. unfold getitem. split.
  - intros a ->. reflexivity.
  - intros Hk. apply nth_error_None in Hk. rewrite Hk. reflexivity.
Qed.

Lemma vector_time_series_indexing_witness :
  translate_value (example_solver (schedule_Q None) 3 false []) 1
    (PList [PNum 10; PNum 20; PNum 30; PNum 40]) None = ret (PNum 20)
  /\ translate_value (example_solver (schedule_Q None) 3 false []) 4
       (PList [PNum 10; PNum 20; PNum 30; PNum 40]) None = raise IndexError.
Proof.
  split.
  - apply (proj1 (@vector_time_series_indexing
                    (example_solver (schedule_Q None) 3 false []) 1%nat
                    (PList [PNum 10; PNum 20; PNum 30; PNum 40])
                    [PNum 10; PNum 20; PNum 30; PNum 40] None
                    eq_refl eq_refl (Nat.lt_succ_diag_r 3))).
    reflexivity.
  - apply (proj2 (@vector_time_series_indexing
                    (example_solver (schedule_Q None) 3 false []) 4%nat
                    (PList [PNum 10; PNum 20; PNum 30; PNum 40])
                    [PNum 10; PNum 20; PNum 30; PNum 40] None
                    eq_refl eq_refl (Nat.lt_succ_diag_r 3))).
    simpl. lia.
Defined.

(** X10. In steady mode the translation of a value does not depend on
    the step: [translate_value] gives the same result and the same
    output at every [current_step], for every value and target space. A
    callable is then not invoked, and a sequence is never indexed by the
    step. *)
Theorem steady_translation_ignores_step :
  forall (self : solver) (k k' : nat) (v : pyval) (W : option space),
    transient (schedule self) = false ->
    translate_value self k v W = translate_value self k' v W
    /\ (forall f, v = PCallable f ->
                  translate_value self k v W
                  = ([Print (unsupported_value v)], Return v)).
Proof.
  intros self k k' v W Hsteady. split.
  - destruct v; cbn [translate_value]; try reflexivity;
      unfold translate_sequence; rewrite Hsteady; reflexivity.
  - intros f ->. cbn [translate_value]. rewrite Hsteady. reflexivity.
Qed.

Lemma steady_translation_ignores_step_witness :
  translate_value
    (example_solver {| transient := false; starting_time := 0;
                       time_step := Some 0.01%Q; ending_time := 0.03%Q;
                       time_series := None |} 3 false []) 0
    (PCallable PNum) None
  = translate_value
      (example_solver {| transient := false; starting_time := 0;
                         time_step := Some 0.01%Q; ending_time := 0.03%Q;
                         time_series := None |} 3 false []) 7
      (PCallable PNum) None.
Proof.
  apply (proj1 (@steady_translation_ignores_step
                  (example_solver {| transient := false; starting_time := 0;
                                     time_step := Some 0.01%Q; ending_time := 0.03%Q;
                                     time_series := None |} 3 false [])
                  0%nat 7%nat (PCallable PNum) None eq_refl)).
Defined.

(** ** Resolution of boundary records *)

Lemma find_app {A} (p : A -> bool) (l1 l2 : list A) :
  find p (l1 ++ l2) = match find p l1 with Some a => Some a | None => find p l2 end.
Proof.
  induction l1 as [| a l1 IH]; [reflexivity |].
  cbn [app find]. destruct (p a); [reflexivity | exact IH].
Qed.

Lemma fold_left_last_match {A} (p : A -> bool) (l : list A) :
  forall b,
    fold_left (fun acc a => if p a then a else acc) l b
    = match find p (rev l) with Some a => a | None => b end.
Proof.
  induction l as [| a l IH]; intros b; [reflexivity |].
  cbn [fold_left rev]. rewrite IH, find_app. cbn [find].
  destruct (find p (rev l)); [reflexivity |]. destruct (p a); reflexivity.
Qed.

(** X11. Which record [get_boundary_variable] resolves to. An old-style
    record (no ['values']) is returned itself. With a ['values'] list
    the last entry whose ['variable'] is the wanted one wins, and with a
    ['values'] dict the entry under that key; when there is none, the
    record itself is returned, silently. The wanted variable defaults to
    the scalar name if the settings have one, else to the vector name. *)
Theorem get_boundary_variable_last_match :
  forall (self : solver) (d : bc_dict) (variable_ : option string),
    let wanted := default_variable self variable_ in
    get_boundary_variable self {| base := d; values := None |} variable_ = d
    /\ (forall entries,
          get_boundary_variable self
            {| base := d; values := Some (ValuesList entries) |} variable_
          = match find (names_variable wanted) (rev entries) with
            | Some vbc => vbc
            | None => d
            end)
    /\ (forall entries,
          get_boundary_variable self
            {| base := d; values := Some (ValuesDict entries) |} variable_
          = match lookup_entry wanted entries with
            | Some vbc => vbc
            | None => d
            end)
    /\ (variable_ = None ->
        wanted = match scalar_name self with
                 | Some n => n
                 | None => match vector_name self with
                           | Some n => n
                           | None => "unknown"
                           end
                 end).
Proof.
  intros self d variable_ wanted. split; [reflexivity | split; [| split]].
  - intros entries. unfold get_boundary_variable. cbn [values base].
    fold wanted. rewrite <- (fold_left_last_match (names_variable wanted) entries d).
    generalize d. induction entries as [| vbc entries IH]; intros b; [reflexivity |].
    cbn [fold_left]. rewrite IH. f_equal.
    unfold names_variable. destruct (variable vbc); reflexivity.
  - reflexivity.
  - intros ->. reflexivity.
Qed.

(** ** What a pass over the boundary records leaves *)

Lemma boundary_prints_app (a b : list (event Q)) :
  boundary_prints (a ++ b) = boundary_prints a ++ boundary_prints b.
Proof.
  induction a as [| e a IH]; [reflexivity |].
  destruct e; cbn [boundary_prints app]; rewrite IH; reflexivity.
Qed.

Lemma silent_bind {A B} (m : M Q A) (k : A -> M Q B) :
  silent m -> (forall a, silent (k a)) -> silent (bind m k).
Proof.
  unfold silent. destruct m as [o [a | e |]]; cbn [bind fst]; intros Hm Hk;
    try exact Hm.
  specialize (Hk a). destruct (k a) as [o' r]. cbn [fst] in *.
  rewrite boundary_prints_app, Hm, Hk. reflexivity.
Qed.

Lemma silent_getkey {A} (key : string) (entry : option A) : silent (getkey key entry).
Proof. destruct entry; reflexivity. Qed.

Lemma silent_getitem {A} (l : list A) (i : nat) : silent (getitem l i).
Proof. unfold getitem. destruct (nth_error l i); reflexivity. Qed.

Lemma silent_truthy (v : pyval) : silent (truthy v).
Proof.
  destruct v; try reflexivity.
  cbn [truthy]. destruct items as [| [] [|]]; reflexivity.
Qed.

Lemma silent_present_and_true (entry : option pyval) : silent (present_and_true entry).
Proof. destruct entry; [apply silent_truthy | reflexivity]. Qed.

Lemma silent_all_true (items : list pyval) : silent (all_true items).
Proof.
  induction items as [| v rest IH]; [reflexivity |].
  cbn [all_true]. apply silent_bind; [apply silent_truthy |].
  intros [|]; [exact IH | reflexivity].
Qed.

Lemma silent_get_current_time (ts : transient_settings Q) (k : nat) (ti : option nat) :
  silent (get_current_time ts k ti).
Proof.
  unfold get_current_time. destruct (time_step ts); [reflexivity |].
  apply silent_bind; [apply silent_getkey |]. intros series.
  destruct (_ <=? _)%nat; [apply silent_getitem | reflexivity].
Qed.

Lemma silent_translate_value (self : solver) (k : nat) (v : pyval) (W : option space) :
  silent (translate_value self k v W).
Proof.
  assert (Hseq : forall items given,
             silent (translate_sequence self k v items given)).
  { intros items given. unfold translate_sequence.
    destruct (_ =? _)%nat.
    - apply silent_bind; [apply silent_getitem |]. intros v0.
      destruct (is_number v0); [reflexivity |].
      destruct (is_str v0); reflexivity.
    - destruct (_ && _); [apply silent_getitem | reflexivity]. }
  destruct v; cbn [translate_value]; try reflexivity; try apply Hseq.
  - destruct (path_exists _ _); [destruct (fenicstools_importable _) |]; reflexivity.
  - destruct (transient _); [| reflexivity].
    apply silent_bind; [apply silent_get_current_time | reflexivity].
Qed.

Lemma silent_direction_or_normal (bc : bc_dict) : silent (direction_or_normal bc).
Proof.
  unfold direction_or_normal. apply silent_bind; [apply silent_present_and_true |].
  intros given. destruct (direction bc); [destruct given |]; reflexivity.
Qed.

Lemma silent_force_vector (self : solver) (k : nat) (bc : bc_dict) :
  silent (force_vector self k bc).
Proof.
  unfold force_vector. apply silent_bind; [apply silent_getkey |]. intros bv.
  assert (Hscalar : silent
            (bc_force <- translate_value self k bv None ;;
             id <- getkey "boundary_id" (boundary_id bc) ;;
             emit (PrintArea (boundary_area (surroundings self) id)) ;;;
             (if Qeq_bool (boundary_area (surroundings self) id) 0
              then raise ZeroDivisionError else ret tt) ;;;
             direction_vector <- direction_or_normal bc ;;
             ret (Mul direction_vector
                      (Div (Val bc_force)
                           (Float (boundary_area (surroundings self) id)))))).
  { apply silent_bind; [apply silent_translate_value |]. intros bc_force.
    apply silent_bind; [apply silent_getkey |]. intros id.
    apply silent_bind; [reflexivity |]. intros _.
    apply silent_bind; [destruct (Qeq_bool _ _); reflexivity |]. intros _.
    apply silent_bind; [apply silent_direction_or_normal | reflexivity]. }
  destruct (tuple_or_list bv); [destruct (_ =? _)%nat |];
    first [reflexivity | exact Hscalar].
Qed.

Lemma post_silent {A} (m : M Q A) :
  silent m -> post m (fun out _ => boundary_prints out = []).
Proof. intros Hs out a Hm. unfold silent in Hs. rewrite Hm in Hs. exact Hs. Qed.

Lemma post_ret {A} (a : A) (P : list (event Q) -> A -> Prop) :
  P [] a -> post (ret a) P.
Proof. intros HP out a' Hm. injection Hm as <- <-. exact HP. Qed.

Lemma post_raise {A} (e : exn) (P : list (event Q) -> A -> Prop) : post (raise e) P.
Proof. intros out a Hm. discriminate Hm. Qed.

Lemma post_bind {A B} (m : M Q A) (k : A -> M Q B) (P : list (event Q) -> B -> Prop) :
  post m (fun o a => post (k a) (fun o' b => P (o ++ o') b)) ->
  post (bind m k) P.
Proof.
  intros Hm out b Hrun. destruct m as [o [a | e |]]; cbn [bind] in Hrun;
    try discriminate.
  destruct (k a) as [o' r] eqn:Hk. injection Hrun as <- ->.
  exact (Hm o a eq_refl o' b Hk).
Qed.

Lemma post_weaken {A} (m : M Q A) (P P' : list (event Q) -> A -> Prop) :
  post m P -> (forall out a, P out a -> P' out a) -> post m P'.
Proof. intros Hm Himp out a Hrun. apply Himp. exact (Hm out a Hrun). Qed.

Lemma post_constrain_axes (self : solver) (k : nat) (sub : nat -> space) (i : Z) :
  forall (items : list pyval) (axis_i : nat) (bcs : list constraint),
    post (constrain_axes self k sub i axis_i items bcs)
         (fun out bcs' =>
            boundary_prints out = []
            /\ exists added, bcs' = bcs ++ added /\ Forall (constrains i) added).
Proof.
  induction items as [| disp rest IH]; intros axis_i bcs.
  - apply post_ret. split; [reflexivity |]. exists []. rewrite app_nil_r. auto.
  - cbn [constrain_axes]. apply post_bind. destruct (is_None disp).
    + apply post_ret. cbn [app]. exact (IH (S axis_i) bcs).
    + apply post_bind.
      eapply post_weaken; [apply post_silent, silent_translate_value |].
      intros o1 val Ho1. apply post_ret. rewrite app_nil_r.
      eapply post_weaken; [exact (IH (S axis_i) _) |].
      intros o2 bcs' [Ho2 [added [-> Hadded]]].
      split; [rewrite boundary_prints_app, Ho1, Ho2; reflexivity |].
      exists (DirichletBC (sub axis_i) val i :: added).
      split; [rewrite <- app_assoc; reflexivity |].
      constructor; [do 2 eexists; reflexivity | exact Hadded].
Qed.

Lemma post_one_constraint (self : solver) (k : nat) (W : space) (i : Z)
    (bv : pyval) (bcs : list constraint) :
  post (val <- translate_value self k bv None ;; ret (bcs ++ [DirichletBC W val i]))
       (fun out bcs' =>
          boundary_prints out = []
          /\ exists added, bcs' = bcs ++ added /\ Forall (constrains i) added).
Proof.
  apply post_bind.
  eapply post_weaken; [apply post_silent, silent_translate_value |].
  intros o1 val Ho1. apply post_ret. rewrite app_nil_r.
  split; [exact Ho1 |]. eexists. split; [reflexivity |].
  constructor; [do 2 eexists; reflexivity | constructor].
Qed.

Lemma post_dirichlet_boundary (self : solver) (k : nat) (bc : bc_dict) (i : Z)
    (bcs : list constraint) :
  post (dirichlet_boundary self k bc i bcs)
       (fun out bcs' =>
          boundary_prints out = []
          /\ exists added, bcs' = bcs ++ added /\ Forall (constrains i) added).
Proof.
  unfold dirichlet_boundary. destruct (is_mixed_function_space self); cbn [negb].
  - destruct (value bc) as [bv |].
    + apply post_bind. destruct (variable bc) as [var |]; [| apply post_raise].
      apply post_ret. cbn [app].
      destruct (String.eqb var "displacement").
      * apply post_bind.
        assert (Hquiet : forall (m : M Q bool)
                   (P : list (event Q) -> list constraint -> Prop) K,
                   silent m ->
                   (forall b, post (K b) (fun o r => boundary_prints o = [] /\ P [] r)) ->
                   post m (fun o b => post (K b)
                                 (fun o' r => boundary_prints (o ++ o') = [] /\ P [] r))).
        { intros m P K Hm HK. eapply post_weaken; [apply post_silent, Hm |].
          intros o b Ho. eapply post_weaken; [apply HK |].
          intros o' r [Ho' HP]. split; [| exact HP].
          rewrite boundary_prints_app, Ho, Ho'. reflexivity. }
        apply (Hquiet _ (fun _ r => exists added,
                             r = bcs ++ added /\ Forall (constrains i) added)).
        -- destruct (tuple_or_list bv); [| reflexivity].
           destruct (_ =? _)%nat; [| reflexivity].
           apply silent_bind; [apply silent_all_true | reflexivity].
        -- intros per_axis. destruct (tuple_or_list bv) as [items |].
           ++ destruct per_axis;
                [apply post_constrain_axes | apply post_one_constraint].
           ++ apply post_one_constraint.
      * destruct (String.eqb var "velocity"); [apply post_one_constraint |].
        destruct (String.eqb var "all"); [apply post_one_constraint |].
        apply post_bind. intros o a _. apply post_raise.
    + apply post_ret. split; [reflexivity |]. exists []. rewrite app_nil_r. auto.
  - apply post_bind. destruct (value bc) as [bv |]; [| apply post_raise].
    apply post_ret. cbn [app].
    destruct (tuple_or_list bv) as [items |];
      [destruct (_ =? _)%nat |];
      first [apply post_constrain_axes | apply post_one_constraint].
Qed.

Lemma post_weak_term (self : solver) (k : nat) (i : Z) (v : ufl)
    (bcs : list constraint) (integrals_N : list ufl) (m : M Q ufl) :
  silent m ->
  post (g <- m ;; ret (bcs, integrals_N ++ [Mul (Dot g v) (ds_ i)]))
       (fun out r =>
          boundary_prints out = []
          /\ fst r = bcs
          /\ exists t, snd r = integrals_N ++ [t] /\ integrates_over i v t).
Proof.
  intros Hm. apply post_bind.
  eapply post_weaken; [apply post_silent, Hm |].
  intros o g Ho. apply post_ret. rewrite app_nil_r.
  split; [exact Ho |]. split; [reflexivity |].
  eexists. split; [reflexivity |]. eexists. reflexivity.
Qed.

(** What the pass over one record leaves, whenever it returns. *)
Lemma update_boundary_effect (self : solver) (k : nat) (u v : ufl)
    (bcs : list constraint) (integrals_N : list ufl) (item : string * bc_settings) :
  post (update_boundary self k u v (bcs, integrals_N) item)
       (fun out r =>
          exists i added terms,
            boundary_id (base (snd item)) = Some i
            /\ boundary_prints out = [i]
            /\ fst r = bcs ++ added
            /\ snd r = integrals_N ++ terms
            /\ (added = [] \/ terms = [])
            /\ (List.length terms <= 1)%nat
            /\ Forall (constrains i) added
            /\ Forall (integrates_over i v) terms).
Proof.
  unfold update_boundary. cbn [fst snd]. apply post_bind.
  destruct (boundary_id (base (snd item))) as [i |]; [| apply post_raise].
  apply post_ret. cbn [app]. apply post_bind. intros o1 [] Ho1.
  injection Ho1 as <-. apply post_bind.
  destruct (type (get_boundary_variable self (snd item) None)) as [ty |];
    [| apply post_raise].
  apply post_ret. cbn [app].
  set (bc := get_boundary_variable self (snd item) None).
  assert (Hterm : forall (m : M Q ufl),
             silent m ->
             post (g <- m ;; ret (bcs, integrals_N ++ [Mul (Dot g v) (ds_ i)]))
                  (fun o' r =>
                     exists i0 added terms,
                       Some i = Some i0
                       /\ boundary_prints ([PrintBoundary i] ++ o') = [i0]
                       /\ fst r = bcs ++ added
                       /\ snd r = integrals_N ++ terms
                       /\ (added = [] \/ terms = [])
                       /\ (List.length terms <= 1)%nat
                       /\ Forall (constrains i0) added
                       /\ Forall (integrates_over i0 v) terms)).
  { intros m Hm. eapply post_weaken; [apply (post_weak_term self k i v bcs integrals_N Hm) |].
    intros o' r [Ho' [Hfst [t [Hsnd Ht]]]].
    exists i, [], [t]. cbn [boundary_prints app]. rewrite Ho', app_nil_r.
    repeat split; auto. }
  destruct (String.eqb ty "Dirichlet" || String.eqb ty "displacement").
  - apply post_bind.
    eapply post_weaken; [apply post_dirichlet_boundary |].
    intros o' bcs' [Ho' [added [-> Hadded]]]. apply post_ret. rewrite app_nil_r.
    exists i, added, []. cbn [boundary_prints app fst snd]. rewrite Ho', app_nil_r.
    repeat split; auto.
  - destruct (String.eqb ty "force").
    { apply (Hterm (force_vector self k bc)). apply silent_force_vector. }
    destruct (String.eqb ty "pressure").
    { apply post_bind.
      eapply post_weaken; [apply post_silent, silent_direction_or_normal |].
      intros o1 d Ho1. apply post_bind.
      eapply post_weaken; [apply post_silent, silent_getkey |].
      intros o2 bv Ho2. apply post_bind.
      eapply post_weaken; [apply post_silent, silent_translate_value |].
      intros o3 val Ho3. apply post_ret.
      exists i, [], [Mul (Dot (get_flux u (Mul d (Val val))) v) (ds_ i)].
      cbn [app boundary_prints fst snd].
      rewrite !boundary_prints_app, Ho1, Ho2, Ho3.
      repeat split; rewrite ?app_nil_r; auto.
      constructor; [eexists; reflexivity | constructor]. }
    destruct (String.eqb ty "stress").
    { apply post_bind.
      eapply post_weaken; [apply post_silent, silent_getkey |].
      intros o2 bv Ho2. apply post_bind.
      eapply post_weaken; [apply post_silent, silent_translate_value |].
      intros o3 val Ho3. apply post_ret.
      eexists i, [], [_].
      cbn [app boundary_prints fst snd].
      rewrite !boundary_prints_app, Ho2, Ho3.
      repeat split; rewrite ?app_nil_r; auto.
      constructor; [eexists; reflexivity | constructor]. }
    destruct (String.eqb ty "Neumann"); [apply post_raise |].
    destruct (String.eqb ty "symmetry"); apply post_raise.
Qed.

Lemma foldM_update_boundary_effect (self : solver) (k : nat) (u v : ufl) :
  forall (items : list (string * bc_settings)) (bcs : list constraint)
         (integrals_N : list ufl),
    post (foldM (update_boundary self k u v) items (bcs, integrals_N))
         (fun out r =>
            map Some (boundary_prints out)
            = map (fun item => boundary_id (base (snd item))) items
            /\ exists added terms,
                 fst r = bcs ++ added
                 /\ snd r = integrals_N ++ terms
                 /\ (List.length terms <= List.length items)%nat
                 /\ Forall (fun c => exists i,
                              In (Some i) (map (fun item => boundary_id (base (snd item)))
                                               items)
                              /\ constrains i c) added
                 /\ Forall (fun t => exists i,
                              In (Some i) (map (fun item => boundary_id (base (snd item)))
                                               items)
                              /\ integrates_over i v t) terms).
Proof.
  induction items as [| item rest IH]; intros bcs integrals_N.
  - apply post_ret. split; [reflexivity |].
    exists [], []. rewrite !app_nil_r. repeat split; auto.
  - cbn [foldM]. apply post_bind.
    eapply post_weaken; [apply update_boundary_effect |].
    intros o1 [bcs1 ints1]
           [i [added1 [terms1 [Hid [Hprint [Hb [Ht [_ [Hlen [Hc Hi]]]]]]]]]].
    cbn [fst snd] in Hb, Ht. subst bcs1 ints1.
    eapply post_weaken; [apply IH |].
    intros o2 r [Hprints [added2 [terms2 [Hb2 [Ht2 [Hlen2 [Hc2 Hi2]]]]]]].
    split.
    + rewrite boundary_prints_app, map_app, Hprint, Hprints. cbn [map app].
      rewrite Hid. reflexivity.
    + exists (added1 ++ added2), (terms1 ++ terms2).
      rewrite Hb2, Ht2, <- !app_assoc. split; [reflexivity |].
      split; [reflexivity |]. split; [rewrite length_app; cbn [List.length]; lia |].
      cbn [map]. rewrite Hid. split; apply Forall_app; split.
      * eapply Forall_impl; [| exact Hc]. intros c Hcc. exists i.
        split; [left; reflexivity | exact Hcc].
      * eapply Forall_impl; [| exact Hc2]. intros c [j [Hin Hcc]]. exists j.
        split; [right; exact Hin | exact Hcc].
      * eapply Forall_impl; [| exact Hi]. intros t Htt. exists i.
        split; [left; reflexivity | exact Htt].
      * eapply Forall_impl; [| exact Hi2]. intros t [j [Hin Htt]]. exists j.
        split; [right; exact Hin | exact Htt].
Qed.

(** The statements before the loop of [update_boundary_conditions]. *)
Lemma post_boundary_preamble (self : solver) (k ti : nat) (u v : ufl)
    (P : list Z -> list constraint * list ufl -> Prop) :
  (forall bcs0 ints0,
      Forall (fun c => forall i, ~ constrains i c) bcs0 ->
      (ints0 = [] \/ exists gS, ints0 = [Mul (Dot (Mul FacetNormal (Val gS)) v) ds]) ->
      post (foldM (update_boundary self k u v) (boundary_conditions self) (bcs0, ints0))
           (fun out r => P (boundary_prints out) r)) ->
  post (update_boundary_conditions self k ti u v)
       (fun out r => P (boundary_prints out) r).
Proof.
  intros Hloop. unfold update_boundary_conditions. apply post_bind.
  assert (Hsrc : forall c, (exists a b, c = SourceObject a b) \/ c = NoneObject ->
                           forall i, ~ constrains i c).
  { intros c [[a [b ->]] | ->] i [W [val H]]; discriminate H. }
  assert (Hpre1 : post
            (if point_source self
             then ps <- getkey "surface_source" (surface_source self) ;;
                  match ps with
                  | Some d => ret [SourceObject (source_value d) (source_direction d)]
                  | None => ret [NoneObject]
                  end
             else ret [])
            (fun o bcs0 => o = [] /\ Forall (fun c => forall i, ~ constrains i c) bcs0)).
  { destruct (point_source self); [| apply post_ret; auto].
    apply post_bind. destruct (surface_source self) as [ps |]; [| apply post_raise].
    apply post_ret. destruct ps as [d |]; apply post_ret; split; try reflexivity;
      (constructor; [apply Hsrc | constructor]); eauto. }
  eapply post_weaken; [exact Hpre1 |]. intros o1 bcs0 [-> Hbcs0]. cbn [app].
  apply post_bind.
  assert (Hpre2 : post
            (match surface_source self with
             | Some (Some d) =>
                 gS <- getkey "value" (source_value d) ;;
                 given <- present_and_true (source_direction d) ;;
                 if given then ret []
                 else ret [Mul (Dot (Mul FacetNormal (get_flux u (Val gS))) v) ds]
             | _ => ret []
             end)
            (fun o ints0 =>
               boundary_prints o = []
               /\ (ints0 = []
                   \/ exists gS, ints0 = [Mul (Dot (Mul FacetNormal (Val gS)) v) ds]))).
  { destruct (surface_source self) as [[d |] |]; try (apply post_ret; auto).
    apply post_bind. destruct (source_value d) as [gS |]; [| apply post_raise].
    apply post_ret. apply post_bind.
    eapply post_weaken; [apply post_silent, silent_present_and_true |].
    intros o given Ho. destruct given; apply post_ret; rewrite app_nil_r;
      (split; [exact Ho |]); [left; reflexivity | right; eexists; reflexivity]. }
  eapply post_weaken; [exact Hpre2 |]. intros o2 ints0 [Ho2 Hints0].
  eapply post_weaken; [apply (Hloop bcs0 ints0 Hbcs0 Hints0) |].
  intros o3 r HP. rewrite boundary_prints_app, Ho2. exact HP.
Qed.

(** X12. A call of [update_boundary_conditions] that returns has printed
    one record per entry of [self.boundary_conditions], in the order of
    the mapping, and each entry had a ['boundary_id']: the loop visits
    every boundary once, whatever the source settings before it did. *)
Theorem boundaries_visited_in_order (self : solver) (k ti : nat) (u v : ufl)
    (out : list (event Q)) (r : list constraint * list ufl) :
  update_boundary_conditions self k ti u v = (out, Return r) ->
  map Some (boundary_prints out) = declared_ids self.
Proof.
  revert out r.
  change (post (update_boundary_conditions self k ti u v)
               (fun out _ => (fun ids _ => map Some ids = declared_ids self)
                               (boundary_prints out) tt)).
  apply (@post_boundary_preamble self k ti u v
           (fun ids _ => map Some ids = declared_ids self)).
  intros bcs0 ints0 _ _.
  eapply post_weaken; [apply foldM_update_boundary_effect |].
  intros o r' [Hprints _]. exact Hprints.
Qed.

Lemma boundaries_visited_in_order_witness :
  exists out r,
    update_boundary_conditions
      (example_solver (schedule_Q None) 3 false three_boundaries)
      0 0 TrialFunction TestFunction = (out, Return r)
    /\ map Some (boundary_prints out) = [Some 3%Z; Some 1%Z; Some 2%Z].
Proof.
  eexists. eexists. split.
  - reflexivity.
  - apply (@boundaries_visited_in_order
             (example_solver (schedule_Q None) 3 false three_boundaries)
             0%nat 0%nat TrialFunction TestFunction _ _ eq_refl).
Defined.

Lemma foldM_update_boundary_records (self : solver) (k : nat) (u v : ufl) :
  forall (items : list (string * bc_settings)) (bcs : list constraint)
         (integrals_N : list ufl),
    post (foldM (update_boundary self k u v) items (bcs, integrals_N))
         (fun _ r =>
            exists contributions,
              Forall2 (contributes v) items contributions
              /\ fst r = bcs ++ List.concat (map fst contributions)
              /\ snd r = integrals_N ++ List.concat (map snd contributions)).
Proof.
  induction items as [| item rest IH]; intros bcs integrals_N.
  - apply post_ret. exists []. cbn [map List.concat]. rewrite !app_nil_r.
    repeat split. constructor.
  - cbn [foldM]. apply post_bind.
    eapply post_weaken; [apply update_boundary_effect |].
    intros o1 [bcs1 ints1]
           [i [added [terms [Hid [_ [Hb [Ht [Hxor [Hlen [Hc Hi]]]]]]]]]].
    cbn [fst snd] in Hb, Ht. subst bcs1 ints1.
    eapply post_weaken; [apply IH |].
    intros o2 r [contributions [Hall [Hb2 Ht2]]].
    exists ((added, terms) :: contributions). split; [| split].
    + constructor; [| exact Hall]. exists i. cbn [fst snd].
      repeat split; assumption.
    + rewrite Hb2. cbn [map List.concat fst]. rewrite app_assoc. reflexivity.
    + rewrite Ht2. cbn [map List.concat snd]. rewrite app_assoc. reflexivity.
Qed.

(** X13. What a returning call of [update_boundary_conditions] hands to
    [generate_form]: every [DirichletBC] is on a boundary id declared in
    the mapping; every boundary term is either the surface-source term
    over the whole boundary or an integral against the test function
    over a declared boundary id; and the two lists are, after what the
    sources put first, the contributions of the records in the order of
    the mapping, where each record contributes constraints or terms on
    its own boundary id, never both, and at most one term (two records
    on one boundary id contribute one each). *)
Theorem boundary_results_are_declared (self : solver) (k ti : nat) (u v : ufl)
    (out : list (event Q)) (bcs : list constraint) (integrals_N : list ufl) :
  update_boundary_conditions self k ti u v = (out, Return (bcs, integrals_N)) ->
  (forall W val i, In (DirichletBC W val i) bcs -> In (Some i) (declared_ids self))
  /\ (forall t, In t integrals_N ->
                (exists gS, t = Mul (Dot (Mul FacetNormal (Val gS)) v) ds)
                \/ exists i, In (Some i) (declared_ids self) /\ integrates_over i v t)
  /\ (exists bcs0 ints0 contributions,
        Forall (fun c => forall i, ~ constrains i c) bcs0
        /\ (ints0 = [] \/ exists gS, ints0 = [Mul (Dot (Mul FacetNormal (Val gS)) v) ds])
        /\ Forall2 (contributes v) (boundary_conditions self) contributions
        /\ bcs = bcs0 ++ List.concat (map fst contributions)
        /\ integrals_N = ints0 ++ List.concat (map snd contributions)).
Proof.
  intros Hrun.
  pose (P := fun (_ : list Z) (r : list constraint * list ufl) =>
    (forall W val i, In (DirichletBC W val i) (fst r) -> In (Some i) (declared_ids self))
    /\ (forall t, In t (snd r) ->
                  (exists gS, t = Mul (Dot (Mul FacetNormal (Val gS)) v) ds)
                  \/ exists i, In (Some i) (declared_ids self) /\ integrates_over i v t)
    /\ (exists bcs0 ints0 contributions,
          Forall (fun c => forall i, ~ constrains i c) bcs0
          /\ (ints0 = []
              \/ exists gS, ints0 = [Mul (Dot (Mul FacetNormal (Val gS)) v) ds])
          /\ Forall2 (contributes v) (boundary_conditions self) contributions
          /\ fst r = bcs0 ++ List.concat (map fst contributions)
          /\ snd r = ints0 ++ List.concat (map snd contributions))).
  assert (Hpost : post (update_boundary_conditions self k ti u v)
                       (fun out r => P (boundary_prints out) r)).
  { apply post_boundary_preamble. intros bcs0 ints0 Hbcs0 Hints0.
    intros o r Hfold.
    destruct (foldM_update_boundary_effect self k u v (boundary_conditions self)
                bcs0 ints0 Hfold)
      as [_ [added [terms [Hb [Ht [Hlen [Hc Hi]]]]]]].
    destruct (foldM_update_boundary_records self k u v (boundary_conditions self)
                bcs0 ints0 Hfold)
      as [contributions [Hall [Hb2 Ht2]]].
    unfold P. split; [| split].
    - rewrite Hb. intros W val i Hin. apply in_app_or in Hin.
      destruct Hin as [Hin | Hin].
      + rewrite Forall_forall in Hbcs0. exfalso.
        apply (Hbcs0 _ Hin i). exists W, val. reflexivity.
      + rewrite Forall_forall in Hc. destruct (Hc _ Hin) as [j [Hj [W' [val' Heq]]]].
        injection Heq as _ _ <-. exact Hj.
    - rewrite Ht. intros t Hin. apply in_app_or in Hin. destruct Hin as [Hin | Hin].
      + left. destruct Hints0 as [-> | [gS ->]]; [contradiction |].
        destruct Hin as [<- | []]. exists gS. reflexivity.
      + right. rewrite Forall_forall in Hi. exact (Hi _ Hin).
    - exists bcs0, ints0, contributions. repeat split; assumption. }
  exact (Hpost out (bcs, integrals_N) Hrun).
Qed.

Lemma boundary_results_are_declared_witness :
  exists out bcs integrals_N,
    update_boundary_conditions
      (example_solver (schedule_Q None) 3 false three_boundaries)
      0 0 TrialFunction TestFunction = (out, Return (bcs, integrals_N))
    /\ (forall W val i, In (DirichletBC W val i) bcs ->
                        In (Some i) [Some 3%Z; Some 1%Z; Some 2%Z])
    /\ (exists bcs0 ints0 contributions,
          Forall (fun c => forall i, ~ constrains i c) bcs0
          /\ (ints0 = []
              \/ exists gS,
                   ints0 = [Mul (Dot (Mul FacetNormal (Val gS)) TestFunction) ds])
          /\ Forall2 (contributes TestFunction) three_boundaries contributions
          /\ bcs = bcs0 ++ List.concat (map fst contributions)
          /\ integrals_N = ints0 ++ List.concat (map snd contributions)).
Proof.
  eexists. eexists. eexists. split.
  - reflexivity.
  - split.
    + exact (proj1 (@boundary_results_are_declared
                      (example_solver (schedule_Q None) 3 false three_boundaries)
                      0%nat 0%nat TrialFunction TestFunction _ _ _ eq_refl)).
    + exact (proj2 (proj2 (@boundary_results_are_declared
                      (example_solver (schedule_Q None) 3 false three_boundaries)
                      0%nat 0%nat TrialFunction TestFunction _ _ _ eq_refl))).
Defined.

(** X14. The Lame parameters of [sigma] and [generate_form]. A Poisson
    ratio of -1 or 1/2 makes the computation of [mu] or [lmbda] divide
    by zero: [sigma] raises [ZeroDivisionError], and [generate_form]
    raises it before anything else happens. For every other ratio the
    pair [(mu, lmbda)] is returned, and it determines the material: with
    a non-zero modulus, [lmbda + mu] is non-zero and
    nu = lmbda / (2 (lmbda + mu)), E = mu (3 lmbda + 2 mu) / (lmbda + mu). *)
Theorem lame_parameters (self : solver) (E nu : Q) :
  elastic_modulus (material self) = Some E ->
  poisson_ratio (material self) = Some nu ->
  ((nu == -1 \/ nu == 1 # 2)%Q ->
   lame self = raise ZeroDivisionError
   /\ (forall u, sigma self u = raise ZeroDivisionError)
   /\ (forall k attribute time_iter_ u v,
          generate_form self k attribute time_iter_ u v = raise ZeroDivisionError))
  /\ (~ (nu == -1)%Q -> ~ (nu == 1 # 2)%Q ->
      exists mu lmbda,
        lame self = ret (mu, lmbda)
        /\ (~ (E == 0)%Q ->
            ~ (lmbda + mu == 0)%Q
            /\ (nu == lmbda / (2 * (lmbda + mu)))%Q
            /\ (E == mu * (3 * lmbda + 2 * mu) / (lmbda + mu))%Q)).
Proof.
  intros HE Hnu. split.
  - intros Hbad.
    assert (Hlame : lame self = raise ZeroDivisionError).
    { unfold lame. rewrite HE, Hnu. cbn [getkey]. rewrite !bind_ret_l.
      destruct Hbad as [Hm | Hh].
      - rewrite (@pydiv_zero E (2 * (1 + nu))) by (rewrite Hm; reflexivity).
        reflexivity.
      - destruct (Qeq_bool (2 * (1 + nu)) 0) eqn:Hz.
        + rewrite (@pydiv_zero E (2 * (1 + nu))) by (apply Qeq_bool_eq; exact Hz).
          reflexivity.
        + unfold pydiv at 1. rewrite Hz. rewrite bind_ret_l.
          rewrite (@pydiv_zero (E * nu) ((1 + nu) * (1 - 2 * nu)))
            by (rewrite Hh; reflexivity).
          reflexivity. }
    split; [exact Hlame | split].
    + intros u. unfold sigma. rewrite Hlame. reflexivity.
    + intros k attribute time_iter_ u v. unfold generate_form. rewrite Hlame.
      reflexivity.
  - intros Hm Hh.
    assert (H1 : ~ (1 + nu == 0)%Q).
    { intros H. apply Hm. apply (Qplus_inj_l _ _ 1). rewrite H. reflexivity. }
    assert (H2 : ~ (1 - 2 * nu == 0)%Q).
    { intros H. apply Hh.
      assert (Hn : (nu == (1 - (1 - 2 * nu)) / 2)%Q) by field.
      rewrite Hn, H. reflexivity. }
    exists (E / (2 * (1 + nu)))%Q, (E * nu / ((1 + nu) * (1 - 2 * nu)))%Q. split.
    + unfold lame. rewrite HE, Hnu. cbn [getkey]. rewrite !bind_ret_l.
      rewrite pydiv_nonzero, bind_ret_l.
      * rewrite pydiv_nonzero, bind_ret_l; [reflexivity |].
        intros H. apply Qmult_integral in H. destruct H; contradiction.
      * intros H. apply Qmult_integral in H. destruct H as [H | H];
          [discriminate H | contradiction].
    + intros HE0.
      assert (Hsum : (E * nu / ((1 + nu) * (1 - 2 * nu)) + E / (2 * (1 + nu))
                      == E / (2 * (1 + nu) * (1 - 2 * nu)))%Q)
        by (field; split; assumption).
      assert (Hsum0 : ~ (E * nu / ((1 + nu) * (1 - 2 * nu)) + E / (2 * (1 + nu)) == 0)%Q).
      { rewrite Hsum. intros H. apply HE0.
        assert (Hback : (E == E / (2 * (1 + nu) * (1 - 2 * nu))
                              * (2 * (1 + nu) * (1 - 2 * nu)))%Q)
          by (field; split; assumption).
        rewrite Hback, H. ring. }
      split; [exact Hsum0 | split].
      * rewrite Hsum. field. repeat split; assumption.
      * rewrite Hsum. field. repeat split; assumption.
Qed.

Lemma lame_parameters_witness :
  exists mu lmbda,
    lame (example_solver (schedule_Q None) 3 false []) = ret (mu, lmbda)
    /\ ((1 # 4) == lmbda / (2 * (lmbda + mu)))%Q
    /\ (1 == mu * (3 * lmbda + 2 * mu) / (lmbda + mu))%Q.
Proof.
  destruct (proj2 (@lame_parameters (example_solver (schedule_Q None) 3 false [])
                     1%Q (1 # 4)%Q eq_refl eq_refl))
    as [mu [lmbda [Hlame Hround]]]; [discriminate | discriminate |].
  exists mu, lmbda. split; [exact Hlame |].
  apply Hround. discriminate.
Defined.

(** X15. The thermal block of [generate_form]. The attribute
    [self.temperature_distribution], once set, is never read from the
    settings again. Without the attribute, a setting that is absent or
    the number 0 adds no thermal term and leaves the attribute unset (a
    temperature of zero counts as no temperature, whatever the reference
    temperature). A non-zero number [T] sets the attribute to
    [Constant(T)]; when UFL takes that constant and the thermal stress
    as true under [if], the thermal stress built from the raw setting
    [T] is subtracted, on the first pass and, with the attribute kept,
    on every later pass; when UFL takes the thermal stress as false, the
    form is left as it is. An attribute that UFL takes as true, set
    while the settings have no ['temperature_distribution'], raises
    [KeyError]. *)
Theorem thermal_term_uses_setting (self : solver) (v F : ufl) :
  (forall k a out r,
      thermal_term self k (Some a) v F = (out, Return r) -> fst r = Some a)
  /\ (temperature_distribution self = None
      \/ temperature_distribution self = Some (PNum 0) ->
      forall k, thermal_term self k None v F = ret (None, F))
  /\ (forall E nu tec ref T,
        elastic_modulus (material self) = Some E ->
        poisson_ratio (material self) = Some nu ->
        thermal_expansion_coefficient (material self) = Some tec ->
        reference_temperature self = Some ref ->
        temperature_distribution self = Some (PNum T) ->
        ~ (nu == 1 # 2)%Q ->
        ~ (T == 0)%Q ->
        ufl_truth (surroundings self) (Val (PConstant (PNum T))) = ret true ->
        let stress_t := thermal_stress_expr E nu tec ref T (dimension self) in
        (ufl_truth (surroundings self) stress_t = ret true ->
         let r := (Some (PConstant (PNum T)),
                   Sub F (Mul (Inner stress_t (Grad v)) dx)) in
         forall k k',
           thermal_term self k None v F = ret r
           /\ thermal_term self k' (fst r) v F = ret r)
        /\ (ufl_truth (surroundings self) stress_t = ret false ->
            forall k,
              thermal_term self k None v F = ret (Some (PConstant (PNum T)), F)))
  /\ (forall k a,
        temperature_distribution self = None ->
        plain_axis_value a = true -> is_None a = false -> is_number a = false ->
        ufl_truth (surroundings self) (Val a) = ret true ->
        thermal_term self k (Some a) v F
        = raise (KeyError "temperature_distribution")).
Proof.
  split; [| split; [| split]].
  - intros k a out r Hrun. unfold thermal_term in Hrun. rewrite bind_ret_l in Hrun.
    destruct (object_truth self a) as [o1 [b | e |]] eqn:Ht; cbn [bind] in Hrun;
      try discriminate.
    destruct b.
    + destruct (translate_value self k a None) as [o2 [t | e |]];
        cbn [bind] in Hrun; try discriminate.
      destruct (temperature_distribution self) as [setting |];
        cbn [getkey bind raise ret] in Hrun; try discriminate.
      destruct (thermal_stress self setting) as [o3 [s | e |]];
        cbn [bind ret] in Hrun; try discriminate.
      destruct (ufl_truth (surroundings self) s) as [o4 [applies | e |]];
        cbn [bind ret] in Hrun; try discriminate.
      destruct applies; injection Hrun as _ <-; reflexivity.
    + cbn [ret] in Hrun. injection Hrun as _ <-. reflexivity.
  - intros [Hnone | Hzero] k; unfold thermal_term.
    + rewrite Hnone. reflexivity.
    + rewrite Hzero. reflexivity.
  - intros E nu tec ref T HE Hnu Htec Href HT Hhalf HT0 Hconst stress_t.
    assert (Htruth : Qeq_bool T 0 = false).
    { destruct (Qeq_bool T 0) eqn:Hz; [| reflexivity].
      apply Qeq_bool_eq in Hz. contradiction. }
    assert (Hstress : thermal_stress self (PNum T) = ret stress_t).
    { unfold thermal_stress. rewrite HE, Hnu, Htec, Href. cbn [getkey].
      rewrite !bind_ret_l. rewrite pydiv_nonzero, bind_ret_l; [reflexivity |].
      intros H. apply Hhalf.
      assert (Hn : (nu == (1 - (1 - 2 * nu)) / 2)%Q) by field.
      rewrite Hn, H. reflexivity. }
    assert (Hfirst : forall k,
               thermal_term self k None v F
               = (applies <- ufl_truth (surroundings self) stress_t ;;
                  if applies then
                    ret (Some (PConstant (PNum T)),
                         Sub F (Mul (Inner stress_t (Grad v)) dx))
                  else ret (Some (PConstant (PNum T)), F))).
    { intros k. unfold thermal_term. rewrite HT.
      cbn [object_truth truthy translate_value]. rewrite Htruth.
      cbn [negb]. rewrite !bind_ret_l.
      cbn [object_truth]. rewrite Hconst, !bind_ret_l.
      cbn [translate_value getkey]. rewrite !bind_ret_l.
      rewrite Hstress, bind_ret_l. reflexivity. }
    split.
    + intros Hs r k k'. split.
      * rewrite Hfirst, Hs, bind_ret_l. reflexivity.
      * unfold thermal_term. subst r. cbn [fst]. rewrite bind_ret_l.
        cbn [object_truth]. rewrite Hconst, bind_ret_l, HT.
        cbn [translate_value getkey]. rewrite !bind_ret_l.
        rewrite Hstress, bind_ret_l, Hs, bind_ret_l. reflexivity.
    + intros Hs k. rewrite Hfirst, Hs, bind_ret_l. reflexivity.
  - intros k a Hnone Hplain Hnn Hnum Ha. unfold thermal_term.
    rewrite bind_ret_l, Hnone.
    destruct a; try discriminate; cbn [object_truth]; rewrite Ha, bind_ret_l;
      reflexivity.
Qed.

Lemma thermal_term_uses_setting_witness :
  (forall k k',
      thermal_term (heated_solver (Some (PNum 100))) k None TestFunction (Float 0)
      = ret (Some (PConstant (PNum 100)),
             Sub (Float 0)
                 (Mul (Inner (thermal_stress_expr 1 (1 # 4) (1 # 100) 20 100 3)
                             (Grad TestFunction)) dx))
      /\ thermal_term (heated_solver (Some (PNum 100))) k'
           (Some (PConstant (PNum 100))) TestFunction (Float 0)
         = ret (Some (PConstant (PNum 100)),
                Sub (Float 0)
                    (Mul (Inner (thermal_stress_expr 1 (1 # 4) (1 # 100) 20 100 3)
                                (Grad TestFunction)) dx)))
  /\ (forall k,
        thermal_term (heated_solver (Some (PNum 0))) k None TestFunction (Float 0)
        = ret (None, Float 0))
  /\ thermal_term (heated_solver None) 0 (Some (PConstant (PNum 100)))
       TestFunction (Float 0)
     = raise (KeyError "temperature_distribution").
Proof.
  split; [| split].
  - exact (proj1 (proj1 (proj2 (proj2
      (@thermal_term_uses_setting (heated_solver (Some (PNum 100)))
         TestFunction (Float 0))))
      1%Q (1 # 4)%Q (1 # 100)%Q 20%Q 100%Q eq_refl eq_refl eq_refl eq_refl eq_refl
      ltac:(discriminate) ltac:(discriminate) eq_refl) eq_refl).
  - exact (proj1 (proj2
      (@thermal_term_uses_setting (heated_solver (Some (PNum 0)))
         TestFunction (Float 0))) (or_intror eq_refl)).
  - exact (proj2 (proj2 (proj2
      (@thermal_term_uses_setting (heated_solver None) TestFunction (Float 0))))
      0%nat (PConstant (PNum 100)) eq_refl eq_refl eq_refl eq_refl eq_refl).
Defined.

Lemma all_true_numbers (items : list pyval) :
  forallb number_or_None items = true ->
  all_true items = ret (forallb nonzero_number items).
Proof.
  induction items as [| a rest IH]; intros Hn; [reflexivity |].
  cbn [forallb] in Hn. apply andb_true_iff in Hn. destruct Hn as [Ha Hrest].
  cbn [all_true forallb]. destruct a; try discriminate Ha.
  - reflexivity.
  - cbn [truthy nonzero_number]. rewrite bind_ret_l.
    destruct (negb (Qeq_bool x 0)); [apply IH; exact Hrest | reflexivity].
Qed.

Lemma number_or_None_plain (items : list pyval) :
  forallb number_or_None items = true -> forallb plain_axis_value items = true.
Proof.
  induction items as [| a rest IH]; intros Hn; [reflexivity |].
  cbn [forallb] in *. apply andb_true_iff in Hn. destruct Hn as [Ha Hrest].
  apply andb_true_iff. split; [destruct a; try discriminate Ha; reflexivity |].
  apply IH. exact Hrest.
Qed.

(** X17. Displacement constraints in a mixed function space. A record
    without ['value'] adds no constraint and raises nothing; a record
    with ['value'] but without ['variable'] raises [KeyError]. For the
    variable ['displacement'] and a tuple or list of dimension length
    whose components are numbers or [None]: when every component is a
    non-zero number, one constraint is put on the whole displacement
    sub-space [V.sub(0)] with the vector as a [Constant]; as soon as one
    component is [None] or zero, the constraints are per axis, on
    [V.sub(0).sub(axis)], one for each component that is not [None]. *)
Theorem mixed_space_displacement (self : solver) (k : nat) (bc : bc_dict) (i : Z)
    (bcs : list constraint) :
  is_mixed_function_space self = true ->
  (value bc = None -> dirichlet_boundary self k bc i bcs = ret bcs)
  /\ (forall bv, value bc = Some bv -> variable bc = None ->
                 dirichlet_boundary self k bc i bcs = raise (KeyError "variable"))
  /\ (forall bv items,
        value bc = Some bv ->
        variable bc = Some "displacement" ->
        tuple_or_list bv = Some items ->
        List.length items = dimension self ->
        items <> [] ->
        forallb number_or_None items = true ->
        dirichlet_boundary self k bc i bcs
        = ret (bcs ++
               if forallb nonzero_number items
               then [DirichletBC (SubSpace SelfFunctionSpace 0)
                       (PConstant (PTuple items)) i]
               else axis_constraints (SubSpace SelfFunctionSpace 0) i 0 items)).
Proof.
  intros Hmixed. unfold dirichlet_boundary. rewrite Hmixed. cbn [negb].
  split; [| split].
  - intros Hval. rewrite Hval. reflexivity.
  - intros bv Hval Hvar. rewrite Hval, Hvar. reflexivity.
  - intros bv items Hval Hvar Hseq Hlen Hne Hnum.
    rewrite Hval, Hvar. cbn [getkey]. rewrite bind_ret_l.
    cbn [String.eqb Ascii.eqb Bool.eqb andb]. rewrite Hseq, Hlen, Nat.eqb_refl.
    rewrite (all_true_numbers items Hnum), !bind_ret_l.
    destruct (forallb nonzero_number items) eqn:Hall; cbn [negb].
    + rewrite (@translate_value_sequence self k bv items None).
      2:{ destruct bv; try discriminate Hseq; injection Hseq as <-; reflexivity. }
      unfold translate_sequence. rewrite Hlen, Nat.eqb_refl.
      destruct items as [| a rest]; [contradiction |].
      cbn [getitem nth_error]. rewrite bind_ret_l.
      cbn [forallb] in Hall. apply andb_true_iff in Hall. destruct Hall as [Ha _].
      destruct a; try discriminate Ha. cbn [is_number]. rewrite bind_ret_l.
      destruct bv; try discriminate Hseq; injection Hseq as ->; reflexivity.
    + apply constrain_axes_plain. apply number_or_None_plain. exact Hnum.
Qed.

Lemma mixed_space_displacement_witness :
  dirichlet_boundary mixed_solver 0
    (mixed_displacement (Some (PList [PNum 1; PNum 5; PNum 2])) (Some "displacement"))
    4 []
  = ret [DirichletBC (SubSpace SelfFunctionSpace 0)
           (PConstant (PTuple [PNum 1; PNum 5; PNum 2])) 4]
  /\ dirichlet_boundary mixed_solver 0
       (mixed_displacement (Some (PList [PNum 0; PNum 5; PNone])) (Some "displacement"))
       4 []
     = ret [DirichletBC (SubSpace (SubSpace SelfFunctionSpace 0) 0)
              (PConstant (PNum 0)) 4;
            DirichletBC (SubSpace (SubSpace SelfFunctionSpace 0) 1)
              (PConstant (PNum 5)) 4]
  /\ dirichlet_boundary mixed_solver 0
       (mixed_displacement None (Some "displacement")) 4 [] = ret [].
Proof.
  split; [| split].
  - exact (proj2 (proj2 (@mixed_space_displacement mixed_solver 0%nat
             (mixed_displacement (Some (PList [PNum 1; PNum 5; PNum 2]))
                (Some "displacement")) 4%Z [] eq_refl))
             (PList [PNum 1; PNum 5; PNum 2]) [PNum 1; PNum 5; PNum 2]
             eq_refl eq_refl eq_refl eq_refl ltac:(discriminate) eq_refl).
  - exact (proj2 (proj2 (@mixed_space_displacement mixed_solver 0%nat
             (mixed_displacement (Some (PList [PNum 0; PNum 5; PNone]))
                (Some "displacement")) 4%Z [] eq_refl))
             (PList [PNum 0; PNum 5; PNone]) [PNum 0; PNum 5; PNone]
             eq_refl eq_refl eq_refl eq_refl ltac:(discriminate) eq_refl).
  - exact (proj1 (@mixed_space_displacement mixed_solver 0%nat
             (mixed_displacement None (Some "displacement")) 4%Z [] eq_refl)
             eq_refl).
Defined.

Lemma constrain_axes_without_surface_source (self : solver) (k : nat)
    (sub : nat -> space) (i : Z) :
  forall (bv : list pyval) (axis_i : nat) (bcs : list constraint),
    constrain_axes (without_surface_source self) k sub i axis_i bv bcs
    = constrain_axes self k sub i axis_i bv bcs.
Proof.
  induction bv as [| disp rest IH]; intros axis_i bcs; [reflexivity |].
  cbn [constrain_axes].
  change (translate_value (without_surface_source self) k disp None)
    with (translate_value self k disp None).
  destruct (if is_None disp then ret bcs
            else val <- translate_value self k disp None ;;
                 ret (bcs ++ [DirichletBC (sub axis_i) val i]))
    as [o [bcs' | e |]]; cbn [bind]; try reflexivity.
  rewrite IH. reflexivity.
Qed.

Lemma update_boundary_without_surface_source (self : solver) (k : nat) (u v : ufl)
    (acc : list constraint * list ufl) (item : string * bc_settings) :
  update_boundary (without_surface_source self) k u v acc item
  = update_boundary self k u v acc item.
Proof.
  unfold update_boundary.
  change (get_boundary_variable (without_surface_source self) (snd item) None)
    with (get_boundary_variable self (snd item) None).
  change (force_vector (without_surface_source self) k)
    with (force_vector self k).
  change (translate_value (without_surface_source self) k)
    with (translate_value self k).
  assert (Hd : forall bc i bcs,
             dirichlet_boundary (without_surface_source self) k bc i bcs
             = dirichlet_boundary self k bc i bcs).
  { intros bc i bcs. unfold dirichlet_boundary.
    change (is_mixed_function_space (without_surface_source self))
      with (is_mixed_function_space self).
    change (dimension (without_surface_source self)) with (dimension self).
    change (translate_value (without_surface_source self) k)
      with (translate_value self k).
    destruct (is_mixed_function_space self); cbn [negb].
    - destruct (value bc) as [bv |]; [| reflexivity].
      destruct (getkey "variable" (variable bc)) as [o [var | e |]];
        cbn [bind]; try reflexivity.
      destruct (String.eqb var "displacement"); [| reflexivity].
      destruct (tuple_or_list bv) as [items |]; [| reflexivity].
      destruct (if (List.length items =? dimension self)%nat
                then a <- all_true items ;; ret (negb a) else ret false)
        as [o1 [per_axis | e |]]; cbn [bind]; try reflexivity.
      destruct per_axis; [| reflexivity].
      rewrite constrain_axes_without_surface_source. reflexivity.
    - destruct (getkey "value" (value bc)) as [o [bv | e |]];
        cbn [bind]; try reflexivity.
      destruct (tuple_or_list bv) as [items |]; [| reflexivity].
      destruct (List.length items =? dimension self)%nat; [| reflexivity].
      rewrite constrain_axes_without_surface_source. reflexivity. }
  destruct (getkey "boundary_id" (boundary_id (base (snd item)))) as [o [i | e |]];
    cbn [bind]; try reflexivity.
  destruct (emit (PrintBoundary i)) as [o1 [[] | e |]]; cbn [bind]; try reflexivity.
  destruct (getkey "type" (type (get_boundary_variable self (snd item) None)))
    as [o2 [ty | e |]]; cbn [bind]; try reflexivity.
  rewrite Hd. reflexivity.
Qed.

Lemma foldM_ext {A B} (f g : A -> B -> M Q A) :
  (forall acc x, f acc x = g acc x) ->
  forall xs acc, foldM f xs acc = foldM g xs acc.
Proof.
  intros Hfg. induction xs as [| x rest IH]; intros acc; [reflexivity |].
  cbn [foldM]. rewrite Hfg. destruct (g acc x) as [o [acc' | e |]];
    cbn [bind]; try reflexivity.
  rewrite IH. reflexivity.
Qed.

(** X18. The sources handled before the loop of
    [update_boundary_conditions]. A surface source that comes with a
    direction is dropped: the direction is read into a local that is
    never used and no term is added, so the result is the one of the
    same settings without ['surface_source']. With the point-source flag
    on, the object appended to the constraints is the ['surface_source']
    entry itself: the call raises [KeyError] when that entry is absent,
    and otherwise every result starts with that object. *)
Theorem sources_before_the_loop (self : solver) (k time_iter_ : nat) (u v : ufl) :
  (forall d gS dir,
      point_source self = false ->
      surface_source self = Some (Some d) ->
      source_value d = Some gS ->
      source_direction d = Some dir ->
      truthy dir = ret true ->
      update_boundary_conditions self k time_iter_ u v
      = update_boundary_conditions (without_surface_source self) k time_iter_ u v)
  /\ (point_source self = true ->
      surface_source self = None ->
      update_boundary_conditions self k time_iter_ u v
      = raise (KeyError "surface_source"))
  /\ (forall d out r,
        point_source self = true ->
        surface_source self = Some (Some d) ->
        update_boundary_conditions self k time_iter_ u v = (out, Return r) ->
        exists rest,
          fst r = SourceObject (source_value d) (source_direction d) :: rest).
Proof.
  split; [| split].
  - intros d gS dir Hps Hsrc Hval Hdir Htrue.
    unfold update_boundary_conditions.
    cbn [without_surface_source point_source surface_source boundary_conditions].
    rewrite Hps, Hsrc, Hval, Hdir. cbn [getkey present_and_true].
    rewrite !bind_ret_l, Htrue, !bind_ret_l.
    apply foldM_ext. intros acc item. symmetry.
    apply update_boundary_without_surface_source.
  - intros Hps Hsrc. unfold update_boundary_conditions. rewrite Hps, Hsrc.
    reflexivity.
  - intros d out r Hps Hsrc Hrun. unfold update_boundary_conditions in Hrun.
    rewrite Hps, Hsrc in Hrun. cbn [getkey] in Hrun. rewrite !bind_ret_l in Hrun.
    destruct (source_value d) as [gS |] eqn:Hval; [| discriminate Hrun].
    cbn [getkey] in Hrun. rewrite bind_assoc, bind_ret_l, bind_assoc in Hrun.
    destruct (present_and_true (source_direction d)) as [o1 [given | e |]];
      cbn [bind] in Hrun; try discriminate Hrun.
    assert (Hfold : forall ints0 o2 r2,
               foldM (update_boundary self k u v) (boundary_conditions self)
                     ([SourceObject (Some gS) (source_direction d)], ints0)
               = (o2, Return r2) ->
               exists rest,
                 fst r2 = SourceObject (Some gS) (source_direction d) :: rest).
    { intros ints0 o2 r2 Hf.
      destruct (foldM_update_boundary_effect self k u v (boundary_conditions self)
                  [SourceObject (Some gS) (source_direction d)] ints0 Hf)
        as [_ [added [terms [Hb _]]]].
      exists added. rewrite Hb. reflexivity. }
    destruct given; cbn [ret bind] in Hrun.
    + destruct (foldM (update_boundary self k u v) (boundary_conditions self)
                  ([SourceObject (Some gS) (source_direction d)], []))
        as [o2 [r2 | e |]] eqn:Hf; try discriminate Hrun.
      injection Hrun as _ <-. exact (Hfold _ _ _ Hf).
    + destruct (foldM (update_boundary self k u v) (boundary_conditions self)
                  ([SourceObject (Some gS) (source_direction d)],
                   [Mul (Dot (Mul FacetNormal (get_flux u (Val gS))) v) ds]))
        as [o2 [r2 | e |]] eqn:Hf; try discriminate Hrun.
      injection Hrun as _ <-. exact (Hfold _ _ _ Hf).
Qed.

Lemma sources_before_the_loop_witness :
  update_boundary_conditions (sourced_solver false (Some (Some directed_source)))
    0 0 TrialFunction TestFunction
  = update_boundary_conditions
      (without_surface_source (sourced_solver false (Some (Some directed_source))))
      0 0 TrialFunction TestFunction
  /\ update_boundary_conditions (sourced_solver true None) 0 0
       TrialFunction TestFunction
     = raise (KeyError "surface_source")
  /\ exists out r rest,
       update_boundary_conditions (sourced_solver true (Some (Some directed_source)))
         0 0 TrialFunction TestFunction = (out, Return r)
       /\ fst r = SourceObject (Some (PNum 9))
                    (Some (PTuple [PNum 1; PNum 0; PNum 0])) :: rest.
Proof.
  split; [| split].
  - exact (proj1 (@sources_before_the_loop
                    (sourced_solver false (Some (Some directed_source)))
                    0%nat 0%nat TrialFunction TestFunction)
             directed_source (PNum 9) (PTuple [PNum 1; PNum 0; PNum 0])
             eq_refl eq_refl eq_refl eq_refl eq_refl).
  - exact (proj1 (proj2 (@sources_before_the_loop (sourced_solver true None)
                           0%nat 0%nat TrialFunction TestFunction))
             eq_refl eq_refl).
  - destruct (proj2 (proj2 (@sources_before_the_loop
                              (sourced_solver true (Some (Some directed_source)))
                              0%nat 0%nat TrialFunction TestFunction))
                directed_source _ _ eq_refl eq_refl eq_refl) as [rest Hrest].
    eexists. eexists. exists rest. split; [reflexivity | exact Hrest].
Defined.

Lemma write_sub_map (V : list dof) (i : nat) (f g : dof -> Q) :
  write_sub V i f (map g V)
  = map (fun d => if (sub_space d =? i)%nat then f d else g d) V.
Proof.
  induction V as [| d V IH]; [reflexivity |].
  cbn [write_sub map]. rewrite IH. reflexivity.
Qed.

Lemma repeat_zero_map (V : list dof) :
  repeat 0%Q (List.length V) = map (fun _ : dof => 0%Q) V.
Proof. induction V as [| d V IH]; [reflexivity |]. cbn. rewrite IH. reflexivity. Qed.

Lemma Forall2_Qeq_flat_map (A : Type) (f g : A -> list Q) (xs : list A) :
  (forall x, Forall2 Qeq (f x) (g x)) ->
  Forall2 Qeq (flat_map f xs) (flat_map g xs).
Proof.
  intros Hfg. induction xs as [| x rest IH]; [constructor |].
  cbn [flat_map]. apply Forall2_app; [apply Hfg | exact IH].
Qed.

(** X19. The rotational modes of [build_nullspace]. On a nodal space
    and a zero sample vector, the last three of the six vectors built in
    3-D are the infinitesimal rotations about the z, y and x axes, in
    this order: at every node [p] their three entries are the cross
    product of the axis with [p]. In 2-D the third vector is the rotation
    in the plane, [(-y, x)] at every node. *)
Theorem nullspace_rotations_are_cross_products (nodes : list (list Q)) :
  (exists t0 t1 t2 r3 r4 r5,
      build_nullspace 3 (nodal_space 3 nodes) (zero_vector (nodal_space 3 nodes))
      = ret {| vectors := [t0; t1; t2; r3; r4; r5]; orthonormalized := true |}
      /\ Forall2 Qeq (entries r3) (rotation_field [0; 0; 1]%Q nodes)
      /\ Forall2 Qeq (entries r4) (rotation_field [0; 1; 0]%Q nodes)
      /\ Forall2 Qeq (entries r5) (rotation_field [1; 0; 0]%Q nodes))
  /\ (exists t0 t1 r2,
        build_nullspace 2 (nodal_space 2 nodes) (zero_vector (nodal_space 2 nodes))
        = ret {| vectors := [t0; t1; r2]; orthonormalized := true |}
        /\ Forall2 Qeq (entries r2) (planar_rotation_field nodes)).
Proof.
  split.
  - do 6 eexists. split.
    + unfold build_nullspace, nullspace_basis. cbn [repeat update_at].
      rewrite bind_ret_l. cbn [map]. reflexivity.
    + unfold apply_insert, set_x, copy, zero_vector. cbn [entries].
      rewrite !repeat_zero_map, !write_sub_map.
      unfold nodal_space, rotation_field. rewrite !flat_map_concat_map, !concat_map,
        !map_map, <- !flat_map_concat_map.
      repeat split; apply Forall2_Qeq_flat_map; intros p;
        unfold cross, node_dofs;
        cbn [seq map sub_space coordinates Nat.eqb nth];
        repeat (apply Forall2_cons); try apply Forall2_nil; ring.
  - do 3 eexists. split.
    + unfold build_nullspace, nullspace_basis. cbn [repeat update_at].
      rewrite bind_ret_l. cbn [map]. reflexivity.
    + unfold apply_insert, set_x, copy, zero_vector. cbn [entries].
      rewrite !repeat_zero_map, !write_sub_map.
      unfold nodal_space, planar_rotation_field.
      rewrite !flat_map_concat_map, !concat_map, !map_map, <- !flat_map_concat_map.
      apply Forall2_Qeq_flat_map; intros p.
      unfold cross, node_dofs.
      cbn [seq map sub_space coordinates Nat.eqb nth firstn].
      repeat (apply Forall2_cons); try apply Forall2_nil; ring.
Qed.

Section BoundaryFacetsFacts.

Variable facet : Type.
Variable mark : (facet -> bool) -> Z -> (facet -> Z) -> M Q (facet -> Z).

Lemma marking_from (conditions : list (string * marked_bc facet)) :
  (forall subdomain id labels,
      (0 <= id)%Z -> mark subdomain id labels = ret (relabel subdomain id labels)) ->
  Forall (fun item => boundary (snd item) <> None
                      /\ exists id, boundary_id (base (bc_record (snd item))) = Some id
                                    /\ (0 <= id)%Z) conditions ->
  forall labels0,
  exists labels,
    foldM (fun boundary_facets item =>
             subdomain <- getkey "boundary" (boundary (snd item)) ;;
             id <- getkey "boundary_id" (boundary_id (base (bc_record (snd item)))) ;;
             mark subdomain id boundary_facets)
          conditions labels0 = ret labels
    /\ forall f, labels f = match find (contains f) (rev conditions) with
                            | Some item => id_of item
                            | None => labels0 f
                            end.
Proof.
  intros Hmark Hall. induction Hall as [| item rest [Hsd [id [Hid Hpos]]] _ IH];
    intros labels0.
  - exists labels0. split; [reflexivity | intros f; reflexivity].
  - destruct (boundary (snd item)) as [subdomain |] eqn:Hb; [| contradiction].
    destruct (IH (relabel subdomain id labels0)) as [labels [Hrun Hlabels]].
    exists labels. split.
    + cbn [foldM]. rewrite Hb, Hid. cbn [getkey]. rewrite !bind_ret_l.
      rewrite (Hmark subdomain id labels0 Hpos), bind_ret_l. exact Hrun.
    + intros f. rewrite (Hlabels f). cbn [rev]. rewrite find_app. cbn [find].
      destruct (find (contains f) (rev rest)); [reflexivity |].
      unfold contains, relabel. rewrite Hb.
      destruct (subdomain f); [| reflexivity].
      unfold id_of. rewrite Hid. reflexivity.
Qed.

End BoundaryFacetsFacts.

(** X20. Marking the boundary facets. When every record of the mapping
    has a ['boundary'] sub-domain and a ['boundary_id'] that [mark]
    accepts, [generate_boundary_facets] returns labels under which a
    facet carries the id of the last record, in the order of the
    mapping, whose sub-domain contains it, and 0 when no sub-domain
    contains it: where boundaries overlap the later one wins, and the
    label 0 of an unmarked facet cannot be told from a boundary declared
    with id 0. *)
Theorem last_mark_wins (facet : Type)
    (mark : (facet -> bool) -> Z -> (facet -> Z) -> M Q (facet -> Z))
    (conditions : list (string * marked_bc facet)) :
  (forall subdomain id labels,
      (0 <= id)%Z -> mark subdomain id labels = ret (relabel subdomain id labels)) ->
  Forall (fun item => boundary (snd item) <> None
                      /\ exists id, boundary_id (base (bc_record (snd item))) = Some id
                                    /\ (0 <= id)%Z) conditions ->
  exists labels,
    generate_boundary_facets mark conditions = ret labels
    /\ (forall f, labels f = match find (contains f) (rev conditions) with
                             | Some item => id_of item
                             | None => 0%Z
                             end)
    /\ (forall f, existsb (contains f) conditions = false -> labels f = 0%Z).
Proof.
  intros Hmark Hall.
  destruct (@marking_from facet mark conditions Hmark Hall (fun _ => 0%Z))
    as [labels [Hrun Hlabels]].
  exists labels. split; [exact Hrun | split; [exact Hlabels |]].
  intros f Hnone. rewrite Hlabels.
  destruct (find (contains f) (rev conditions)) as [item |] eqn:Hfind; [| reflexivity].
  apply find_some in Hfind. destruct Hfind as [Hin Hc].
  apply in_rev in Hin.
  assert (Hex : existsb (contains f) conditions = true)
    by (apply existsb_exists; exists item; split; assumption).
  rewrite Hex in Hnone. discriminate Hnone.
Qed.

Lemma last_mark_wins_witness :
  exists labels,
    generate_boundary_facets size_t_mark overlapping_boundaries = ret labels
    /\ map labels [0; 3; 4; 5; 6; 9; 10]%nat = [1; 1; 2; 2; 2; 2; 0]%Z.
Proof.
  destruct (@last_mark_wins nat size_t_mark overlapping_boundaries)
    as [labels [Hrun [Hlabels _]]].
  - intros subdomain id labels Hpos. unfold size_t_mark.
    destruct (id <? 0)%Z eqn:Hneg; [apply Z.ltb_lt in Hneg; lia | reflexivity].
  - repeat constructor; try discriminate; eexists; split; try reflexivity; lia.
  - exists labels. split; [exact Hrun |].
    cbn [map]. rewrite !Hlabels. reflexivity.
Defined.

(** X21. [velocity()] is the backward difference of the two newest
    buffers. With a fixed non-zero step [dt] its value at a point is
    (w_current - w_prev) / dt. With a time series, at every index inside
    the series, it still returns a quotient, but by [Constant(dt)] for
    the step [ts[k] - ts[k]], so the quotient has no value anywhere. In
    a mixed function space it raises [SolverError], but only after the
    time-step lookup, whose own error comes first. *)
Theorem velocity_is_backward_difference (self : solver) (k : nat) :
  (forall dt wc wp wpp,
      is_mixed_function_space self = false ->
      time_step (schedule self) = Some dt ->
      ~ (dt == 0)%Q ->
      exists e,
        velocity self k = ret e
        /\ pointwise (buffers_at wc wp wpp) e = Some ((wc - wp) / dt)%Q)
  /\ (forall series wc wp wpp,
        is_mixed_function_space self = false ->
        time_step (schedule self) = None ->
        time_series (schedule self) = Some series ->
        (k < List.length series)%nat ->
        exists e,
          velocity self k = ret e
          /\ pointwise (buffers_at wc wp wpp) e = None)
  /\ (is_mixed_function_space self = true ->
      (forall dt, time_step (schedule self) = Some dt ->
                  velocity self k
                  = raise (SolverError
                      "subclass with mixed_function_space must override this function"))
      /\ (time_step (schedule self) = None ->
          time_series (schedule self) = None ->
          velocity self k = raise (KeyError "time_series"))).
Proof.
  split; [| split].
  - intros dt wc wp wpp Hplain Hdt Hnz. eexists. split.
    + unfold velocity, get_time_step. rewrite Hdt, bind_ret_l, Hplain. reflexivity.
    + cbn [pointwise w_current_ w_prev_ buffers_at String.eqb Ascii.eqb Bool.eqb andb].
      destruct (Qeq_bool dt 0) eqn:Hz; [| reflexivity].
      apply Qeq_bool_eq in Hz. contradiction.
  - intros series wc wp wpp Hplain Hdt Hseries Hk.
    destruct (nth_error series k) as [a |] eqn:Hnth.
    2:{ apply nth_error_None in Hnth. exfalso.
        exact (Nat.lt_irrefl _ (Nat.lt_le_trans _ _ _ Hk Hnth)). }
    exists (Div (Sub w_current_ w_prev_) (Val (PConstant (PNum (a - a)%Q)))). split.
    + unfold velocity, get_time_step. rewrite Hdt, Hseries. cbn [getkey].
      rewrite bind_ret_l.
      assert (Hle : (k <=? List.length series)%nat = true)
        by (apply Nat.leb_le, Nat.lt_le_incl; exact Hk).
      rewrite Hle. unfold getitem. rewrite Hnth, !bind_ret_l, Hplain. reflexivity.
    + cbn [pointwise w_current_ w_prev_ buffers_at String.eqb Ascii.eqb Bool.eqb andb].
      assert (Hz : Qeq_bool (a - a) 0 = true)
        by (apply Qeq_bool_iff; ring).
      rewrite Hz. reflexivity.
  - intros Hmixed. split.
    + intros dt Hdt. unfold velocity, get_time_step.
      rewrite Hdt, bind_ret_l, Hmixed. reflexivity.
    + intros Hdt Hseries. unfold velocity, get_time_step. rewrite Hdt, Hseries.
      reflexivity.
Qed.

Lemma velocity_is_backward_difference_witness :
  (exists e,
      velocity (heated_solver None) 2 = ret e
      /\ pointwise (buffers_at 5 3 0) e = Some ((5 - 3) / 1)%Q)
  /\ (exists e,
        velocity (example_solver (series_schedule true 0 0.3 [0; 0.1; 0.3]%Q) 3 false [])
          1 = ret e
        /\ pointwise (buffers_at 5 3 0) e = None)
  /\ velocity mixed_solver 0 = raise (KeyError "time_series").
Proof.
  split; [| split].
  - exact (proj1 (@velocity_is_backward_difference (heated_solver None) 2%nat)
             1%Q 5%Q 3%Q 0%Q eq_refl eq_refl ltac:(discriminate)).
  - exact (proj1 (proj2 (@velocity_is_backward_difference
             (example_solver (series_schedule true 0 0.3 [0; 0.1; 0.3]%Q) 3 false [])
             1%nat))
             [0; 0.1; 0.3]%Q 5%Q 3%Q 0%Q eq_refl eq_refl eq_refl
             ltac:(cbn; repeat constructor)).
  - exact (proj2 (proj2 (proj2 (@velocity_is_backward_difference mixed_solver 0%nat))
             eq_refl) eq_refl eq_refl).
Defined.

Lemma translated_plain (v : pyval) :
  plain_axis_value v = true -> is_None v = false ->
  plain_axis_value (translated v) = true
  /\ is_None (translated v) = false
  /\ translated (translated v) = translated v.
Proof. destruct v; intros Hp Hn; try discriminate; repeat split. Qed.

Lemma translate_regions_in_place (self : solver) (k : nat) :
  forall (d : list (string * nat)) (st : store),
    (forall name r, In (name, r) d ->
        exists v, st r = Some v /\ plain_axis_value v = true /\ is_None v = false) ->
    exists st',
      translate_regions self k d st = (st', ret tt)
      /\ forall a, st' a = if region_at d a then option_map translated (st a)
                           else st a.
Proof.
  induction d as [| [name r] rest IH]; intros st Hd.
  - exists st. split; [reflexivity | intros a; reflexivity].
  - destruct (Hd name r (or_introl eq_refl)) as [v [Hv [Hplain Hnone]]].
    destruct (translated_plain v Hplain Hnone) as [Hplain' [Hnone' Hidem]].
    destruct (IH (store_set st r (translated v))) as [st' [Hrun Hst']].
    { intros name' r' Hin. unfold store_set.
      destruct (r' =? r)%nat eqn:Heq.
      - exists (translated v). repeat split; assumption.
      - exact (Hd name' r' (or_intror Hin)). }
    exists st'. split.
    + cbn [translate_regions]. rewrite Hv.
      rewrite (translate_value_plain self k v None Hplain Hnone).
      cbn [ret]. rewrite Hrun. reflexivity.
    + intros a. rewrite (Hst' a). unfold region_at. cbn [existsb snd].
      unfold store_set. destruct (Nat.eqb_spec a r) as [Heq | Hneq].
      * subst a. rewrite Nat.eqb_refl, Hv. cbn [orb option_map].
        destruct (existsb (fun item => (snd item =? r)%nat) rest);
          cbn [option_map]; rewrite ?Hidem; reflexivity.
      * assert (Hra : (r =? a)%nat = false)
          by (apply Nat.eqb_neq; intros Heq; apply Hneq; symmetry; exact Heq).
        rewrite Hra. cbn [orb]. reflexivity.
Qed.

(** X22. [get_body_source] translates a multi-region source in place.
    The dict it returns is a shallow copy, so the assignment to
    [vdict[k]['value']] writes into the dicts of [self.body_source]:
    when the values of the regions are numbers or dolfin objects, the
    call returns the same regions, and afterwards the dict of every
    region, as seen from [self.body_source] too, holds the translated
    value (a number has become a [Constant]) while every other object
    is untouched. A second call changes nothing more. *)
Theorem get_body_source_translates_in_place (self : solver) (k : nat)
    (d : list (string * nat)) (st : store) :
  (forall name r, In (name, r) d ->
      exists v, st r = Some v /\ plain_axis_value v = true /\ is_None v = false) ->
  exists st',
    get_body_source self k (Regions d) st = (st', ret (Regions d))
    /\ (forall name r v, In (name, r) d -> st r = Some v ->
                         st' r = Some (translated v))
    /\ (forall a, region_at d a = false -> st' a = st a)
    /\ (forall k', exists st'',
          get_body_source self k' (Regions d) st' = (st'', ret (Regions d))
          /\ forall a, st'' a = st' a).
Proof.
  intros Hd.
  destruct (translate_regions_in_place self k d st Hd) as [st' [Hrun Hst']].
  exists st'. split; [| split; [| split]].
  - unfold get_body_source. rewrite Hrun. reflexivity.
  - intros name r v Hin Hv. rewrite (Hst' r).
    assert (Hat : region_at d r = true).
    { apply existsb_exists. exists (name, r). split; [exact Hin |].
      apply Nat.eqb_refl. }
    rewrite Hat, Hv. reflexivity.
  - intros a Hat. rewrite (Hst' a), Hat. reflexivity.
  - intros k'.
    destruct (translate_regions_in_place self k' d st') as [st'' [Hrun' Hst'']].
    { intros name r Hin. destruct (Hd name r Hin) as [v [Hv [Hplain Hnone]]].
      destruct (translated_plain v Hplain Hnone) as [Hplain' [Hnone' _]].
      exists (translated v). split; [| split; assumption].
      rewrite (Hst' r).
      assert (Hat : region_at d r = true).
      { apply existsb_exists. exists (name, r). split; [exact Hin |].
        apply Nat.eqb_refl. }
      rewrite Hat, Hv. reflexivity. }
    exists st''. split.
    + unfold get_body_source. rewrite Hrun'. reflexivity.
    + intros a. rewrite (Hst'' a). destruct (region_at d a) eqn:Hat; [| reflexivity].
      rewrite (Hst' a), Hat.
      apply existsb_exists in Hat. destruct Hat as [[name r] [Hin Heq]].
      cbn [snd] in Heq. apply Nat.eqb_eq in Heq. subst r.
      destruct (Hd name a Hin) as [v [Hv [Hplain Hnone]]].
      rewrite Hv. cbn [option_map].
      destruct (translated_plain v Hplain Hnone) as [_ [_ Hidem]].
      rewrite Hidem. reflexivity.
Qed.

Lemma get_body_source_translates_in_place_witness :
  exists st',
    get_body_source (heated_solver None) 0 (Regions three_regions) gravity_store
    = (st', ret (Regions three_regions))
    /\ st' 0%nat = Some (PConstant (PNum 9.81))
    /\ st' 1%nat = Some (PConstant (PNum 0))
    /\ st' 2%nat = None.
Proof.
  destruct (@get_body_source_translates_in_place (heated_solver None) 0%nat
              three_regions gravity_store) as [st' [Hrun [Hin [Hout _]]]].
  - intros name r Hd.
    destruct Hd as [Hd | [Hd | [Hd | []]]]; injection Hd as _ <-;
      eexists; (split; [reflexivity | split; reflexivity]).
  - exists st'. split; [exact Hrun |]. split; [| split].
    + exact (Hin "steel" 0%nat (PNum 9.81) (or_introl eq_refl) eq_refl).
    + exact (Hin "air" 1%nat (PNum 0) (or_intror (or_introl eq_refl)) eq_refl).
    + exact (Hout 2%nat eq_refl).
Defined.

Lemma load_elasticity_global_unbound (external_names : list string) (name : string) :
  existsb (String.eqb name) elasticity_module_globals = false ->
  ~ In name external_names ->
  load_elasticity_global external_names name = raise (NameError name).
Proof.
  intros Hmod Hext. unfold load_elasticity_global.
  rewrite existsb_app, Hmod. cbn [orb].
  destruct (existsb (String.eqb name) external_names) eqn:He; [| reflexivity].
  apply existsb_exists in He. destruct He as [x [Hin Hx]].
  apply String.eqb_eq in Hx. subst x. contradiction.
Qed.

(** X23. [strain_energy] cannot return. Its [return] expression uses
    the names [eps] and [v], which are neither parameters nor locals of
    the method nor bound by the module; unless the star import binds
    [eps], every call ends in an exception: with valid material
    parameters and [tr] imported it is [NameError] for [eps], raised
    without any output, and otherwise it is the [KeyError] or
    [ZeroDivisionError] of the Lame parameters or the [NameError] for
    [tr]. *)
Theorem strain_energy_cannot_return (external_names : list string)
    (self : solver) (u : ufl) :
  ~ In "eps" external_names ->
  (exists e, strain_energy external_names self u = raise e)
  /\ (forall p, lame self = ret p ->
                In "tr" external_names ->
                strain_energy external_names self u = raise (NameError "eps")).
Proof.
  intros Heps.
  assert (Hload : load_elasticity_global external_names "eps"
                  = raise (NameError "eps"))
    by (apply load_elasticity_global_unbound; [reflexivity | exact Heps]).
  assert (Hlame : (exists e, lame self = raise e) \/ exists p, lame self = ret p).
  { unfold lame.
    destruct (elastic_modulus (material self)) as [E |]; [| left; eexists; reflexivity].
    destruct (poisson_ratio (material self)) as [nu |]; [| left; eexists; reflexivity].
    cbn [getkey]. rewrite !bind_ret_l. unfold pydiv.
    destruct (Qeq_bool (2 * (1 + nu)) 0); [left; eexists; reflexivity |].
    rewrite bind_ret_l.
    destruct (Qeq_bool ((1 + nu) * (1 - 2 * nu)) 0); [left; eexists; reflexivity |].
    right. eexists. reflexivity. }
  split.
  - unfold strain_energy. destruct Hlame as [[e He] | [p Hp]].
    + exists e. rewrite He. reflexivity.
    + rewrite Hp, bind_ret_l. unfold load_elasticity_global at 1.
      destruct (existsb (String.eqb "tr") (elasticity_module_globals ++ external_names)).
      * rewrite bind_ret_l, Hload. exists (NameError "eps"). reflexivity.
      * exists (NameError "tr"). reflexivity.
  - intros p Hp Htr. unfold strain_energy. rewrite Hp, bind_ret_l.
    unfold load_elasticity_global at 1.
    assert (Hb : existsb (String.eqb "tr") (elasticity_module_globals ++ external_names)
                 = true).
    { apply existsb_exists. exists "tr"%string. split; [| reflexivity].
      apply in_or_app. right. exact Htr. }
    rewrite Hb, bind_ret_l, Hload. reflexivity.
Qed.

Lemma strain_energy_cannot_return_witness :
  strain_energy ["tr"; "grad"; "sym"; "Identity"; "Constant"; "len"]
    (example_solver (schedule_Q None) 3 false []) TrialFunction
  = raise (NameError "eps").
Proof.
  assert (Hext : ~ In "eps" ["tr"; "grad"; "sym"; "Identity"; "Constant"; "len"]).
  { cbn [In]. intros H.
    repeat (destruct H as [H | H]; [discriminate H |]). exact H. }
  exact (proj2 (@strain_energy_cannot_return
                  ["tr"; "grad"; "sym"; "Identity"; "Constant"; "len"]
                  (example_solver (schedule_Q None) 3 false []) TrialFunction Hext)
           _ eq_refl (or_introl eq_refl)).
Defined.

